(** * Verification of the credential-rotating upload pipeline of [bot.py]

    The development embeds, function by function, the parts of [src/bot.py]
    that the upload pipeline consists of:

    - the text helpers Python provides ([str.lower], [str.strip],
      [str.split], substring test, [Path(name).parts]);
    - [is_safe_member_name] and [is_image_filename], and the member filter
      of [handle_container];
    - [upload_to_imgbb], over an explicit model of what [requests.post]
      can answer;
    - the credential pool ([initialize_imgbb_keys], [get_current_imgbb_key],
      [mark_key_as_valid], [mark_key_as_failed], [rotate_to_next_key]);
    - [request_new_key] and the listener branch of [handle_text_messages];
    - [process_and_upload_images].

    Text is modelled by Rocq strings: one [ascii] per code point, code points
    below 256.  Global variables of the module are fields of explicit state
    records that every function receives and returns. *)

From Stdlib Require Import String Ascii ZArith Lia Sorted.
From stdpp Require Import base gmap sets list strings sorting.

Set Warnings "-register-all,-clear-no-such-hyp".

Open Scope string_scope.
Open Scope list_scope.

(** ** Python text primitives *)

Module PyStr.

Definition code (a : ascii) : nat := nat_of_ascii a.

(** [str.lower] on one code point below 256: A-Z, and the Latin-1 capitals
    0xC0-0xDE except the multiplication sign 0xD7, move up by 32. *)
Definition lower_char (a : ascii) : ascii :=
  let n := code a in
  if (65 <=? n)%nat && (n <=? 90)%nat then ascii_of_nat (n + 32)
  else if (192 <=? n)%nat && (n <=? 222)%nat && negb (n =? 215)%nat
       then ascii_of_nat (n + 32)
  else a.

Fixpoint lower (s : string) : string :=
  match s with
  | EmptyString => EmptyString
  | String a s' => String (lower_char a) (lower s')
  end.

(** The characters [str.strip()] removes (code points below 256 for which
    [str.isspace] holds). *)
Definition is_space (a : ascii) : bool :=
  let n := code a in
  ((9 <=? n)%nat && (n <=? 13)%nat) || ((28 <=? n)%nat && (n <=? 32)%nat)
  || (n =? 133)%nat || (n =? 160)%nat.

Fixpoint lstrip (s : string) : string :=
  match s with
  | EmptyString => EmptyString
  | String a s' => if is_space a then lstrip s' else s
  end.

(** [rstrip] keeps a character when it is not a space or when something
    that is kept follows it. *)
Fixpoint rstrip (s : string) : string :=
  match s with
  | EmptyString => EmptyString
  | String a s' =>
      match rstrip s' with
      | EmptyString => if is_space a then EmptyString else String a EmptyString
      | r => String a r
      end
  end.

Definition strip (s : string) : string := rstrip (lstrip s).

(** Cutting a string at every character that satisfies [is_sep]: always
    at least one field, empty fields kept. *)
Fixpoint split_by (is_sep : ascii → bool) (s : string) : list string :=
  match s with
  | EmptyString => [EmptyString]
  | String a s' =>
      if is_sep a then EmptyString :: split_by is_sep s'
      else match split_by is_sep s' with
           | f :: fs => String a f :: fs
           | [] => [String a EmptyString]
           end
  end.

(** [s.split(sep)] for a one-character separator. *)
Definition split (sep : ascii) (s : string) : list string :=
  split_by (fun a => Ascii.eqb a sep) s.

(** [s.split()]: the maximal runs of characters that are not spaces. *)
Definition split_ws (s : string) : list string :=
  List.filter (fun w => negb (String.eqb w "")) (split_by is_space s).

(** [s.startswith(p)] *)
Definition startswith (s p : string) : bool := String.prefix p s.

(** [s.endswith(p)] *)
Definition endswith (s p : string) : bool :=
  let n := String.length s in
  let m := String.length p in
  (m <=? n)%nat && String.eqb (String.substring (n - m) m s) p.

(** [w in s] for strings. *)
Fixpoint contains (w s : string) : bool :=
  String.prefix w s ||
  match s with
  | EmptyString => false
  | String _ s' => contains w s'
  end.

(** [c in s] for one character. *)
Fixpoint has_char (c : ascii) (s : string) : bool :=
  match s with
  | EmptyString => false
  | String a s' => Ascii.eqb a c || has_char c s'
  end.

End PyStr.

(** ** The credential pool

    The four module-level variables [current_imgbb_keys],
    [current_key_index], [valid_keys] and [failed_keys]. *)

Record Pool := mkPool {
  current_imgbb_keys : list string;
  current_key_index : nat;
  valid_keys : gset string;
  failed_keys : gset string
}.

(** The values the module assigns when it is loaded. *)
Definition pool0 : Pool := mkPool [] 0 ∅ ∅.

(** [initialize_imgbb_keys], with the environment variable [IMGBB_API_KEY]
    as an argument.  The second branch leaves [current_key_index] as it is. *)
Definition initialize_imgbb_keys (IMGBB_API_KEY : string) (p : Pool) : Pool :=
  if decide (IMGBB_API_KEY = "") then
    mkPool [] (current_key_index p) ∅ ∅
  else
    let keys :=
      List.map PyStr.strip
        (List.filter (fun key => negb (String.eqb (PyStr.strip key) ""))
                     (PyStr.split "," IMGBB_API_KEY)) in
    mkPool keys 0 (list_to_set keys) ∅.

(** [get_current_imgbb_key]: the key, and the pool with the index it may
    have reset. *)
Definition get_current_imgbb_key (p : Pool) : string * Pool :=
  match current_imgbb_keys p with
  | [] => ("", p)
  | _ :: _ =>
      let available_valid_keys :=
        filter (fun key => key ∈ valid_keys p ∧ key ∉ failed_keys p)
               (current_imgbb_keys p) in
      match available_valid_keys with
      | key :: _ => (key, p)
      | [] =>
          let p' :=
            if decide (List.length (current_imgbb_keys p) ≤ current_key_index p)%nat
            then mkPool (current_imgbb_keys p) 0 (valid_keys p) (failed_keys p)
            else p in
          (default "" (current_imgbb_keys p' !! current_key_index p'), p')
      end
  end.

Definition mark_key_as_valid (key : string) (p : Pool) : Pool :=
  mkPool (current_imgbb_keys p) (current_key_index p)
         ({[key]} ∪ valid_keys p) (failed_keys p ∖ {[key]}).

Definition mark_key_as_failed (key : string) (p : Pool) : Pool :=
  mkPool (current_imgbb_keys p) (current_key_index p)
         (valid_keys p ∖ {[key]}) ({[key]} ∪ failed_keys p).

Definition rotate_to_next_key (p : Pool) : Pool :=
  match current_imgbb_keys p with
  | [] => p
  | _ :: _ =>
      mkPool (current_imgbb_keys p)
             ((current_key_index p + 1) mod List.length (current_imgbb_keys p))
             (valid_keys p) (failed_keys p)
  end.

(** Adding a key.  The source has no function of its own for it; the three
    places that add a key ([process_and_upload_images],
    [handle_text_messages], [add_key_manual]) all run
    [current_imgbb_keys.append(new_key); mark_key_as_valid(new_key)]
    with nothing in between. *)
Definition append_key (new_key : string) (p : Pool) : Pool :=
  mkPool (current_imgbb_keys p ++ [new_key]) (current_key_index p)
         (valid_keys p) (failed_keys p).

Definition add_key (new_key : string) (p : Pool) : Pool :=
  mark_key_as_valid new_key (append_key new_key p).

(** Sequences of pool operations. *)
Inductive PoolOp :=
| OpInitialize (env : string)
| OpAdd (key : string)
| OpMarkValid (key : string)
| OpMarkFailed (key : string)
| OpRotate
| OpGetCurrent.

Definition apply_op (p : Pool) (o : PoolOp) : Pool :=
  match o with
  | OpInitialize env => initialize_imgbb_keys env p
  | OpAdd key => add_key key p
  | OpMarkValid key => mark_key_as_valid key p
  | OpMarkFailed key => mark_key_as_failed key p
  | OpRotate => rotate_to_next_key p
  | OpGetCurrent => snd (get_current_imgbb_key p)
  end.

Definition run_ops (ops : list PoolOp) : Pool := foldl apply_op pool0 ops.

(** ** [pathlib.Path] on a POSIX host *)

Module PyPath.

Definition backslash : ascii := ascii_of_nat 92.

Fixpoint leading_seps (s : string) : nat :=
  match s with
  | String a s' => if Ascii.eqb a "/" then S (leading_seps s') else 0
  | EmptyString => 0
  end.

(** The root of a path: ["//"] for exactly two leading slashes, ["/"] for
    any other positive number of them. *)
Definition root (name : string) : list string :=
  match leading_seps name with
  | 0 => []
  | 2 => ["//"]
  | _ => ["/"]
  end.

(** The components after the root: empty ones and ["."] are dropped. *)
Definition components (name : string) : list string :=
  List.filter (fun c => negb (String.eqb c "") && negb (String.eqb c "."))
              (PyStr.split "/" name).

(** [Path(name).parts] *)
Definition parts (name : string) : list string := root name ++ components name.

(** [Path(name).name]: the last component, the root not counted. *)
Definition final_name (name : string) : string := List.last (components name) "".

(** [s.rfind(".")] *)
Fixpoint rfind_dot (s : string) : option nat :=
  match s with
  | EmptyString => None
  | String a s' =>
      match rfind_dot s' with
      | Some i => Some (S i)
      | None => if Ascii.eqb a "." then Some 0 else None
      end
  end.

(** [Path(name).stem] *)
Definition stem (name : string) : string :=
  let n := final_name name in
  match rfind_dot n with
  | Some i =>
      if (0 <? i)%nat && (i <? String.length n - 1)%nat
      then String.substring 0 i n else n
  | None => n
  end.

End PyPath.

(** ** Archive members *)

Definition bytes := list Byte.byte.

Definition image_suffixes : list string :=
  [".jpg"; ".jpeg"; ".png"; ".gif"; ".webp"].

Definition is_image_filename (name : string) : bool :=
  existsb (PyStr.endswith (PyStr.lower name)) image_suffixes.

Definition is_safe_member_name (name : string) : bool :=
  if String.eqb name "" then false
  else if PyStr.startswith name "/"
          || PyStr.startswith name (String PyPath.backslash "") then false
  else if bool_decide (".." ∈ PyPath.parts name) then false
  else if PyStr.has_char ":" name
          && ((2 <=? String.length name)%nat
              && bool_decide (String.get 1 name = Some ":"%char)) then false
  else if PyStr.contains (String PyPath.backslash "") name then false
  else true.

(** What an archive holds for one member: its name and, when reading it
    gives something, its content.  [member_data = None] stands for a read
    that raises (ZIP, 7Z: the member is reported and skipped), for a name
    missing from the dictionary [archive.read] returns (7Z), and for
    [tar.extractfile] returning [None] (TAR). *)
Record Member := mkMember {
  member_name : string;
  member_data : option bytes
}.

Inductive ContainerType := ZIP | SEVENZ | TAR.

(** The members [handle_container] loops over: for a ZIP the names that do
    not end with a slash, otherwise all of them (for a TAR the caller gives
    the regular files). *)
Definition listed_members (ct : ContainerType) (members : list Member) : list Member :=
  match ct with
  | ZIP => List.filter (fun m => negb (PyStr.endswith (member_name m) "/")) members
  | SEVENZ | TAR => members
  end.

(** One turn of the extraction loop of [handle_container]. *)
Definition member_source (m : Member) : list (string * bytes) :=
  if negb (is_safe_member_name (member_name m)) then []
  else match member_data m with
       | Some data =>
           if is_image_filename (member_name m) then [(member_name m, data)] else []
       | None => []
       end.

(** The list [image_sources] that [handle_container] builds and hands to
    [process_and_upload_images]. *)
Definition collect_image_sources (ct : ContainerType) (members : list Member)
  : list (string * bytes) :=
  flat_map member_source (listed_members ct members).

(** ** JSON values as Python sees them *)

Inductive json :=
| JNull
| JBool (b : bool)
| JNum (n : Z)
| JStr (s : string)
| JArr (l : list json)
| JObj (fields : list (string * json)).

Module PyJson.

(** [d.get(key)] on the fields of a parsed object (keys are unique in a
    Python dict). *)
Fixpoint dict_get (key : string) (fields : list (string * json)) : option json :=
  match fields with
  | [] => None
  | (k, v) :: rest => if String.eqb k key then Some v else dict_get key rest
  end.

Definition truthy (v : json) : bool :=
  match v with
  | JNull => false
  | JBool b => b
  | JNum n => negb (n =? 0)%Z
  | JStr s => negb (String.eqb s "")
  | JArr l => match l with [] => false | _ => true end
  | JObj f => match f with [] => false | _ => true end
  end.

Definition is_str (w : string) (v : json) : bool :=
  match v with JStr s => String.eqb s w | _ => false end.

(** [w in v] for a string [w]; [None] when Python raises [TypeError]. *)
Definition str_in (w : string) (v : json) : option bool :=
  match v with
  | JObj f => Some (bool_decide (is_Some (dict_get w f)))
  | JStr s => Some (PyStr.contains w s)
  | JArr l => Some (existsb (is_str w) l)
  | JNull | JBool _ | JNum _ => None
  end.

(** [v[w]] for a string [w]; [None] when Python raises. *)
Definition subscript (w : string) (v : json) : option json :=
  match v with
  | JObj f => dict_get w f
  | _ => None
  end.

End PyJson.

(** ** The image host *)

(** The form [upload_to_imgbb] posts.  [req_image] stands for its base64
    text. *)
Record Request := mkRequest {
  req_key : string;
  req_image : bytes;
  req_name : option string
}.

(** What [requests.post] can do: answer, with a status code and a body that
    [r.json()] decodes ([None] when decoding raises); raise [ReadTimeout];
    raise anything else. *)
Inductive HttpOutcome :=
| Response (status_code : Z) (body : option json)
| ReadTimeout
| RequestError.

(** The error texts of [upload_to_imgbb], by the line that builds them. *)
Inductive UploadError :=
| NoApiKey            (* "No API key provided" *)
| KeyInvalidOrExpired (* "API key inválida o expirada" *)
| UploadRefused       (* "Error en upload: ..." *)
| TimeoutExhausted    (* "Timeout agotado tras varios intentos" *)
| HttpError           (* "HTTP Error: ..." *)
| UploadException     (* "Error subiendo imagen: ..." *)
| UnknownError.       (* "Error desconocido" *)

(** The dict [upload_to_imgbb] returns. *)
Record UploadResult := mkResult {
  success : bool;
  url : option json;
  error : option UploadError;
  key_valid : bool
}.

Definition uploaded (u : json) : UploadResult := mkResult true (Some u) None true.
Definition failure (e : UploadError) (kv : bool) : UploadResult :=
  mkResult false None (Some e) kv.

(** The [payload] of [upload_to_imgbb]: the name is sent when it is not
    empty, as [Path(name).stem[:100]]. *)
Definition upload_form (image_buffer : bytes) (name api_key : string) : Request :=
  mkRequest api_key image_buffer
    (if String.eqb name "" then None
     else Some (String.substring 0 100 (PyPath.stem name))).

Definition key_words : list string := ["key"; "invalid"; "expired"; "missing"].

(** [any(word in error_message for word in [...])] *)
Definition mentions_key_word (error_message : string) : bool :=
  existsb (fun word => PyStr.contains word error_message) key_words.

(** Lines 137-144: whether the first [return] of the attempt is taken.  Any
    exception inside the inner [try] is swallowed by its bare [except]. *)
Definition key_error_reported (status_code : Z) (body : option json) : bool :=
  (status_code =? 400)%Z &&
  match body with
  | Some (JObj error_data) =>
      match PyJson.dict_get "error" error_data with
      | None => mentions_key_word (PyStr.lower "")
      | Some (JObj err) =>
          match PyJson.dict_get "message" err with
          | None => mentions_key_word (PyStr.lower "")
          | Some (JStr message) => mentions_key_word (PyStr.lower message)
          | Some _ => false
          end
      | Some _ => false
      end
  | _ => false
  end.

(** [r.raise_for_status()] raises [HTTPError] for 400..599. *)
Definition raises_for_status (status_code : Z) : bool :=
  (400 <=? status_code)%Z && (status_code <? 600)%Z.

(** Lines 148-150 on the decoded body: [None] when an exception is raised,
    [Some (Some u)] for the success envelope, [Some None] otherwise. *)
Definition success_url (resp : json) : option (option json) :=
  match resp with
  | JObj fields =>
      if PyJson.truthy (default JNull (PyJson.dict_get "success" fields)) then
        match PyJson.dict_get "data" fields with
        | None => Some None
        | Some data =>
            match PyJson.str_in "url" data with
            | None => None
            | Some false => Some None
            | Some true =>
                match PyJson.subscript "url" data with
                | Some u => Some (Some u)
                | None => None
                end
            end
        end
      else Some None
  | _ => None
  end.

(** What one attempt returns once [requests.post] has answered. *)
Definition classify_response (status_code : Z) (body : option json) : UploadResult :=
  if key_error_reported status_code body then failure KeyInvalidOrExpired false
  else if raises_for_status status_code then
    if (status_code =? 400)%Z then failure HttpError false
    else failure HttpError true
  else
    match body with
    | None => failure UploadException true
    | Some resp =>
        match success_url resp with
        | None => failure UploadException true
        | Some (Some u) => uploaded u
        | Some None => failure UploadRefused true
        end
    end.

(** ** Process-wide state *)

(** An entry of [active_listeners]: the flag of its [asyncio.Event] and the
    reply a handler stored. *)
Record Listener := mkListener {
  event : bool;
  response : option string
}.

(** The entries of the error list of a job: [f"No pude procesar {name}"]
    and [f"{name}: {result['error']}"]. *)
Inductive ItemError :=
| CannotProcess (name : string)
| UploadFailed (name : string) (e : UploadError).

Definition error_name (e : ItemError) : string :=
  match e with
  | CannotProcess name => name
  | UploadFailed name _ => name
  end.

(** An entry of [pending_key_requests] (the [status_msg] handle left out). *)
Record PendingState := mkPending {
  pending_image_sources : list (string * bytes);
  pending_current_index : nat;
  pending_processed_links : list (string * json);
  pending_errors : list ItemError;
  pending_chat_id : Z
}.

Record Globals := mkGlobals {
  pool : Pool;
  pending_key_requests : gmap Z PendingState;
  active_listeners : gmap Z Listener
}.

Definition with_pool (f : Pool → Pool) (g : Globals) : Globals :=
  mkGlobals (f (pool g)) (pending_key_requests g) (active_listeners g).

Definition with_listeners (f : gmap Z Listener → gmap Z Listener) (g : Globals)
  : Globals :=
  mkGlobals (pool g) (pending_key_requests g) (f (active_listeners g)).

Definition with_pending (f : gmap Z PendingState → gmap Z PendingState)
  (g : Globals) : Globals :=
  mkGlobals (pool g) (f (pending_key_requests g)) (active_listeners g).

(** The listener branch of [handle_text_messages] (lines 731-770), for a
    message [raw] in chat [chat_id] that passed the filter of the handler
    (a text that is not one of the commands ul, skip, keys, reset); the
    replies it sends are left out.  [None] when there is no listener for
    the chat, so that the handler goes on to the description branch. *)
Definition handle_listener_text (chat_id : Z) (raw : string) (g : Globals)
  : option Globals :=
  let text := PyStr.strip raw in
  match active_listeners g !! chat_id with
  | None => None
  | Some listener_data =>
      let answer (r : string) (g' : Globals) :=
        with_listeners (<[chat_id := mkListener true (Some r)]>) g' in
      if String.eqb (PyStr.lower text) "/cancel" then Some (answer "/cancel" g)
      else if PyStr.startswith text "/addkey" then
        match PyStr.split_ws text with
        | _ :: new_key :: _ =>
            if (10 <=? String.length (PyStr.strip new_key))%nat
            then Some (answer (PyStr.strip new_key)
                              (with_pool (add_key (PyStr.strip new_key)) g))
            else Some g
        | _ => Some g
        end
      else if (10 <=? String.length text)%nat then Some (answer text g)
      else Some g
  end.

(** The lines a job prints, with the values they are printed for, and one
    record for every call of [upload_to_imgbb]. *)
Inductive Event :=
| EvUpload (key : string) (ok : bool)
| EvMarkValid (key : string)      (* "Key marcada como válida" *)
| EvMarkFailed (key : string)     (* "Key marcada como fallida" *)
| EvNewKey (key : string)         (* "Nueva key agregada" *)
| EvCancelled.                    (* "Usuario canceló la operación." *)

(** The state a coroutine runs in: the globals, the number of calls made to
    the outside so far, and the events written so far. *)
Record Sys := mkSys {
  globals : Globals;
  clock : nat;
  trace : list Event
}.

(** A computation either returns a value or raises; the state survives in
    both cases. *)
Inductive Res (A : Type) :=
| Val (a : A)
| Exc.
Arguments Val {A} a.
Arguments Exc {A}.

Definition M (A : Type) : Type := Sys → Res A * Sys.

Definition ret {A} (a : A) : M A := fun s => (Val a, s).

Definition bind {A B} (c : M A) (k : A → M B) : M B :=
  fun s => match c s with
           | (Val a, s') => k a s'
           | (Exc, s') => (Exc, s')
           end.

Notation "'let*' x ':=' c 'in' k" := (bind c (fun x => k))
  (at level 10, x pattern, c at level 100, k at level 200, only parsing).
Notation "c >>> k" := (bind c (fun _ => k))
  (at level 100, k at level 200, right associativity, only parsing).

(** [try: body finally: cleanup] *)
Definition finally {A} (body : M A) (cleanup : Sys → Sys) : M A :=
  fun s => let '(r, s') := body s in (r, cleanup s').

(** [try: body except Exception: pass] *)
Definition ignore_errors (body : M unit) : M unit :=
  fun s => let '(_, s') := body s in (Val tt, s').

Definition get_globals : M Globals := fun s => (Val (globals s), s).

Definition modify_globals (f : Globals → Globals) : M unit :=
  fun s => (Val tt, mkSys (f (globals s)) (clock s) (trace s)).

Definition log (e : Event) : M unit :=
  fun s => (Val tt, mkSys (globals s) (clock s) (trace s ++ [e])).

(** The calls of the two marking functions made by a job. *)
Definition job_mark_valid (key : string) : M unit :=
  modify_globals (with_pool (mark_key_as_valid key)) >>> log (EvMarkValid key).

Definition job_mark_failed (key : string) : M unit :=
  modify_globals (with_pool (mark_key_as_failed key)) >>> log (EvMarkFailed key).

(** ** Sorting the batch

    [image_sources.sort(key=lambda x: x[0].lower())]: a stable sort on the
    lower-cased name, strings compared code point by code point. *)

Definition name_key (x : string * bytes) : string := PyStr.lower (fst x).

Definition key_le (x y : string * bytes) : bool :=
  String.leb (name_key x) (name_key y).

(** [x] comes from the left of everything in [l]: it goes in front of the
    first element whose key is not smaller, which keeps equal keys in their
    original order. *)
Fixpoint insert_by_key (x : string * bytes) (l : list (string * bytes))
  : list (string * bytes) :=
  match l with
  | [] => [x]
  | y :: l' => if key_le x y then x :: y :: l' else y :: insert_by_key x l'
  end.

Definition sort_by_name (l : list (string * bytes)) : list (string * bytes) :=
  foldr insert_by_key [] l.

(** ** The job *)

(** The local variables of the loop of [process_and_upload_images], as they
    are when the loop condition is tested. *)
Record LoopState := mkLoop {
  idx : nat;
  links : list (string * json);
  errors : list ItemError;
  consecutive_successes : nat;
  current_key : string
}.

(** What one turn of the loop ends in: the next test of the loop condition,
    with what is left of the script of wake-ups, or a [return]. *)
Inductive Step :=
| Next (L : LoopState) (inbox : list bool)
| Return (links : list (string * json)) (errors : list ItemError).

Definition JobResult : Type := list (string * json) * list ItemError.

Section Pipeline.

(** The outside world of a job.
    - [normalize]: what [validar_y_reparar_imagen] returns for a payload,
      [None] when the image cannot be decoded;
    - [net t req]: what [requests.post] does with the form [req] when it
      is the [t]-th call to the outside;
    - [tg_ok t]: whether the Telegram call made as the [t]-th call to the
      outside succeeds (otherwise it raises);
    - [meanwhile t g]: what the other handlers of the bot have made of the
      globals [g] while the job was suspended in its [t]-th call. *)
Variable normalize : bytes → option bytes.
Variable net : nat → Request → HttpOutcome.
Variable tg_ok : nat → bool.
Variable meanwhile : nat → Globals → Globals.

Definition raise {A} : M A := fun s => (Exc, s).

(** An [await] that suspends the coroutine. *)
Definition yield : M unit :=
  fun s => (Val tt, mkSys (meanwhile (clock s) (globals s)) (S (clock s)) (trace s)).

(** An awaited call of the Telegram client ([edit_text], [send_message]). *)
Definition telegram : M unit :=
  fun s => (if tg_ok (clock s) then Val tt else Exc,
            mkSys (meanwhile (clock s) (globals s)) (S (clock s)) (trace s)).

(** [requests.post]: blocking, no other handler runs. *)
Definition http_post (req : Request) : M HttpOutcome :=
  fun s => (Val (net (clock s) req),
            mkSys (globals s) (S (clock s)) (trace s)).

(** The [for attempt in range(1, retries + 1)] loop, with the number of
    attempts still to make. *)
Fixpoint upload_attempts (remaining : nat) (req : Request) : M UploadResult :=
  match remaining with
  | 0 => ret (failure UnknownError true)
  | S rest =>
      let* o := http_post req in
      match o with
      | Response status_code body => ret (classify_response status_code body)
      | ReadTimeout =>
          match rest with
          | 0 => ret (failure TimeoutExhausted true)
          | S _ => upload_attempts rest req
          end
      | RequestError => ret (failure UploadException true)
      end
  end.

(** [upload_to_imgbb].  The buffer is an in-memory one, reading it does
    not fail. *)
Definition upload_to_imgbb (image_buffer : bytes) (name api_key : string)
  (retries : nat) : M UploadResult :=
  if String.eqb api_key "" then ret (failure NoApiKey false)
  else upload_attempts retries (upload_form image_buffer name api_key).

Definition set_listener (chat_id : Z) (l : Listener) : M unit :=
  modify_globals (with_listeners (<[chat_id := l]>)).

(** [if chat_id in active_listeners: del active_listeners[chat_id]] *)
Definition drop_listener (chat_id : Z) (s : Sys) : Sys :=
  mkSys (with_listeners (delete chat_id) (globals s)) (clock s) (trace s).

Definition is_cancel (response_text : option string) : bool :=
  match response_text with
  | Some t => negb (String.eqb t "") && String.eqb (PyStr.lower t) "/cancel"
  | None => false
  end.

Definition is_long_enough (response_text : option string) : bool :=
  match response_text with
  | Some t => negb (String.eqb t "") && (10 <=? String.length t)%nat
  | None => false
  end.

(** [request_new_key].  [script] tells how the waits to come end: [true]
    when the event is set before the 300 seconds are over, [false] for a
    timeout; when the script is used up, every wait times out.  Returns
    the key and what is left of the script. *)
Fixpoint request_new_key (script : list bool) (chat_id : Z)
  : M (option string * list bool) :=
  telegram >>>
  set_listener chat_id (mkListener false None) >>>
  finally
    (match script with
     | true :: rest =>
         yield >>>
         let* g := get_globals in
         let response_text :=
           match active_listeners g !! chat_id with
           | Some response_data => response response_data
           | None => None
           end in
         if is_cancel response_text then ret (None, rest)
         else if is_long_enough response_text then ret (response_text, rest)
         else telegram >>> request_new_key rest chat_id
     | _ =>
         yield >>>
         telegram >>>
         ret (None, List.tl script)
     end)
    (drop_listener chat_id).

(** Lines 340-349: the guarded progress message and the pause. *)
Definition report_progress (chat_id : Z) : M unit :=
  (if (chat_id =? 0)%Z then ret tt else ignore_errors telegram) >>>
  yield.

(** Lines 305-316: the key is marked as failed and the job is saved in
    [pending_key_requests]; [idx1] is the value [idx] has by then. *)
Definition suspend_job (image_sources : list (string * bytes)) (chat_id : Z)
  (L : LoopState) (idx1 : nat) : M unit :=
  job_mark_failed (current_key L) >>>
  modify_globals
    (with_pending
       (<[chat_id := mkPending image_sources (idx1 - 1) (links L)
                               (errors L) chat_id]>)).

(** One turn of the [while idx < total] loop. *)
Definition iteration (image_sources : list (string * bytes)) (chat_id : Z)
  (L : LoopState) (inbox : list bool) : M Step :=
  match image_sources !! idx L with
  | None => raise
  | Some (name, payload) =>
      let idx1 := (idx L + 1)%nat in
      match normalize payload with
      | None =>
          ret (Next (mkLoop idx1 (links L) (errors L ++ [CannotProcess name])
                            (consecutive_successes L) (current_key L)) inbox)
      | Some buf =>
          let* result := upload_to_imgbb buf name (current_key L) 3 in
          log (EvUpload (current_key L) (success result)) >>>
          if success result then
            let cs := (consecutive_successes L + 1)%nat in
            (if (3 <=? cs)%nat then job_mark_valid (current_key L) else ret tt) >>>
            report_progress chat_id >>>
            ret (Next (mkLoop idx1
                              (links L ++ [(name, default JNull (url result))])
                              (errors L) cs (current_key L)) inbox)
          else if negb (key_valid result) then
            suspend_job image_sources chat_id L idx1 >>>
            let* (new_key, inbox') := request_new_key inbox chat_id in
            match new_key with
            | None => log EvCancelled >>> ret (Return (links L) (errors L))
            | Some new_key =>
                modify_globals (with_pool (append_key new_key)) >>>
                job_mark_valid new_key >>>
                log (EvNewKey new_key) >>>
                ret (Next (mkLoop (idx1 - 1) (links L) (errors L) 0 new_key) inbox')
            end
          else
            report_progress chat_id >>>
            ret (Next (mkLoop idx1 (links L)
                              (errors L ++ [UploadFailed name
                                              (default UnknownError (error result))])
                              0 (current_key L)) inbox)
      end
  end.

(** Lines 351-355, after the loop. *)
Definition finish (L : LoopState) : M JobResult :=
  (if (0 <? consecutive_successes L)%nat then job_mark_valid (current_key L)
   else ret tt) >>>
  ret (links L, errors L).

(** The loop, for at most [fuel] tests of its condition; [None] when they
    do not suffice. *)
Fixpoint loop (fuel : nat) (image_sources : list (string * bytes)) (chat_id : Z)
  (L : LoopState) (inbox : list bool) (s : Sys) : option (Res JobResult * Sys) :=
  match fuel with
  | 0 => None
  | S fuel' =>
      if decide (idx L < List.length image_sources)%nat then
        match iteration image_sources chat_id L inbox s with
        | (Val (Next L' inbox'), s') => loop fuel' image_sources chat_id L' inbox' s'
        | (Val (Return l e), s') => Some (Val (l, e), s')
        | (Exc, s') => Some (Exc, s')
        end
      else Some (finish L s)
  end.

Definition set_pool (p : Pool) (s : Sys) : Sys :=
  mkSys (with_pool (fun _ => p) (globals s)) (clock s) (trace s).

(** [process_and_upload_images].  Every turn of the loop either moves to
    the next item or uses up a wake-up of the script, so the fuel given
    here is enough (lemma [process_and_upload_images_returns]). *)
Definition process_and_upload_images (image_sources : list (string * bytes))
  (chat_id : Z) (inbox : list bool) (s : Sys) : option (Res JobResult * Sys) :=
  let image_sources := sort_by_name image_sources in
  match current_imgbb_keys (pool (globals s)) with
  | [] => Some ((telegram >>> ret ([], [])) s)
  | _ :: _ =>
      let '(key, p) := get_current_imgbb_key (pool (globals s)) in
      let s := set_pool p s in
      if String.eqb key "" then Some ((telegram >>> ret ([], [])) s)
      else
        loop (S (List.length image_sources + List.length inbox))
             image_sources chat_id (mkLoop 0 [] [] 0 key) inbox s
  end.

End Pipeline.

(** ** Python text primitives, continued *)

Module PyText.

(** [s[n:]] *)
Fixpoint skip (n : nat) (s : string) : string :=
  match n, s with
  | S n', String _ s' => skip n' s'
  | _, _ => s
  end.

(** [s.split(w, 1)] for a non-empty [w]: [None] when [w] does not occur
    in [s] (the list Python returns has the one element [s]), otherwise
    what stands before and what stands after the first occurrence. *)
Fixpoint split_once (w s : string) : option (string * string) :=
  if String.prefix w s then Some (EmptyString, skip (String.length w) s)
  else match s with
       | EmptyString => None
       | String a s' =>
           match split_once w s' with
           | Some (before, after) => Some (String a before, after)
           | None => None
           end
       end.

(** [s.split(w, 1)[0]] *)
Definition before_first (w s : string) : string :=
  match split_once w s with
  | Some (before, _) => before
  | None => s
  end.

(** [s.split(w, 1)[-1]] *)
Definition after_first (w s : string) : string :=
  match split_once w s with
  | Some (_, after) => after
  | None => s
  end.

(** [s.lstrip(c)], [s.rstrip(c)] and [s.strip(c)] for a one-character
    string [c]. *)
Fixpoint lstrip_char (c : ascii) (s : string) : string :=
  match s with
  | EmptyString => EmptyString
  | String a s' => if Ascii.eqb a c then lstrip_char c s' else s
  end.

Fixpoint rstrip_char (c : ascii) (s : string) : string :=
  match s with
  | EmptyString => EmptyString
  | String a s' =>
      match rstrip_char c s' with
      | EmptyString => if Ascii.eqb a c then EmptyString else String a EmptyString
      | r => String a r
      end
  end.

Definition strip_char (c : ascii) (s : string) : string :=
  rstrip_char c (lstrip_char c s).

End PyText.

(** ** Telegraph *)

(** [extract_telegra_path_from_url].  The argument is whatever
    [create_telegraph_post] returned; [part.split("/", 1)[1]] raises when
    there is no slash, and the function then returns the empty string. *)
Definition extract_telegra_path_from_url (url : json) : string :=
  match url with
  | JStr url =>
      let part := PyText.after_first "://" url in
      match PyText.split_once "/" part with
      | None => ""
      | Some (_, path) =>
          let path := PyText.before_first "#" (PyText.before_first "?" path) in
          PyText.strip_char "/" path
      end
  | _ => ""
  end.

(** The nodes of a page: [{"tag": "img", "attrs": {"src": link}}] and
    [{"tag": "p", "children": [description]}]. *)
Inductive Node :=
| Img (src : json)
| Paragraph (children : list string).

(** The content of [create_telegraph_post] and of
    [edit_telegraph_title_only]. *)
Definition image_nodes (image_links : list json) : list Node :=
  List.map Img image_links.

(** The content of [edit_telegraph_with_description] (lines 523-529). *)
Definition description_nodes (image_links : list json) (description : string)
  : list Node :=
  match image_links with
  | [] => []
  | first :: rest =>
      Img first
      :: (if String.eqb description "" then [] else [Paragraph [description]])
      ++ List.map Img rest
  end.

Inductive Endpoint := CreatePage | EditPage.

(** The three values of [author_name]: ["ImgBot"], and the gallery name
    between two female signs, without and with variation selectors. *)
Inductive Author := ImgBot | Gallery | GalleryEmoji.

(** The form posted to Telegraph; [page_content] stands for the text
    that is made of [content_nodes]. *)
Record PageForm := mkPage {
  page_endpoint : Endpoint;
  page_access_token : string;
  page_path : option string;
  page_title : string;
  page_content : list Node;
  page_author_name : Author
}.

(** [isinstance(v, str) and v.startswith("http")] *)
Definition is_http (v : json) : bool :=
  match v with
  | JStr u => PyStr.startswith u "http"
  | _ => false
  end.

Definition a_acute : ascii := ascii_of_nat 225.
Definition i_acute : ascii := ascii_of_nat 237.
Definition o_acute : ascii := ascii_of_nat 243.

Definition no_token_text : string := "TELEGRAPH_TOKEN no configurado en Secrets.".
Definition invalid_path_text : string :=
  "Ruta de Telegraph inv" ++ String a_acute "lida.".
Definition gallery_title : string :=
  "Galer" ++ String i_acute "a de im" ++ String a_acute "genes".

Section Telegraph.

(** - [TELEGRAPH_TOKEN]: the environment variable;
    - [telegraph t form]: what [requests.post] does with [form] when it
      is the [t]-th call to the outside;
    - [show o]: the text Python interpolates into the error message for
      the outcome [o] (the decoded answer, or the exception). *)
Variable TELEGRAPH_TOKEN : string.
Variable telegraph : nat → PageForm → HttpOutcome.
Variable show : HttpOutcome → string.

(** [requests.post]: blocking, no other handler runs. *)
Definition telegraph_post (form : PageForm) : M HttpOutcome :=
  fun s => (Val (telegraph (clock s) form),
            mkSys (globals s) (S (clock s)) (trace s)).

(** The [try] block the three functions share, once [requests.post] is
    over: [refused] and [unreachable] are the two error prefixes.  Every
    exception ends in the second message. *)
Definition page_answer (refused unreachable : string) (o : HttpOutcome) : json :=
  let failed := JStr (unreachable ++ show o) in
  match o with
  | Response status_code body =>
      if raises_for_status status_code then failed
      else match body with
           | Some (JObj fields) =>
               if PyJson.truthy (default JNull (PyJson.dict_get "ok" fields)) then
                 match PyJson.dict_get "result" fields with
                 | Some result => default failed (PyJson.subscript "url" result)
                 | None => failed
                 end
               else JStr (refused ++ show o)
           | _ => failed
           end
  | ReadTimeout | RequestError => failed
  end.

Definition create_telegraph_post (title : string) (image_links : list json)
  : M json :=
  if String.eqb TELEGRAPH_TOKEN "" then ret (JStr no_token_text)
  else
    let* o := telegraph_post
                (mkPage CreatePage TELEGRAPH_TOKEN None title
                        (image_nodes image_links) ImgBot) in
    ret (page_answer "Error creando post: " "Error conectando a Telegraph: " o).

Definition edit_telegraph_title_only (path new_title : string)
  (image_links : list json) : M json :=
  if String.eqb TELEGRAPH_TOKEN "" then ret (JStr no_token_text)
  else if String.eqb path "" then ret (JStr invalid_path_text)
  else
    let* o := telegraph_post
                (mkPage EditPage TELEGRAPH_TOKEN (Some path) new_title
                        (image_nodes image_links) Gallery) in
    ret (page_answer "Error editando post: "
                     "Error conectando a Telegraph (edit): " o).

Definition edit_telegraph_with_description (path title : string)
  (image_links : list json) (description : string) : M json :=
  if String.eqb TELEGRAPH_TOKEN "" then ret (JStr no_token_text)
  else
    let* o := telegraph_post
                (mkPage EditPage TELEGRAPH_TOKEN (Some path) title
                        (description_nodes image_links description)
                        GalleryEmoji) in
    ret (page_answer ("Error editando con descripci" ++ String o_acute "n: ")
                     "Error conectando a Telegraph (desc): " o).

(** Lines 646-654 of [handle_container]: the page is created, then
    renamed after the archive; the result is [(final_url, path)]. *)
Definition publish (file_path : string) (img_urls : list json)
  : M (json * string) :=
  let* original_url := create_telegraph_post gallery_title img_urls in
  if is_http original_url then
    let title := PyPath.stem file_path in
    let path := extract_telegra_path_from_url original_url in
    let* edited_url := edit_telegraph_title_only path title img_urls in
    if is_http edited_url then ret (edited_url, path)
    else ret (original_url, path)
  else ret (original_url, "").

End Telegraph.

(** ** The error report of [handle_container] *)

(** [range(0, n, step)] for a positive [step]. *)
Definition range_step (n step : nat) : list nat :=
  List.map (fun k => k * step)%nat (seq 0 ((n + step - 1) / step)).

(** Line 666: [[errs[i:i+5] for i in range(0, len(errs), 5)]]. *)
Definition error_chunks {A} (errs : list A) : list (list A) :=
  List.map (fun i => take 5 (drop i errs)) (range_step (List.length errs) 5).

(** ** Resuming a saved job *)

Section Resume.

Variable normalize : bytes → option bytes.
Variable net : nat → Request → HttpOutcome.
Variable tg_ok : nat → bool.
Variable meanwhile : nat → Globals → Globals.

(** Lines 436-445: the progress message, which this loop sends whatever
    [chat_id] is, and the pause. *)
Definition resume_progress : M unit :=
  ignore_errors (telegram tg_ok meanwhile) >>> yield meanwhile.

(** One turn of the loop of [resume_after_key_update] (lines 389-445).
    Saving the job again is the code of [suspend_job]; a cancelled
    request returns without printing anything. *)
Definition resume_iteration (image_sources : list (string * bytes))
  (chat_id : Z) (L : LoopState) (inbox : list bool) : M Step :=
  match image_sources !! idx L with
  | None => raise
  | Some (name, payload) =>
      let idx1 := (idx L + 1)%nat in
      match normalize payload with
      | None =>
          ret (Next (mkLoop idx1 (links L) (errors L ++ [CannotProcess name])
                            (consecutive_successes L) (current_key L)) inbox)
      | Some buf =>
          let* result := upload_to_imgbb net buf name (current_key L) 3 in
          log (EvUpload (current_key L) (success result)) >>>
          if success result then
            let cs := (consecutive_successes L + 1)%nat in
            (if (3 <=? cs)%nat then job_mark_valid (current_key L) else ret tt) >>>
            resume_progress >>>
            ret (Next (mkLoop idx1
                              (links L ++ [(name, default JNull (url result))])
                              (errors L) cs (current_key L)) inbox)
          else if negb (key_valid result) then
            suspend_job image_sources chat_id L idx1 >>>
            let* (new_key, inbox') :=
              request_new_key tg_ok meanwhile inbox chat_id in
            match new_key with
            | None => ret (Return (links L) (errors L))
            | Some new_key =>
                modify_globals (with_pool (append_key new_key)) >>>
                job_mark_valid new_key >>>
                log (EvNewKey new_key) >>>
                ret (Next (mkLoop (idx1 - 1) (links L) (errors L) 0 new_key) inbox')
            end
          else
            resume_progress >>>
            ret (Next (mkLoop idx1 (links L)
                              (errors L ++ [UploadFailed name
                                              (default UnknownError (error result))])
                              0 (current_key L)) inbox)
      end
  end.

(** The loop, for at most [fuel] tests of its condition. *)
Fixpoint resume_loop (fuel : nat) (image_sources : list (string * bytes))
  (chat_id : Z) (L : LoopState) (inbox : list bool) (s : Sys)
  : option (Res JobResult * Sys) :=
  match fuel with
  | 0 => None
  | S fuel' =>
      if decide (idx L < List.length image_sources)%nat then
        match resume_iteration image_sources chat_id L inbox s with
        | (Val (Next L' inbox'), s') =>
            resume_loop fuel' image_sources chat_id L' inbox' s'
        | (Val (Return l e), s') => Some (Val (l, e), s')
        | (Exc, s') => Some (Exc, s')
        end
      else Some (finish L s)
  end.

(** [resume_after_key_update].  The value is [None] for the pair
    [(None, None)].  The three status messages before the loop are not
    guarded. *)
Definition resume_after_key_update (chat_id : Z) (inbox : list bool) (s : Sys)
  : option (Res (option JobResult) * Sys) :=
  match pending_key_requests (globals s) !! chat_id with
  | None => Some (Val None, s)
  | Some state =>
      let image_sources := pending_image_sources state in
      let current_index := pending_current_index state in
      let links := pending_processed_links state in
      let errors := pending_errors state in
      let s := mkSys (with_pending (delete chat_id) (globals s))
                     (clock s) (trace s) in
      let stop := telegram tg_ok meanwhile >>> ret (Some (links, errors)) in
      match current_imgbb_keys (pool (globals s)) with
      | [] => Some (stop s)
      | _ :: _ =>
          let '(key, p) := get_current_imgbb_key (pool (globals s)) in
          let s := set_pool p s in
          if String.eqb key "" then Some (stop s)
          else
            match telegram tg_ok meanwhile s with
            | (Exc, s') => Some (Exc, s')
            | (Val _, s') =>
                match resume_loop
                        (S (List.length image_sources + List.length inbox))
                        image_sources chat_id
                        (mkLoop current_index links errors 0 key) inbox s' with
                | Some (Val r, s'') => Some (Val (Some r), s'')
                | Some (Exc, s'') => Some (Exc, s'')
                | None => None
                end
            end
      end
  end.

End Resume.

(** ** From the job to the gallery *)

Section Container.

Variable normalize : bytes → option bytes.
Variable net : nat → Request → HttpOutcome.
Variable tg_ok : nat → bool.
Variable meanwhile : nat → Globals → Globals.
Variable TELEGRAPH_TOKEN : string.
Variable telegraph : nat → PageForm → HttpOutcome.
Variable show : HttpOutcome → string.

(** Lines 630-633 of [handle_container]: the saved job of the chat is
    resumed when there is one, otherwise the job is run on the images of
    the archive.  The value is [None] for the pair [(None, None)]. *)
Definition container_job (image_sources : list (string * bytes)) (chat_id : Z)
  (inbox : list bool) (s : Sys) : option (Res (option JobResult) * Sys) :=
  match pending_key_requests (globals s) !! chat_id with
  | Some _ =>
      resume_after_key_update normalize net tg_ok meanwhile chat_id inbox s
  | None =>
      match process_and_upload_images normalize net tg_ok meanwhile
              image_sources chat_id inbox s with
      | Some (Val r, s') => Some (Val (Some r), s')
      | Some (Exc, s') => Some (Exc, s')
      | None => None
      end
  end.

(** Lines 627-654 of [handle_container], which an archive with images
    comes to: the status message, the job, [img_urls] (line 639), and
    the publication.  The value is [None] where the handler returns
    (lines 637 and 643), and otherwise [(final_url, path, img_urls,
    errs)], with which the handler goes on in line 656.  An exception is
    the one line 672 catches. *)
Definition container_gallery (file_path : string)
  (image_sources : list (string * bytes)) (chat_id : Z) (inbox : list bool)
  (s : Sys)
  : option (Res (option (json * string * list json * list ItemError)) * Sys) :=
  match telegram tg_ok meanwhile s with
  | (Exc, s1) => Some (Exc, s1)
  | (Val _, s1) =>
      match container_job image_sources chat_id inbox s1 with
      | None => None
      | Some (Exc, s2) => Some (Exc, s2)
      | Some (Val None, s2) =>
          Some ((telegram tg_ok meanwhile >>> ret None) s2)
      | Some (Val (Some (links, errs)), s2) =>
          let img_urls := links.*2 in
          match img_urls with
          | [] => Some ((telegram tg_ok meanwhile >>> ret None) s2)
          | _ :: _ =>
              Some ((telegram tg_ok meanwhile >>>
                     let* (final_url, path) :=
                       publish TELEGRAPH_TOKEN telegraph show file_path
                               img_urls in
                     ret (Some (final_url, path, img_urls, errs))) s2)
          end
      end
  end.

End Container.

(** * Notions used by the properties *)

(** ** Member names the archive interface refuses *)

(** The member names the archive interface has to refuse: the empty name, a
    name with a [".."] component (whichever separator delimits it), a name
    that starts with a separator, a name with a drive prefix, a name with a
    backslash. *)
Definition is_separator (a : ascii) : bool :=
  Ascii.eqb a "/" || Ascii.eqb a PyPath.backslash.

Definition has_traversal_segment (name : string) : Prop :=
  ".." ∈ PyStr.split_by is_separator name.

Definition is_absolute (name : string) : Prop :=
  ∃ a rest, name = String a rest ∧ is_separator a = true.

Definition has_drive_prefix (name : string) : Prop :=
  String.get 1 name = Some ":"%char.

Definition has_backslash (name : string) : Prop :=
  PyStr.has_char PyPath.backslash name = true.

Definition unsafe_member_name (name : string) : Prop :=
  name = "" ∨ has_traversal_segment name ∨ is_absolute name
  ∨ has_drive_prefix name ∨ has_backslash name.

(** Every key of the pool carries one of the two marks. *)
Definition all_marked (p : Pool) : Prop :=
  ∀ key, key ∈ current_imgbb_keys p → key ∈ valid_keys p ∨ key ∈ failed_keys p.

Definition marks_disjoint (p : Pool) : Prop :=
  valid_keys p ## failed_keys p.

(** The operations that take the mark of failure off [key]: marking it as
    valid, adding it again (line 329 marks an added key as valid), and an
    initialization, which empties [failed_keys]. *)
Definition restores (key : string) (o : PoolOp) : bool :=
  match o with
  | OpInitialize _ => true
  | OpAdd k | OpMarkValid k => String.eqb k key
  | OpMarkFailed _ | OpRotate | OpGetCurrent => false
  end.

(** A key that was marked as failed at some time is never returned
    afterwards, while the pool holds a key that is not failed. *)
Definition failed_once_never_selected : Prop :=
  ∀ (before after : list PoolOp) (key other : string),
    let p := run_ops (before ++ OpMarkFailed key :: after) in
    other ∈ current_imgbb_keys p → other ∉ failed_keys p →
    fst (get_current_imgbb_key p) ≠ key.

(** The attempt that ends the retry loop, counted from the first one, is
    answered by a 400: all attempts before it ran into a read timeout. *)
Definition ends_with_400 (net : nat → Request → HttpOutcome) (req : Request)
  (t retries : nat) : Prop :=
  ∃ n body, (n < retries)%nat
            ∧ (∀ m, (m < n)%nat → net (t + m)%nat req = ReadTimeout)
            ∧ net (t + n)%nat req = Response 400 body.

(** An image host that answers every upload with a 400 whose message names
    no credential problem. *)
Definition bad_request_host (t : nat) (req : Request) : HttpOutcome :=
  Response 400 (Some (JObj [("error", JObj [("message", JStr "Bad request")])])).

Definition idle_sys : Sys := mkSys (mkGlobals pool0 ∅ ∅) 0 [].

(** The ways a turn of the loop of [process_and_upload_images] can go. *)
Inductive Turn :=
| TSkipped (name : string)                       (* the image does not decode *)
| TStored (name : string) (u : json)             (* uploaded *)
| TRefused (name : string) (e : UploadError)     (* item error *)
| TSwapped (new_key : string) (inbox' : list bool) (* key refused, new key given *)
| TCancelled                                     (* key refused, no new key *)
| TEscaped.                                      (* key refused, exception *)

(** Where a turn leaves the loop. *)
Definition turn_result (L : LoopState) (inbox : list bool) (t : Turn) : Res Step :=
  match t with
  | TSkipped name =>
      Val (Next (mkLoop (idx L + 1) (links L) (errors L ++ [CannotProcess name])
                        (consecutive_successes L) (current_key L)) inbox)
  | TStored name u =>
      Val (Next (mkLoop (idx L + 1) (links L ++ [(name, u)]) (errors L)
                        (consecutive_successes L + 1) (current_key L)) inbox)
  | TRefused name e =>
      Val (Next (mkLoop (idx L + 1) (links L) (errors L ++ [UploadFailed name e])
                        0 (current_key L)) inbox)
  | TSwapped new_key inbox' =>
      Val (Next (mkLoop (idx L) (links L) (errors L) 0 new_key) inbox')
  | TCancelled => Val (Return (links L) (errors L))
  | TEscaped => Exc
  end.

(** What a turn writes to the trace. *)
Definition turn_events (L : LoopState) (t : Turn) : list Event :=
  match t with
  | TSkipped _ => []
  | TStored _ _ =>
      EvUpload (current_key L) true
      :: (if (3 <=? consecutive_successes L + 1)%nat
          then [EvMarkValid (current_key L)] else [])
  | TRefused _ _ => [EvUpload (current_key L) false]
  | TSwapped new_key _ =>
      [EvUpload (current_key L) false; EvMarkFailed (current_key L);
       EvMarkValid new_key; EvNewKey new_key]
  | TCancelled =>
      [EvUpload (current_key L) false; EvMarkFailed (current_key L); EvCancelled]
  | TEscaped => [EvUpload (current_key L) false; EvMarkFailed (current_key L)]
  end.

(** How a turn fits the item it is about and the answer [r] of
    [upload_to_imgbb] for it. *)
Definition turn_of_upload (name : string) (r : UploadResult) (inbox : list bool)
  (t : Turn) : Prop :=
  match t with
  | TSkipped _ => False
  | TStored n u => n = name ∧ success r = true ∧ u = default JNull (url r)
  | TRefused n e =>
      n = name ∧ success r = false ∧ key_valid r = true
      ∧ e = default UnknownError (error r)
  | TSwapped _ inbox' =>
      success r = false ∧ key_valid r = false
      ∧ (List.length inbox' < List.length inbox)%nat
  | TCancelled | TEscaped => success r = false ∧ key_valid r = false
  end.

(** The state in which a job asks for a new key: the upload is on the
    trace, the key is marked as failed, the job is saved. *)
Definition suspended (image_sources : list (string * bytes)) (chat_id : Z)
  (L : LoopState) (s1 : Sys) : Sys :=
  mkSys
    (with_pending
       (<[chat_id := mkPending image_sources (idx L) (links L) (errors L) chat_id]>)
       (with_pool (mark_key_as_failed (current_key L)) (globals s1)))
    (clock s1)
    (trace s1 ++ [EvUpload (current_key L) false; EvMarkFailed (current_key L)]).

(** A position of the loop: its local variables, the script of wake-ups
    that is left, the state. *)
Definition Position : Type := LoopState * list bool * Sys.

(** [reaches ... X Y]: starting at [X], the loop comes to test its
    condition at [Y]. *)
Inductive reaches (normalize : bytes → option bytes)
  (net : nat → Request → HttpOutcome) (tg_ok : nat → bool)
  (meanwhile : nat → Globals → Globals)
  (image_sources : list (string * bytes)) (chat_id : Z)
  : Position → Position → Prop :=
| reaches_here X :
    reaches normalize net tg_ok meanwhile image_sources chat_id X X
| reaches_next L inbox s L1 inbox1 s1 Y :
    (idx L < List.length image_sources)%nat →
    iteration normalize net tg_ok meanwhile image_sources chat_id L inbox s
    = (Val (Next L1 inbox1), s1) →
    reaches normalize net tg_ok meanwhile image_sources chat_id (L1, inbox1, s1) Y →
    reaches normalize net tg_ok meanwhile image_sources chat_id (L, inbox, s) Y.

(** The accumulated results only speak of items before the cursor, in the
    order of the batch. *)
Definition accumulated_before (image_sources : list (string * bytes))
  (L : LoopState) : Prop :=
  (idx L ≤ List.length image_sources)%nat
  ∧ (links L).*1 `sublist_of` (take (idx L) image_sources).*1
  ∧ error_name <$> errors L `sublist_of` (take (idx L) image_sources).*1.

(** Case-insensitive order of names. *)
Definition name_le (a b : string) : Prop :=
  String.leb (PyStr.lower a) (PyStr.lower b) = true.

(** The number of successful uploads with [key] in a row that a trace ends
    with: counted back from its end over the uploads, up to the first
    upload that failed or that used another key. *)
Fixpoint streak_back (key : string) (rev_trace : list Event) : nat :=
  match rev_trace with
  | [] => 0
  | EvUpload k ok :: rest =>
      if ok && String.eqb k key then S (streak_back key rest) else 0
  | _ :: rest => streak_back key rest
  end.

Definition streak (key : string) (tr : list Event) : nat :=
  streak_back key (List.rev tr).

(** Every marking of a key as valid comes after three successful uploads
    in a row with it. *)
Definition promoted_after_three (tr : list Event) : Prop :=
  ∀ i key, tr !! i = Some (EvMarkValid key) → (3 ≤ streak key (take i tr))%nat.

(** What the job does: a key is marked as valid after three successful
    uploads in a row with it, or at the moment it is added as the new key,
    or as the last act of the job after at least one successful upload. *)
Definition promotion_justified (tr : list Event) : Prop :=
  ∀ i key,
    tr !! i = Some (EvMarkValid key) →
    (3 ≤ streak key (take i tr))%nat
    ∨ tr !! S i = Some (EvNewKey key)
    ∨ (S i = List.length tr ∧ (1 ≤ streak key (take i tr))%nat).

(** The same without the last case, for the trace of a job under way. *)
Definition promotion_so_far (tr : list Event) : Prop :=
  ∀ i key,
    tr !! i = Some (EvMarkValid key) →
    (3 ≤ streak key (take i tr))%nat ∨ tr !! S i = Some (EvNewKey key).

(** What an item contributes to the results of a job when its upload has
    the outcome [out name buf]. *)
Definition item_links (normalize : bytes → option bytes)
  (out : string → bytes → UploadResult) (item : string * bytes)
  : list (string * json) :=
  match normalize item.2 with
  | None => []
  | Some buf =>
      if success (out item.1 buf)
      then [(item.1, default JNull (url (out item.1 buf)))] else []
  end.

Definition item_errors (normalize : bytes → option bytes)
  (out : string → bytes → UploadResult) (item : string * bytes)
  : list ItemError :=
  match normalize item.2 with
  | None => [CannotProcess item.1]
  | Some buf =>
      if success (out item.1 buf) then []
      else [UploadFailed item.1 (default UnknownError (error (out item.1 buf)))]
  end.

(** Under [key] an upload either has the outcome [out] gives for the item
    or reports that the key is refused. *)
Definition key_gives (net : nat → Request → HttpOutcome)
  (out : string → bytes → UploadResult) (key : string) : Prop :=
  ∀ s name buf r s',
    upload_to_imgbb net buf name key 3 s = (Val r, s') →
    r = out name buf ∨ key_valid r = false.

(** The results so far are those of the items before the cursor. *)
Definition results_so_far (normalize : bytes → option bytes)
  (out : string → bytes → UploadResult)
  (image_sources : list (string * bytes)) (L : LoopState) : Prop :=
  (idx L ≤ List.length image_sources)%nat
  ∧ links L = flat_map (item_links normalize out) (take (idx L) image_sources)
  ∧ errors L = flat_map (item_errors normalize out) (take (idx L) image_sources).

(** The keys added during a job, in order. *)
Definition new_keys (tr : list Event) : list string :=
  omap (λ e, match e with EvNewKey k => Some k | _ => None end) tr.

Definition demo_ok_body (u : string) : option json :=
  Some (JObj [("success", JBool true); ("data", JObj [("url", JStr u)])]).

Definition demo_bad_key_body : option json :=
  Some (JObj [("error", JObj [("message", JStr "Invalid API v1 key.");
                              ("code", JNum 100)])]).

(** The image host: it refuses the first key for the item named c, and
    stores every other upload under the name it is sent with. *)
Definition demo_host (t : nat) (req : Request) : HttpOutcome :=
  if String.eqb (req_key req) "key-one-0001"
     && bool_decide (req_name req = Some "c")
  then Response 400 demo_bad_key_body
  else Response 200 (demo_ok_body (default "" (req_name req))).

(** The outcome of an item under a working key. *)
Definition demo_out (name : string) (buf : bytes) : UploadResult :=
  uploaded (JStr (default "" (req_name (upload_form buf name "")))).

Definition demo_sources : list (string * bytes) :=
  [("b.png", []); ("a.jpg", []); ("e.gif", []); ("c.webp", []); ("d.jpg", [])].

(** The state of a freshly started bot whose environment holds [env]. *)
Definition demo_sys (env : string) : Sys :=
  mkSys (mkGlobals (initialize_imgbb_keys env pool0) ∅ ∅) 0 [].

Definition always_ok (t : nat) : bool := true.
Definition decode_all (payload : bytes) : option bytes := Some payload.
Definition nobody (t : nat) (g : Globals) : Globals := g.

(** The requester of chat 7 sends [text] whenever a listener waits. *)
Definition demo_reply (text : string) (t : nat) (g : Globals) : Globals :=
  default g (handle_listener_text 7 text g).

(** The requester sends a text only during the [t0]-th call to the
    outside. *)
Definition demo_reply_at (t0 : nat) (text : string) (t : nat) (g : Globals)
  : Globals :=
  if (t =? t0)%nat then demo_reply text t g else g.

Definition end_state (o : option (Res JobResult * Sys)) : Sys :=
  match o with Some (_, s) => s | None => demo_sys "" end.

Definition end_result (o : option (Res JobResult * Sys)) : Res JobResult :=
  match o with Some (r, _) => r | None => Exc end.

(** The job with the swap, the job that is cancelled, and the job that has
    the second key from the start. *)
Definition demo_swapped : option (Res JobResult * Sys) :=
  process_and_upload_images decode_all demo_host always_ok
    (demo_reply "key-two-0002") demo_sources 7 [true] (demo_sys "key-one-0001").

Definition demo_cancelled : option (Res JobResult * Sys) :=
  process_and_upload_images decode_all demo_host always_ok
    (demo_reply "/cancel") demo_sources 7 [true] (demo_sys "key-one-0001").

Definition demo_unswapped : option (Res JobResult * Sys) :=
  process_and_upload_images decode_all demo_host always_ok nobody
    demo_sources 9 [] (demo_sys "key-two-0002").

Definition demo_links : list (string * json) :=
  [("a.jpg", JStr "a"); ("b.png", JStr "b"); ("c.webp", JStr "c");
   ("d.jpg", JStr "d"); ("e.gif", JStr "e")].

(** The loop of the worked batch when it comes to its third item, and the
    state after the upload of that item was refused. *)
Definition demo_sorted : list (string * bytes) := sort_by_name demo_sources.

Definition demo_at_third : LoopState :=
  mkLoop 2 [("a.jpg", JStr "a"); ("b.png", JStr "b")] [] 2 "key-one-0001".

Definition demo_sys_at_third (meanwhile : nat → Globals → Globals) : Sys :=
  (iteration decode_all demo_host always_ok meanwhile demo_sorted 7
     (mkLoop 1 [("a.jpg", JStr "a")] [] 1 "key-one-0001") [true]
     (iteration decode_all demo_host always_ok meanwhile demo_sorted 7
        (mkLoop 0 [] [] 0 "key-one-0001") [true] (demo_sys "key-one-0001")).2).2.

Definition demo_refused (s : Sys) : Sys :=
  (upload_to_imgbb demo_host [] "c.webp" "key-one-0001" 3 s).2.

Definition job_links (o : option (Res JobResult * Sys)) : list (string * json) :=
  match end_result o with Val (l, _) => l | Exc => [] end.

Definition job_errors (o : option (Res JobResult * Sys)) : list ItemError :=
  match end_result o with Val (_, e) => e | Exc => [] end.

Global Instance Event_eq_dec : EqDecision Event.
Proof. solve_decision. Defined.

(** The results gathered so far speak of each item before the cursor once,
    as a success or as an error. *)
Definition accounted (image_sources : list (string * bytes)) (L : LoopState)
  : Prop :=
  (idx L ≤ List.length image_sources)%nat
  ∧ (links L).*1 ++ (error_name <$> errors L)
    ≡ₚ (take (idx L) image_sources).*1.

(** A computation that returns a value from every state. *)
Definition never_raises {A} (c : M A) : Prop :=
  ∀ s, ∃ a s', c s = (Val a, s').

(** The links of the images of a page, in the order of the page. *)
Definition node_images (nodes : list Node) : list json :=
  omap (λ n, match n with Img u => Some u | Paragraph _ => None end) nodes.

(** The answer of Telegraph that the three functions take for a success
    with the address [v]: a status below 400 and a JSON object with a true
    ["ok"] whose ["result"] has [v] under ["url"]. *)
Definition answers_with (o : HttpOutcome) (v : json) : Prop :=
  ∃ status_code fields result,
    o = Response status_code (Some (JObj fields))
    ∧ raises_for_status status_code = false
    ∧ PyJson.truthy (default JNull (PyJson.dict_get "ok" fields)) = true
    ∧ PyJson.dict_get "result" fields = Some result
    ∧ PyJson.subscript "url" result = Some v.

(** Every marking of a key as failed comes right after an upload with that
    key that failed. *)
Definition failure_justified (tr : list Event) : Prop :=
  ∀ i key,
    tr !! i = Some (EvMarkFailed key) →
    ∃ j, i = S j ∧ tr !! j = Some (EvUpload key false).

(** A Telegraph that accepts every page and answers with one address. *)
Definition demo_telegraph (t : nat) (form : PageForm) : HttpOutcome :=
  Response 200
    (Some (JObj [("ok", JBool true);
                 ("result", JObj [("url", JStr "https://telegra.ph/g-01")])])).

Definition demo_show (o : HttpOutcome) : string := "".

(** The worked batch, from the status message of line 627 on. *)
Definition demo_gallery
  : option (Res (option (json * string * list json * list ItemError)) * Sys) :=
  container_gallery decode_all demo_host always_ok (demo_reply "key-two-0002")
    "tok" demo_telegraph demo_show "album.zip" demo_sources 7 [true]
    (demo_sys "key-one-0001").

Definition demo_gallery_state : Sys :=
  match demo_gallery with Some (_, s) => s | None => demo_sys "" end.

(** * Properties *)

(** ** The credential pool *)

Section PoolInvariants.

Lemma get_current_keeps_marks p :
  let p' := snd (get_current_imgbb_key p) in
  current_imgbb_keys p' = current_imgbb_keys p
  ∧ valid_keys p' = valid_keys p ∧ failed_keys p' = failed_keys p.
Proof.
  unfold get_current_imgbb_key.
  destruct (current_imgbb_keys p) eqn:Hk; simpl; [by rewrite Hk|].
  destruct (filter _ _); simpl; [|by rewrite Hk].
  case_decide; simpl; by rewrite ?Hk.
Qed.

Lemma apply_op_disjoint p o : marks_disjoint p → marks_disjoint (apply_op p o).
Proof.
  unfold marks_disjoint. intros Hd.
  destruct o; simpl.
  - unfold initialize_imgbb_keys. case_decide; simpl; set_solver.
  - set_solver.
  - set_solver.
  - set_solver.
  - unfold rotate_to_next_key. by destruct (current_imgbb_keys p).
  - destruct (get_current_keeps_marks p) as (_ & -> & ->). done.
Qed.

Lemma apply_op_all_marked p o : all_marked p → all_marked (apply_op p o).
Proof.
  unfold all_marked. intros Hm.
  destruct o; simpl.
  - unfold initialize_imgbb_keys. case_decide; simpl; intros k Hk.
    + by apply elem_of_nil in Hk.
    + left. by apply elem_of_list_to_set.
  - intros k Hk. apply elem_of_app in Hk as [Hk|Hk].
    + destruct (decide (k = key)) as [->|Hne]; [left; set_solver|].
      destruct (Hm k Hk); [left|right]; set_solver.
    + left. set_solver.
  - intros k Hk. destruct (decide (k = key)) as [->|Hne]; [left; set_solver|].
    destruct (Hm k Hk); [left|right]; set_solver.
  - intros k Hk. destruct (decide (k = key)) as [->|Hne]; [right; set_solver|].
    destruct (Hm k Hk); [left|right]; set_solver.
  - unfold rotate_to_next_key.
    destruct (current_imgbb_keys p) eqn:E; simpl; [by rewrite E|done].
  - destruct (get_current_keeps_marks p) as (-> & -> & ->). done.
Qed.

Lemma run_ops_snoc ops o : run_ops (ops ++ [o]) = apply_op (run_ops ops) o.
Proof. unfold run_ops. by rewrite foldl_app. Qed.

Lemma run_ops_inv ops : marks_disjoint (run_ops ops) ∧ all_marked (run_ops ops).
Proof.
  induction ops as [|o ops IH] using rev_ind.
  - split; [unfold marks_disjoint; set_solver|].
    intros k Hk. by apply elem_of_nil in Hk.
  - rewrite run_ops_snoc. destruct IH as [Hd Hm].
    split; [by apply apply_op_disjoint | by apply apply_op_all_marked].
Qed.

(** When some key of the pool is valid and not failed,
    [get_current_imgbb_key] returns such a key. *)
Lemma get_current_prefers_valid p k :
  k ∈ current_imgbb_keys p → k ∈ valid_keys p → k ∉ failed_keys p →
  let c := fst (get_current_imgbb_key p) in
  c ∈ current_imgbb_keys p ∧ c ∈ valid_keys p ∧ c ∉ failed_keys p.
Proof.
  intros Hk Hv Hf. unfold get_current_imgbb_key.
  destruct (current_imgbb_keys p) as [|k0 ks] eqn:E; [by apply elem_of_nil in Hk|].
  destruct (filter _ (k0 :: ks)) as [|c cs] eqn:F.
  - exfalso. assert (k ∈ filter (λ key, key ∈ valid_keys p ∧ key ∉ failed_keys p) (k0 :: ks)) as Hin
      by (apply list_elem_of_filter; done).
    rewrite F in Hin. by apply elem_of_nil in Hin.
  - simpl. assert (c ∈ filter (λ key, key ∈ valid_keys p ∧ key ∉ failed_keys p) (k0 :: ks)) as Hin
      by (rewrite F; left).
    apply list_elem_of_filter in Hin. naive_solver.
Qed.

(** The mark of failure stays until an operation takes it off. *)
Lemma failed_mark_kept p key o :
  restores key o = false → key ∈ failed_keys p → key ∈ failed_keys (apply_op p o).
Proof.
  intros Ho Hk. destruct o; simpl in *; try done.
  - apply String.eqb_neq in Ho. set_solver.
  - apply String.eqb_neq in Ho. set_solver.
  - set_solver.
  - unfold rotate_to_next_key. by destruct (current_imgbb_keys p).
  - by destruct (get_current_keeps_marks p) as (_ & _ & ->).
Qed.

Lemma failed_mark_stays before after key :
  Forall (λ o, restores key o = false) after →
  key ∈ failed_keys (run_ops (before ++ OpMarkFailed key :: after)).
Proof.
  induction after as [|o after IH] using rev_ind; intros Hafter.
  - rewrite run_ops_snoc. simpl. set_solver.
  - rewrite Forall_app, Forall_singleton in Hafter.
    destruct Hafter as [Hafter Ho].
    rewrite app_comm_cons, (assoc (++)), run_ops_snoc.
    apply failed_mark_kept; [exact Ho|]. by apply IH.
Qed.

(** A key is in [failed_keys] only through such a history. *)
Lemma failed_mark_history ops key :
  key ∈ failed_keys (run_ops ops) →
  ∃ before after,
    ops = before ++ OpMarkFailed key :: after
    ∧ Forall (λ o, restores key o = false) after.
Proof.
  induction ops as [|o ops IH] using rev_ind; [set_solver|].
  rewrite run_ops_snoc. intros Hk.
  assert (o = OpMarkFailed key
          ∨ (restores key o = false ∧ key ∈ failed_keys (run_ops ops)))
    as [->|[Ho Hprev]].
  { destruct o; simpl in Hk.
    - unfold initialize_imgbb_keys in Hk. case_decide; set_solver.
    - right. split; [apply String.eqb_neq|]; set_solver.
    - right. split; [apply String.eqb_neq|]; set_solver.
    - destruct (decide (key0 = key)) as [->|]; [by left|right].
      split; [done|set_solver].
    - right. split; [done|]. unfold rotate_to_next_key in Hk.
      by destruct (current_imgbb_keys (run_ops ops)).
    - right. split; [done|].
      by destruct (get_current_keeps_marks (run_ops ops)) as (_ & _ & <-). }
  - by exists ops, [].
  - destruct (IH Hprev) as (before & after & -> & Hafter).
    exists before, (after ++ [o]). split; [by rewrite <- (assoc (++))|].
    rewrite Forall_app, Forall_singleton. done.
Qed.

End PoolInvariants.

(** C10: after every sequence of operations on the credential pool
    (initialization, marking a key as valid or as failed, and also adding a
    key, rotating and reading the current key), no key is at the same time
    in [valid_keys] and in [failed_keys]. *)
Theorem valid_and_failed_disjoint (ops : list PoolOp) :
  valid_keys (run_ops ops) ## failed_keys (run_ops ops).
Proof. apply run_ops_inv. Qed.

(** C5: once a key has been marked as failed, and as long as no later
    operation takes the mark off again (marking it as valid, adding it
    again, initializing the pool), the key stays in [failed_keys] and
    [get_current_imgbb_key] does not return it, while the pool holds some
    key that is not marked as failed. *)
Theorem failed_key_not_selected (before after : list PoolOp)
  (key other : string) :
  let p := run_ops (before ++ OpMarkFailed key :: after) in
  Forall (λ o, restores key o = false) after →
  other ∈ current_imgbb_keys p →
  other ∉ failed_keys p →
  key ∈ failed_keys p ∧ fst (get_current_imgbb_key p) ≠ key.
Proof.
  intros p Hafter Hother Hnot.
  assert (key ∈ failed_keys p) as Hfailed by (by apply failed_mark_stays).
  split; [done|].
  destruct (run_ops_inv (before ++ OpMarkFailed key :: after)) as [_ Hmarked].
  destruct (Hmarked other Hother) as [Hvalid|]; [|done].
  destruct (get_current_prefers_valid _ _ Hother Hvalid Hnot) as (_ & _ & Hc).
  intros Heq. fold p in Hc. rewrite Heq in Hc. done.
Qed.

Lemma failed_key_not_selected_witness :
  let p := run_ops ([OpInitialize "aaaaaaaaaa,bbbbbbbbbb"; OpRotate]
                    ++ OpMarkFailed "aaaaaaaaaa"
                       :: [OpAdd "cccccccccc"; OpMarkValid "bbbbbbbbbb";
                           OpRotate; OpGetCurrent]) in
  "aaaaaaaaaa" ∈ failed_keys p
  ∧ fst (get_current_imgbb_key p) ≠ "aaaaaaaaaa".
Proof.
  apply (failed_key_not_selected
           [OpInitialize "aaaaaaaaaa,bbbbbbbbbb"; OpRotate]
           [OpAdd "cccccccccc"; OpMarkValid "bbbbbbbbbb"; OpRotate; OpGetCurrent]
           "aaaaaaaaaa" "bbbbbbbbbb").
  - repeat constructor.
  - apply (bool_decide_unpack _). vm_compute. reflexivity.
  - apply (bool_decide_unpack _). vm_compute. reflexivity.
Defined.

(** C5 fails as it is stated: a key that was marked as failed and is then
    marked as valid, or added again, is returned although another key of
    the pool is not failed. *)
Lemma revalidated_key_is_selected :
  (let p := run_ops [OpInitialize "aaaaaaaaaa,bbbbbbbbbb";
                     OpMarkFailed "aaaaaaaaaa"; OpMarkValid "aaaaaaaaaa"] in
   "bbbbbbbbbb" ∈ current_imgbb_keys p ∧ ("bbbbbbbbbb" ∉ failed_keys p)
   ∧ fst (get_current_imgbb_key p) = "aaaaaaaaaa")
  ∧ (let p := run_ops [OpInitialize "aaaaaaaaaa,bbbbbbbbbb";
                       OpMarkFailed "aaaaaaaaaa"; OpAdd "aaaaaaaaaa"] in
     "bbbbbbbbbb" ∈ current_imgbb_keys p ∧ ("bbbbbbbbbb" ∉ failed_keys p)
     ∧ fst (get_current_imgbb_key p) = "aaaaaaaaaa")
  ∧ ¬ failed_once_never_selected.
Proof.
  assert (let p := run_ops [OpInitialize "aaaaaaaaaa,bbbbbbbbbb";
                            OpMarkFailed "aaaaaaaaaa"; OpMarkValid "aaaaaaaaaa"] in
          "bbbbbbbbbb" ∈ current_imgbb_keys p ∧ ("bbbbbbbbbb" ∉ failed_keys p)
          ∧ fst (get_current_imgbb_key p) = "aaaaaaaaaa") as Hvalid.
  { split_and!; [apply (bool_decide_unpack _); vm_compute; reflexivity..|].
    vm_compute. reflexivity. }
  split; [exact Hvalid|]. split.
  - split_and!; [apply (bool_decide_unpack _); vm_compute; reflexivity..|].
    vm_compute. reflexivity.
  - intros H. destruct Hvalid as (Hin & Hnot & Hsel).
    by apply (H [OpInitialize "aaaaaaaaaa,bbbbbbbbbb"] [OpMarkValid "aaaaaaaaaa"]
                "aaaaaaaaaa" "bbbbbbbbbb" Hin Hnot).
Qed.

(** ** Archive member names *)

Section MemberNames.

Lemma contains_char c s :
  PyStr.contains (String c "") s = PyStr.has_char c s.
Proof.
  induction s as [|a s IH]; simpl; [done|].
  rewrite IH. destruct (ascii_dec c a) as [->|Hne].
  - rewrite Ascii.eqb_refl. by destruct s.
  - assert (Ascii.eqb a c = false) as -> by (apply Ascii.eqb_neq; congruence).
    done.
Qed.

Lemma split_without_backslash s :
  PyStr.has_char PyPath.backslash s = false →
  PyStr.split_by is_separator s = PyStr.split "/" s.
Proof.
  unfold PyStr.split.
  induction s as [|a s IH]; simpl; [done|].
  intros H. apply orb_false_iff in H as [Ha Hs].
  unfold is_separator at 1. rewrite Ha, orb_false_r, (IH Hs). done.
Qed.

Lemma drive_prefix_detected name :
  has_drive_prefix name →
  PyStr.has_char ":" name
  && ((2 <=? String.length name)%nat
      && bool_decide (String.get 1 name = Some ":"%char)) = true.
Proof.
  unfold has_drive_prefix. intros H.
  rewrite (bool_decide_eq_true_2 _ H).
  destruct name as [|a [|b s]]; simpl in *; try discriminate.
  injection H as ->. simpl. by rewrite orb_true_r.
Qed.

Lemma safe_name_not_unsafe name :
  is_safe_member_name name = true → ¬ unsafe_member_name name.
Proof.
  unfold is_safe_member_name.
  destruct (String.eqb name "") eqn:Hempty; [done|].
  destruct (PyStr.startswith name "/" || _) eqn:Habs; [done|].
  destruct (bool_decide (".." ∈ PyPath.parts name)) eqn:Hparts; [done|].
  destruct (PyStr.has_char ":" name && _) eqn:Hdrive; [done|].
  destruct (PyStr.contains _ name) eqn:Hback; [done|].
  intros _. rewrite contains_char in Hback.
  apply orb_false_iff in Habs as [Hslash Hbs].
  apply bool_decide_eq_false in Hparts.
  intros [->|[Htrav|[(a & rest & -> & Hsep)|[Hd|Hb]]]].
  - done.
  - apply Hparts. unfold PyPath.parts, PyPath.components.
    apply elem_of_app. right.
    apply list_elem_of_In, filter_In. split; [|done].
    apply list_elem_of_In.
    unfold has_traversal_segment in Htrav.
    by rewrite split_without_backslash in Htrav.
  - unfold is_separator in Hsep. apply orb_true_iff in Hsep as [H|H];
      apply Ascii.eqb_eq in H; subst a.
    + unfold PyStr.startswith in Hslash. simpl in Hslash.
      by destruct rest.
    + unfold PyStr.startswith in Hbs. simpl in Hbs.
      destruct (ascii_dec PyPath.backslash PyPath.backslash); [|done].
      by destruct rest.
  - by rewrite (drive_prefix_detected _ Hd) in Hdrive.
  - unfold has_backslash in Hb. congruence.
Qed.

Lemma member_source_safe m x :
  x ∈ member_source m → is_safe_member_name (fst x) = true.
Proof.
  unfold member_source.
  destruct (is_safe_member_name (member_name m)) eqn:Hsafe; simpl;
    [|by intros ?%elem_of_nil].
  destruct (member_data m); [|by intros ?%elem_of_nil].
  destruct (is_image_filename _); [|by intros ?%elem_of_nil].
  intros ->%list_elem_of_singleton. done.
Qed.

End MemberNames.

(** C9: for a member name that is empty, has a [".."] component, starts
    with a separator, has a drive prefix or contains a backslash,
    [is_safe_member_name] returns false, and the list of image sources that
    [handle_container] builds (the only thing it hands to normalization and
    upload) holds no entry with that name, whatever the archive. *)
Theorem unsafe_member_rejected (name : string) :
  unsafe_member_name name →
  is_safe_member_name name = false
  ∧ ∀ ct members data, (name, data) ∉ collect_image_sources ct members.
Proof.
  intros Hunsafe.
  assert (is_safe_member_name name = false) as Hrej.
  { destruct (is_safe_member_name name) eqn:E; [|done].
    by destruct (safe_name_not_unsafe _ E). }
  split; [done|].
  intros ct members data Hin. unfold collect_image_sources in Hin.
  apply list_elem_of_In, in_flat_map in Hin as (m & _ & Hm).
  apply list_elem_of_In, member_source_safe in Hm. simpl in Hm. congruence.
Qed.

Lemma unsafe_member_rejected_witness :
  is_safe_member_name "pics/../../etc/passwd.png" = false
  ∧ ∀ ct members data,
      ("pics/../../etc/passwd.png", data) ∉ collect_image_sources ct members.
Proof.
  apply unsafe_member_rejected.
  right. left. apply (bool_decide_unpack _). vm_compute. reflexivity.
Defined.

(** ** Classification of the answers of the image host *)

Section Classification.

Variable net : nat → Request → HttpOutcome.

Lemma classify_key_valid status_code body :
  key_valid (classify_response status_code body)
  = negb (status_code =? 400)%Z.
Proof.
  unfold classify_response, key_error_reported.
  destruct (status_code =? 400)%Z eqn:E; simpl.
  - apply Z.eqb_eq in E. subst.
    by destruct (match body with Some (JObj _) => _ | _ => false end).
  - destruct (raises_for_status status_code); [done|].
    destruct body as [resp|]; [|done].
    by destruct (success_url resp) as [[u|]|].
Qed.

Lemma classify_key_error status_code body :
  error (classify_response status_code body) = Some KeyInvalidOrExpired
  ↔ key_error_reported status_code body = true.
Proof.
  unfold classify_response.
  destruct (key_error_reported status_code body); simpl; [done|].
  split; [|done].
  destruct (raises_for_status status_code).
  - by destruct (status_code =? 400)%Z.
  - destruct body as [resp|]; [|done].
    by destruct (success_url resp) as [[u|]|].
Qed.

Lemma upload_attempts_returns retries req s :
  ∃ r s', upload_attempts net retries req s = (Val r, s').
Proof.
  revert s. induction retries as [|rest IH]; intros s; simpl; [by eexists _, _|].
  unfold bind, http_post.
  destruct (net (clock s) req); [by eexists _, _| |by eexists _, _].
  destruct rest; [by eexists _, _|]. apply IH.
Qed.

Lemma upload_attempts_key_valid retries req s r s' :
  upload_attempts net retries req s = (Val r, s') →
  key_valid r = false ↔ ends_with_400 net req (clock s) retries.
Proof.
  revert s. induction retries as [|rest IH]; intros s; simpl.
  - intros [= <- <-]. split; [done|]. intros (n & ? & ? & _). lia.
  - unfold bind, http_post.
    destruct (net (clock s) req) as [st body| |] eqn:Hnet.
    + intros [= <- <-]. rewrite classify_key_valid, negb_false_iff, Z.eqb_eq.
      split.
      * intros ->. exists 0%nat, body. rewrite Nat.add_0_r.
        split; [lia|]. split; [intros; lia|done].
      * intros (n & b & _ & Hto & Hn). destruct n as [|n].
        -- rewrite Nat.add_0_r in Hn. congruence.
        -- specialize (Hto 0%nat). rewrite Nat.add_0_r in Hto.
           rewrite Hto in Hnet by lia. done.
    + destruct rest as [|rest'].
      * intros [= <- <-]. split; [done|].
        intros (n & b & Hlt & _ & Hn). assert (n = 0%nat) as -> by lia.
        rewrite Nat.add_0_r in Hn. congruence.
      * intros Hrec. rewrite (IH _ Hrec). simpl.
        split.
        -- intros (n & b & Hlt & Hto & Hn). exists (S n), b.
           split; [lia|]. split.
           ++ intros [|m] Hm; [by rewrite Nat.add_0_r|].
              rewrite Nat.add_succ_r. apply Hto. lia.
           ++ by rewrite Nat.add_succ_r.
        -- intros (n & b & Hlt & Hto & Hn). destruct n as [|n].
           ++ rewrite Nat.add_0_r in Hn. congruence.
           ++ exists n, b. split; [lia|]. split.
              ** intros m Hm. specialize (Hto (S m)).
                 rewrite Nat.add_succ_r in Hto. apply Hto. lia.
              ** by rewrite Nat.add_succ_r in Hn.
    + intros [= <- <-]. split; [done|].
      intros (n & b & _ & Hto & Hn). destruct n as [|n].
      * rewrite Nat.add_0_r in Hn. congruence.
      * specialize (Hto 0%nat). rewrite Nat.add_0_r in Hto.
        rewrite Hto in Hnet by lia. done.
Qed.

(** [upload_to_imgbb] always returns a result: nothing escapes it. *)
Lemma upload_to_imgbb_returns image name api_key retries s :
  ∃ r s', upload_to_imgbb net image name api_key retries s = (Val r, s').
Proof.
  unfold upload_to_imgbb. destruct (String.eqb api_key ""); [by eexists _, _|].
  apply upload_attempts_returns.
Qed.

End Classification.

(** C2, as the code has it: [upload_to_imgbb] reports a credential failure
    ([key_valid] false) exactly when it is given no key or when the answer
    that ends its retry loop is a 400, whatever the error message of that
    answer says; every other answer, 4xx and 5xx included, an exhausted
    read timeout and any other exception give an item error ([key_valid]
    true).  The key words of the message only choose the error text: it is
    "API key inválida o expirada" exactly for a 400 whose message holds one
    of them. *)
Theorem upload_classification (net : nat → Request → HttpOutcome)
  (image : bytes) (name api_key : string) (retries : nat) (s s' : Sys)
  (r : UploadResult) :
  upload_to_imgbb net image name api_key retries s = (Val r, s') →
  (key_valid r = false
   ↔ api_key = ""
     ∨ ends_with_400 net (upload_form image name api_key) (clock s) retries)
  ∧ (∀ status_code body,
       key_valid (classify_response status_code body)
       = negb (status_code =? 400)%Z)
  ∧ (∀ status_code body,
       error (classify_response status_code body) = Some KeyInvalidOrExpired
       ↔ key_error_reported status_code body = true).
Proof.
  intros Hrun. split; [|split].
  - unfold upload_to_imgbb in Hrun.
    destruct (String.eqb api_key "") eqn:Hkey.
    + apply String.eqb_eq in Hkey. injection Hrun as <- <-. simpl. tauto.
    + apply String.eqb_neq in Hkey.
      rewrite (upload_attempts_key_valid _ _ _ _ _ _ Hrun). tauto.
  - apply classify_key_valid.
  - apply classify_key_error.
Qed.

Lemma upload_classification_witness :
  "0123456789" = ""
  ∨ ends_with_400 bad_request_host (upload_form [] "a.png" "0123456789") 0 3.
Proof.
  apply (proj1 (proj1 (upload_classification bad_request_host [] "a.png"
                         "0123456789" 3 idle_sys
                         (mkSys (mkGlobals pool0 ∅ ∅) 1 [])
                         (failure HttpError false) eq_refl))).
  reflexivity.
Defined.

(** C2 fails as it is stated: a 400 whose message holds none of the key
    words is still classified as a credential failure. *)
Lemma bad_request_is_credential_failure :
  mentions_key_word (PyStr.lower "Bad request") = false
  ∧ ∃ r s', upload_to_imgbb bad_request_host [] "a.png" "0123456789" 3 idle_sys
            = (Val r, s')
            ∧ success r = false ∧ key_valid r = false.
Proof.
  split; [reflexivity|].
  eexists _, _. split; [reflexivity|]. split; reflexivity.
Qed.

(** ** The listener of a solicitation *)

Section Solicitation.

Variable tg_ok : nat → bool.
Variable meanwhile : nat → Globals → Globals.

Lemma finally_cleans {A} (body : M A) cleanup s r s' :
  finally body cleanup s = (r, s') → ∃ s'', s' = cleanup s''.
Proof.
  unfold finally. destruct (body s) as [r0 s0]. intros [= _ <-]. by eexists.
Qed.

(** However [request_new_key] ends, once it has shown its prompt the
    listener of the chat is gone when it ends. *)
Lemma request_new_key_cleans script chat_id s r s' :
  request_new_key tg_ok meanwhile script chat_id s = (r, s') →
  tg_ok (clock s) = true →
  active_listeners (globals s') !! chat_id = None.
Proof.
  intros Hrun Hok.
  assert (∃ s'', s' = drop_listener chat_id s'') as [s'' ->].
  { destruct script as [|[] rest]; simpl in Hrun;
      unfold bind at 1, telegram at 1 in Hrun; rewrite Hok in Hrun;
      unfold bind at 1, set_listener, modify_globals in Hrun;
      by apply finally_cleans in Hrun. }
  simpl. apply lookup_delete_eq.
Qed.

End Solicitation.

(** C8: when a call of [request_new_key] returns (a key, or nothing after a
    cancel or a timeout, through any number of re-prompts), the map
    [active_listeners] has no entry for the chat, whatever the other
    handlers did to the map in the meantime. *)
Theorem listener_removed_on_return (tg_ok : nat → bool)
  (meanwhile : nat → Globals → Globals) (script : list bool) (chat_id : Z)
  (s s' : Sys) (new_key : option string) (rest : list bool) :
  request_new_key tg_ok meanwhile script chat_id s = (Val (new_key, rest), s') →
  active_listeners (globals s') !! chat_id = None.
Proof.
  intros Hrun. apply (request_new_key_cleans _ _ _ _ _ _ _ Hrun).
  destruct script as [|[] ?]; simpl in Hrun;
    unfold bind at 1, telegram at 1 in Hrun;
    by destruct (tg_ok (clock s)).
Qed.

(** ** One turn of the loop *)

Section Turns.

Variable normalize : bytes → option bytes.
Variable net : nat → Request → HttpOutcome.
Variable tg_ok : nat → bool.
Variable meanwhile : nat → Globals → Globals.

Lemma upload_attempts_trace retries req s r s' :
  upload_attempts net retries req s = (r, s') →
  trace s' = trace s ∧ globals s' = globals s.
Proof.
  revert s. induction retries as [|rest IH]; intros s; simpl.
  - by intros [= _ <-].
  - unfold bind, http_post.
    destruct (net (clock s) req); try by intros [= _ <-].
    destruct rest; [by intros [= _ <-]|].
    intros H. by apply IH in H.
Qed.

Lemma upload_trace image name key retries s r s' :
  upload_to_imgbb net image name key retries s = (r, s') →
  trace s' = trace s ∧ globals s' = globals s.
Proof.
  unfold upload_to_imgbb. destruct (String.eqb key "").
  - by intros [= _ <-].
  - apply upload_attempts_trace.
Qed.

Lemma classify_success status_code body :
  success (classify_response status_code body) = true →
  key_valid (classify_response status_code body) = true.
Proof.
  unfold classify_response.
  destruct (key_error_reported status_code body); [done|].
  destruct (raises_for_status status_code).
  - by destruct (status_code =? 400)%Z.
  - destruct body as [resp|]; [|done].
    by destruct (success_url resp) as [[u|]|].
Qed.

(** A result that reports a success does not report a bad key. *)
Lemma upload_success_key_valid image name key retries s r s' :
  upload_to_imgbb net image name key retries s = (Val r, s') →
  success r = true → key_valid r = true.
Proof.
  unfold upload_to_imgbb. destruct (String.eqb key ""); [by intros [= <- _]|].
  generalize (upload_form image name key). intros req.
  revert s. induction retries as [|rest IH]; intros s; simpl;
    [by intros [= <- _]|].
  unfold bind, http_post.
  destruct (net (clock s) req) as [st body| |].
  - intros [= <- _]. apply classify_success.
  - destruct rest; [by intros [= <- _]|]. apply IH.
  - by intros [= <- _].
Qed.

Lemma request_new_key_trace script chat_id s r s' :
  request_new_key tg_ok meanwhile script chat_id s = (r, s') →
  trace s' = trace s.
Proof.
  revert s r s'. induction script as [|w rest IH]; intros s r s'.
  - simpl. unfold bind, telegram, set_listener, modify_globals, finally, yield, ret.
    simpl. repeat case_match; intros; simplify_eq; done.
  - destruct w; simpl;
      unfold bind, telegram, set_listener, modify_globals, finally, yield,
             get_globals, ret; simpl.
    + repeat case_match; intros; simplify_eq; simpl; try done.
      all: match goal with H : request_new_key _ _ _ _ _ = _ |- _ => apply IH in H; simpl in H; done end.
    + repeat case_match; intros; simplify_eq; done.
Qed.

Lemma request_new_key_consumes script chat_id s key rest s' :
  request_new_key tg_ok meanwhile script chat_id s = (Val (Some key, rest), s') →
  (List.length rest < List.length script)%nat.
Proof.
  revert s key rest s'. induction script as [|w script IH]; intros s key rest s'.
  - simpl. unfold bind, telegram, set_listener, modify_globals, finally, yield, ret.
    simpl. repeat case_match; intros; simplify_eq; done.
  - destruct w; simpl;
      unfold bind, telegram, set_listener, modify_globals, finally, yield,
             get_globals, ret; simpl.
    + repeat case_match; intros; simplify_eq; simpl; try lia.
      all: match goal with H : request_new_key _ _ _ _ _ = _ |- _ => apply IH in H; lia end.
    + repeat case_match; intros; simplify_eq; done.
Qed.

Lemma report_progress_trace chat_id s :
  ∃ s', report_progress tg_ok meanwhile chat_id s = (Val tt, s')
        ∧ trace s' = trace s.
Proof.
  unfold report_progress, bind, ignore_errors, telegram, yield, ret.
  destruct (chat_id =? 0)%Z; simpl; by eexists.
Qed.

End Turns.

Section TurnOfIteration.

Variable normalize : bytes → option bytes.
Variable net : nat → Request → HttpOutcome.
Variable tg_ok : nat → bool.
Variable meanwhile : nat → Globals → Globals.

Local Abbreviation iteration := (iteration normalize net tg_ok meanwhile).
Local Abbreviation request_new_key := (request_new_key tg_ok meanwhile).
Local Abbreviation report_progress := (report_progress tg_ok meanwhile).

(** A turn that finds the key refused, step by step. *)
Lemma iteration_key_refused image_sources chat_id L inbox s name payload buf r s1 :
  image_sources !! idx L = Some (name, payload) →
  normalize payload = Some buf →
  upload_to_imgbb net buf name (current_key L) 3 s = (Val r, s1) →
  success r = false → key_valid r = false →
  iteration image_sources chat_id L inbox s
  = match request_new_key inbox chat_id (suspended image_sources chat_id L s1) with
    | (Val (Some new_key, inbox'), s3) =>
        (Val (Next (mkLoop (idx L) (links L) (errors L) 0 new_key) inbox'),
         mkSys (with_pool (mark_key_as_valid new_key)
                  (with_pool (append_key new_key) (globals s3)))
               (clock s3)
               (trace s3 ++ [EvMarkValid new_key; EvNewKey new_key]))
    | (Val (None, _), s3) =>
        (Val (Return (links L) (errors L)),
         mkSys (globals s3) (clock s3) (trace s3 ++ [EvCancelled]))
    | (Exc, s3) => (Exc, s3)
    end.
Proof.
  intros Hitem Hdec Hup Hfail Hkey.
  unfold iteration. rewrite Hitem, Hdec.
  unfold bind at 1. rewrite Hup.
  unfold bind at 1, log at 1. rewrite Hfail, Hkey. simpl.
  unfold bind at 1, suspend_job, bind at 1, job_mark_failed, bind at 1,
         modify_globals at 1, log at 1, modify_globals at 1. simpl.
  replace (idx L + 1 - 1)%nat with (idx L) by lia.
  rewrite <- app_assoc. simpl.
  unfold bind at 1, suspended.
  destruct (request_new_key inbox chat_id _) as [[[[new_key|] inbox']|] s3]; try done.
  unfold bind, modify_globals, job_mark_valid, bind, modify_globals, log, ret.
  simpl. by rewrite <- app_assoc.
Qed.

Lemma iteration_turn image_sources chat_id L inbox s res s' :
  (idx L < List.length image_sources)%nat →
  iteration image_sources chat_id L inbox s = (res, s') →
  ∃ name payload t,
    image_sources !! idx L = Some (name, payload)
    ∧ res = turn_result L inbox t
    ∧ trace s' = trace s ++ turn_events L t
    ∧ match normalize payload with
      | None => t = TSkipped name
      | Some buf =>
          ∃ r s0 s1,
            upload_to_imgbb net buf name (current_key L) 3 s0 = (Val r, s1)
            ∧ turn_of_upload name r inbox t
      end.
Proof.
  intros Hidx Hrun.
  destruct (lookup_lt_is_Some_2 image_sources (idx L) Hidx) as [[name payload] Hitem].
  exists name, payload.
  destruct (normalize payload) as [buf|] eqn:Hdec.
  - destruct (upload_to_imgbb_returns net buf name (current_key L) 3 s)
      as (r & s1 & Hup).
    destruct (upload_trace net _ _ _ _ _ _ _ Hup) as [Htr _].
    destruct (success r) eqn:Hsucc; [|destruct (key_valid r) eqn:Hkv].
    + (* stored *)
      exists (TStored name (default JNull (url r))).
      unfold iteration in Hrun. rewrite Hitem, Hdec in Hrun.
      remember (3 <=? consecutive_successes L + 1)%nat as b eqn:H3.
      unfold bind at 1 in Hrun. rewrite Hup in Hrun.
      unfold bind at 1, log at 1 in Hrun. rewrite Hsucc in Hrun.
      unfold bind at 1 in Hrun.
      assert (∃ s2, (if b then job_mark_valid (current_key L) else ret ())
                      (mkSys (globals s1) (clock s1)
                             (trace s1 ++ [EvUpload (current_key L) true]))
                    = (Val (), s2)
                    ∧ trace s2 = trace s ++ turn_events L (TStored name (default JNull (url r))))
        as (s2 & Hmark & Htr2).
      { unfold turn_events. rewrite <- H3, <- Htr.
        destruct b; eexists; (split; [reflexivity|]); simpl; [|done].
        by rewrite <- app_assoc. }
      rewrite Hmark in Hrun. unfold bind at 1 in Hrun.
      destruct (report_progress_trace tg_ok meanwhile chat_id s2)
        as (s3 & Hrep & Htr3).
      rewrite Hrep in Hrun. injection Hrun as <- <-.
      split; [done|]. split; [done|]. split; [congruence|].
      exists r, s, s1. done.
    + (* refused *)
      exists (TRefused name (default UnknownError (error r))).
      unfold iteration in Hrun. rewrite Hitem, Hdec in Hrun.
      unfold bind at 1 in Hrun. rewrite Hup in Hrun.
      unfold bind at 1, log at 1 in Hrun. rewrite Hsucc, Hkv in Hrun.
      simpl in Hrun. unfold bind at 1 in Hrun.
      match type of Hrun with
      | context [report_progress chat_id ?st] =>
          destruct (report_progress_trace tg_ok meanwhile chat_id st)
            as (s2 & Hrep & Htr2)
      end.
      rewrite Hrep in Hrun. injection Hrun as <- <-.
      split; [done|]. split; [done|]. split.
      * rewrite Htr2. simpl. by rewrite Htr.
      * exists r, s, s1. done.
    + (* key refused *)
      rewrite (iteration_key_refused _ _ _ _ _ _ _ _ _ _ Hitem Hdec Hup Hsucc Hkv)
        in Hrun.
      destruct (request_new_key inbox chat_id _)
        as [[[[new_key|] inbox']|] s3] eqn:Hreq.
      * exists (TSwapped new_key inbox'). injection Hrun as <- <-.
        split; [done|]. split; [done|].
        apply request_new_key_trace in Hreq as Htr3.
        apply request_new_key_consumes in Hreq as Hlen.
        split.
        -- simpl. rewrite Htr3. simpl. rewrite Htr, <- !app_assoc. done.
        -- exists r, s, s1. done.
      * exists TCancelled. injection Hrun as <- <-.
        split; [done|]. split; [done|].
        apply request_new_key_trace in Hreq as Htr3.
        split.
        -- simpl. rewrite Htr3. simpl. rewrite Htr, <- !app_assoc. done.
        -- exists r, s, s1. done.
      * exists TEscaped. injection Hrun as <- <-.
        split; [done|]. split; [done|].
        apply request_new_key_trace in Hreq as Htr3.
        split.
        -- rewrite Htr3. simpl. by rewrite Htr.
        -- exists r, s, s1. done.
  - exists (TSkipped name).
    unfold iteration in Hrun. rewrite Hitem, Hdec in Hrun.
    injection Hrun as <- <-.
    split; [done|]. split; [done|]. split; [by rewrite app_nil_r|done].
Qed.

End TurnOfIteration.

(** ** Runs of the loop *)

Section Runs.

Variable normalize : bytes → option bytes.
Variable net : nat → Request → HttpOutcome.
Variable tg_ok : nat → bool.
Variable meanwhile : nat → Globals → Globals.
Variable image_sources : list (string * bytes).
Variable chat_id : Z.

Local Abbreviation iteration :=
  (iteration normalize net tg_ok meanwhile image_sources chat_id).
Local Abbreviation loop fuel :=
  (loop normalize net tg_ok meanwhile fuel image_sources chat_id).
Local Abbreviation reaches :=
  (reaches normalize net tg_ok meanwhile image_sources chat_id).

(** What a turn that goes on does to the cursor and to the script. *)
Lemma iteration_progress L inbox s L1 inbox1 s1 :
  (idx L < List.length image_sources)%nat →
  iteration L inbox s = (Val (Next L1 inbox1), s1) →
  (idx L1 = S (idx L) ∧ inbox1 = inbox)
  ∨ (idx L1 = idx L ∧ (List.length inbox1 < List.length inbox)%nat).
Proof.
  intros Hidx Hrun.
  destruct (iteration_turn _ _ _ _ _ _ _ _ _ _ _ Hidx Hrun)
    as (name & payload & t & _ & Hres & _ & Hfit).
  destruct t; simpl in Hres; simplify_eq; simpl;
    try (left; split; [lia|done]).
  right. split; [done|].
  destruct (normalize payload); [|done].
  destruct Hfit as (r & s0 & s2 & _ & _ & _ & Hlen). done.
Qed.

Lemma loop_enough fuel L inbox s :
  (List.length image_sources - idx L + List.length inbox < fuel)%nat →
  ∃ out, loop fuel L inbox s = Some out.
Proof.
  revert L inbox s. induction fuel as [|fuel IH]; intros L inbox s Hm; [lia|].
  simpl. case_decide as Hidx; [|by eexists].
  destruct (iteration L inbox s) as [[[L1 inbox1|l e]|] s1] eqn:Hit;
    [|by eexists..].
  apply IH.
  destruct (iteration_progress _ _ _ _ _ _ Hidx Hit) as [[-> ->]|[-> ?]]; lia.
Qed.

Lemma loop_more_fuel fuel fuel' L inbox s out :
  loop fuel L inbox s = Some out → (fuel ≤ fuel')%nat →
  loop fuel' L inbox s = Some out.
Proof.
  revert fuel' L inbox s.
  induction fuel as [|fuel IH]; intros fuel' L inbox s Hloop Hle; [done|].
  destruct fuel' as [|fuel']; [lia|]. simpl in *.
  case_decide; [|done].
  destruct (iteration L inbox s) as [[[L1 inbox1|l e]|] s1]; try done.
  apply IH; [done|lia].
Qed.

Lemma reaches_loop X L inbox s fuel out :
  reaches X (L, inbox, s) → loop fuel L inbox s = Some out →
  ∃ fuel', loop fuel' (X.1.1) (X.1.2) (X.2) = Some out.
Proof.
  intros Hreach. remember (L, inbox, s) as Y eqn:HY.
  induction Hreach as [X|L0 inbox0 s0 L1 inbox1 s1 Y Hidx Hit Hreach IH];
    intros Hloop.
  - subst. by exists fuel.
  - destruct (IH HY Hloop) as [fuel' Hfuel']. exists (S fuel'). simpl.
    rewrite decide_True by done. by rewrite Hit.
Qed.


(** The invariant of the accumulated results. *)
Lemma turn_accumulates L inbox t name payload L1 inbox1 :
  image_sources !! idx L = Some (name, payload) →
  match t with
  | TSkipped n | TStored n _ | TRefused n _ => n = name
  | _ => True
  end →
  turn_result L inbox t = Val (Next L1 inbox1) →
  accumulated_before image_sources L → accumulated_before image_sources L1.
Proof.
  intros Hitem Hname Hres (Hle & Hl & He).
  assert (idx L < List.length image_sources)%nat as Hlt
    by (by eapply lookup_lt_Some).
  assert ((take (idx L + 1) image_sources).*1
          = (take (idx L) image_sources).*1 ++ [name]) as Htake.
  { rewrite Nat.add_1_r, (take_S_r _ _ _ Hitem), fmap_app. done. }
  unfold accumulated_before.
  destruct t; simpl in Hres; simplify_eq; simpl; rewrite ?Htake, ?fmap_app;
    simpl; (split; [lia|]); (split;
      [first [by apply sublist_app | by apply sublist_inserts_r | done]
      |first [by apply sublist_app | by apply sublist_inserts_r | done]]).
Qed.

Lemma iteration_accumulates L inbox s L1 inbox1 s1 :
  (idx L < List.length image_sources)%nat →
  iteration L inbox s = (Val (Next L1 inbox1), s1) →
  accumulated_before image_sources L → accumulated_before image_sources L1.
Proof.
  intros Hidx Hrun.
  destruct (iteration_turn _ _ _ _ _ _ _ _ _ _ _ Hidx Hrun)
    as (name & payload & t & Hitem & Hres & _ & Hfit).
  apply (turn_accumulates L inbox t name payload L1 inbox1); [done| |done].
  destruct (normalize payload); [|by subst].
  destruct Hfit as (r & s0 & s2 & _ & Hfit).
  destruct t; simpl in Hfit; tauto.
Qed.

Lemma reaches_accumulates X Y :
  reaches X Y →
  accumulated_before image_sources X.1.1 →
  accumulated_before image_sources Y.1.1.
Proof.
  induction 1 as [|L inbox s L1 inbox1 s1 Y Hidx Hit _ IH]; [done|].
  simpl. intros Hacc. apply IH. simpl.
  by apply (iteration_accumulates _ _ _ _ _ _ Hidx Hit).
Qed.

Lemma accumulated_in_batch L :
  accumulated_before image_sources L →
  (links L).*1 `sublist_of` image_sources.*1
  ∧ error_name <$> errors L `sublist_of` image_sources.*1.
Proof.
  intros (_ & Hl & He).
  assert ((take (idx L) image_sources).*1 `sublist_of` image_sources.*1)
    by (rewrite fmap_take; apply sublist_take).
  split; by etrans.
Qed.

Lemma loop_accumulates fuel L inbox s l e s' :
  loop fuel L inbox s = Some (Val (l, e), s') →
  accumulated_before image_sources L →
  l.*1 `sublist_of` image_sources.*1
  ∧ error_name <$> e `sublist_of` image_sources.*1.
Proof.
  revert L inbox s. induction fuel as [|fuel IH]; intros L inbox s; [done|].
  simpl. case_decide as Hidx.
  - destruct (iteration L inbox s) as [[[L1 inbox1|l1 e1]|] s1] eqn:Hit.
    + intros Hloop Hacc. apply (IH _ _ _ Hloop).
      by apply (iteration_accumulates _ _ _ _ _ _ Hidx Hit).
    + intros [= -> -> ->] Hacc.
      destruct (iteration_turn _ _ _ _ _ _ _ _ _ _ _ Hidx Hit)
        as (name & payload & t & _ & Hres & _).
      destruct t; simpl in Hres; simplify_eq.
      by apply accumulated_in_batch.
    + done.
  - unfold finish, bind, job_mark_valid, bind, modify_globals, log, ret.
    destruct (0 <? _)%nat; simpl; intros [= <- <- _]; apply accumulated_in_batch.
Qed.

End Runs.

(** ** The order of the batch *)

Section NameOrder.

Lemma ascii_compare_N a b :
  Ascii.compare a b = (N_of_ascii a ?= N_of_ascii b)%N.
Proof. reflexivity. Qed.

Lemma string_compare_le_trans s1 s2 s3 :
  String.compare s1 s2 ≠ Gt → String.compare s2 s3 ≠ Gt →
  String.compare s1 s3 ≠ Gt.
Proof.
  revert s2 s3. induction s1 as [|a1 s1 IH]; intros [|a2 s2] [|a3 s3];
    simpl; try done.
  rewrite !ascii_compare_N.
  destruct (N.compare_spec (N_of_ascii a1) (N_of_ascii a2)) as [E12|L12|G12];
    destruct (N.compare_spec (N_of_ascii a2) (N_of_ascii a3)) as [E23|L23|G23];
    destruct (N.compare_spec (N_of_ascii a1) (N_of_ascii a3)) as [E13|L13|G13];
    try done; try lia.
  apply IH.
Qed.

Lemma string_leb_trans s1 s2 s3 :
  String.leb s1 s2 = true → String.leb s2 s3 = true → String.leb s1 s3 = true.
Proof.
  unfold String.leb. intros H12 H23.
  pose proof (string_compare_le_trans s1 s2 s3) as H.
  destruct (String.compare s1 s2); destruct (String.compare s2 s3);
    destruct (String.compare s1 s3); try done; exfalso; by apply H.
Qed.

Global Instance name_le_trans : Transitive name_le.
Proof. intros a b c. apply string_leb_trans. Qed.

Lemma name_le_total a b : name_le a b ∨ name_le b a.
Proof. apply String.leb_total. Qed.

Lemma insert_by_key_elem x y l :
  y ∈ insert_by_key x l ↔ y = x ∨ y ∈ l.
Proof.
  induction l as [|z l IH]; simpl.
  - rewrite list_elem_of_singleton. set_solver.
  - destruct (key_le x z); [set_solver|].
    rewrite !elem_of_cons, IH. tauto.
Qed.

Lemma insert_by_key_sorted x l :
  StronglySorted (λ a b, name_le a.1 b.1) l →
  StronglySorted (λ a b, name_le a.1 b.1) (insert_by_key x l).
Proof.
  induction l as [|y l IH]; simpl; intros Hs.
  - repeat constructor.
  - apply StronglySorted_inv in Hs as [Hl Hy].
    destruct (key_le x y) eqn:Hxy.
    + constructor; [by constructor|].
      constructor; [done|].
      eapply Forall_impl; [exact Hy|]. intros z Hz. simpl in *.
      by etrans.
    + constructor; [by apply IH|].
      apply Forall_forall. intros z Hz.
      apply insert_by_key_elem in Hz as [->|Hz].
      * destruct (name_le_total x.1 y.1) as [H|H]; [|done].
        unfold name_le, key_le, name_key in *. congruence.
      * by eapply Forall_forall in Hy.
Qed.

Lemma sort_by_name_sorted l :
  StronglySorted name_le (sort_by_name l).*1.
Proof.
  apply (StronglySorted_fmap fst (λ a b, name_le a.1 b.1) name_le); [done|].
  induction l as [|x l IH]; simpl; [constructor|].
  by apply insert_by_key_sorted.
Qed.

Lemma insert_by_key_perm x l : insert_by_key x l ≡ₚ x :: l.
Proof.
  induction l as [|y l IH]; simpl; [done|].
  destruct (key_le x y); [done|]. rewrite IH. apply Permutation_swap.
Qed.

Lemma sort_by_name_perm l : sort_by_name l ≡ₚ l.
Proof.
  induction l as [|x l IH]; simpl; [done|].
  by rewrite insert_by_key_perm, IH.
Qed.

Lemma sorted_sublist {A} (R : relation A) (l k : list A) :
  l `sublist_of` k → StronglySorted R k → StronglySorted R l.
Proof.
  induction 1 as [|x l k Hsub IH|x l k Hsub IH]; intros Hs; [done|..].
  - apply StronglySorted_inv in Hs as [Hk Hx].
    constructor; [by apply IH|].
    apply Forall_forall. intros y Hy.
    eapply Forall_forall in Hx; [done|]. by eapply sublist_subseteq.
  - apply StronglySorted_inv in Hs as [Hk _]. by apply IH.
Qed.

End NameOrder.

Section Jobs.

Variable normalize : bytes → option bytes.
Variable net : nat → Request → HttpOutcome.
Variable tg_ok : nat → bool.
Variable meanwhile : nat → Globals → Globals.

Local Abbreviation process :=
  (process_and_upload_images normalize net tg_ok meanwhile).
Local Abbreviation loop := (loop normalize net tg_ok meanwhile).

(** The job either leaves before the loop, with empty results or an
    exception of the Telegram call, or runs the loop on the sorted
    batch. *)
Lemma process_cases sources chat_id inbox s :
  (∃ s', process sources chat_id inbox s = Some (Val ([], []), s')
         ∧ trace s' = trace s)
  ∨ (∃ s', process sources chat_id inbox s = Some (Exc, s'))
  ∨ (∃ key p,
       current_imgbb_keys (pool (globals s)) ≠ []
       ∧ get_current_imgbb_key (pool (globals s)) = (key, p) ∧ key ≠ ""
       ∧ process sources chat_id inbox s
         = loop (S (List.length (sort_by_name sources) + List.length inbox))
                (sort_by_name sources) chat_id (mkLoop 0 [] [] 0 key) inbox
                (set_pool p s)).
Proof.
  unfold process_and_upload_images.
  destruct (current_imgbb_keys (pool (globals s))) as [|k ks] eqn:Hkeys.
  - unfold bind, telegram, ret. destruct (tg_ok (clock s)).
    + left. by eexists.
    + right. left. by eexists.
  - destruct (get_current_imgbb_key (pool (globals s))) as [key p] eqn:Hcur.
    destruct (String.eqb key "") eqn:Hkey.
    + unfold bind, telegram, ret. simpl. destruct (tg_ok (clock s)).
      * left. by eexists.
      * right. left. by eexists.
    + right. right. exists key, p. apply String.eqb_neq in Hkey. done.
Qed.

(** The fuel [process_and_upload_images] gives to its loop suffices: the
    job always ends. *)
Lemma process_and_upload_images_returns sources chat_id inbox s :
  ∃ out, process sources chat_id inbox s = Some out.
Proof.
  destruct (process_cases sources chat_id inbox s)
    as [(s' & -> & _)|[(s' & ->)|(key & p & _ & _ & _ & ->)]];
    [by eexists..|].
  apply loop_enough. simpl. lia.
Qed.

Lemma start_accumulated image_sources key :
  accumulated_before image_sources (mkLoop 0 [] [] 0 key).
Proof. split; [simpl; lia|]. split; simpl; apply sublist_nil_l. Qed.

End Jobs.

(** The names of the successes a job returns are in case-insensitive
    lexicographic order, and they are a subsequence of the names of the
    sorted batch, whatever happened to the credentials during the job. *)
Lemma job_links_sorted (normalize : bytes → option bytes)
  (net : nat → Request → HttpOutcome) (tg_ok : nat → bool)
  (meanwhile : nat → Globals → Globals)
  (sources : list (string * bytes)) (chat_id : Z) (inbox : list bool)
  (s s' : Sys) (links : list (string * json)) (errors : list ItemError) :
  process_and_upload_images normalize net tg_ok meanwhile sources chat_id inbox s
  = Some (Val (links, errors), s') →
  StronglySorted name_le links.*1
  ∧ links.*1 `sublist_of` (sort_by_name sources).*1
  ∧ sort_by_name sources ≡ₚ sources.
Proof.
  intros Hrun.
  assert (links.*1 `sublist_of` (sort_by_name sources).*1) as Hsub.
  { destruct (process_cases normalize net tg_ok meanwhile sources chat_id inbox s)
      as [(s1 & H1 & _)|[(s1 & H1)|(key & p & _ & _ & _ & H1)]];
      rewrite H1 in Hrun.
    - injection Hrun as <- <- <-. apply sublist_nil_l.
    - done.
    - apply loop_accumulates in Hrun; [tauto|]. apply start_accumulated. }
  split; [|split; [done|apply sort_by_name_perm]].
  eapply sorted_sublist; [exact Hsub|apply sort_by_name_sorted].
Qed.

(** ** Suspension, retry and cancellation *)

Section Retry.

Variable normalize : bytes → option bytes.
Variable net : nat → Request → HttpOutcome.
Variable tg_ok : nat → bool.
Variable meanwhile : nat → Globals → Globals.
Variable image_sources : list (string * bytes).
Variable chat_id : Z.

Local Abbreviation iteration :=
  (iteration normalize net tg_ok meanwhile image_sources chat_id).
Local Abbreviation loop fuel :=
  (loop normalize net tg_ok meanwhile fuel image_sources chat_id).
Local Abbreviation reaches :=
  (reaches normalize net tg_ok meanwhile image_sources chat_id).





End Retry.


(** C6: when the loop has come to an item whose upload fails with a refused
    key and the solicitation then returns nothing (cancel or timeout), the
    job returns normally, with the lists of successes and of errors exactly
    as they were when the loop came to that item; the names in both lists
    are subsequences of the names of the items before that one. *)
Theorem cancel_returns_partial_results (normalize : bytes → option bytes)
  (net : nat → Request → HttpOutcome) (tg_ok : nat → bool)
  (meanwhile : nat → Globals → Globals)
  (sources : list (string * bytes)) (chat_id : Z) (inbox0 : list bool) (s0 : Sys)
  (key : string) (p : Pool)
  (L : LoopState) (inbox : list bool) (s s1 : Sys)
  (name : string) (payload buf : bytes) (r : UploadResult)
  (inbox2 : list bool) (s2 : Sys) :
  current_imgbb_keys (pool (globals s0)) ≠ [] →
  get_current_imgbb_key (pool (globals s0)) = (key, p) → key ≠ "" →
  reaches normalize net tg_ok meanwhile (sort_by_name sources) chat_id
          (mkLoop 0 [] [] 0 key, inbox0, set_pool p s0) (L, inbox, s) →
  sort_by_name sources !! idx L = Some (name, payload) →
  normalize payload = Some buf →
  upload_to_imgbb net buf name (current_key L) 3 s = (Val r, s1) →
  success r = false → key_valid r = false →
  request_new_key tg_ok meanwhile inbox chat_id
                  (suspended (sort_by_name sources) chat_id L s1)
  = (Val (None, inbox2), s2) →
  process_and_upload_images normalize net tg_ok meanwhile sources chat_id inbox0 s0
  = Some (Val (links L, errors L),
          mkSys (globals s2) (clock s2) (trace s2 ++ [EvCancelled]))
  ∧ (links L).*1 `sublist_of` (take (idx L) (sort_by_name sources)).*1
  ∧ error_name <$> errors L `sublist_of` (take (idx L) (sort_by_name sources)).*1.
Proof.
  intros Hkeys Hcur Hkey Hreach Hitem Hdec Hup Hfail Hkv Hreq.
  split.
  - assert (loop normalize net tg_ok meanwhile 1 (sort_by_name sources) chat_id
                 L inbox s
            = Some (Val (links L, errors L),
                    mkSys (globals s2) (clock s2) (trace s2 ++ [EvCancelled])))
      as Hlast.
    { simpl. rewrite decide_True by (by eapply lookup_lt_Some).
      rewrite (iteration_key_refused normalize net tg_ok meanwhile _ _ _ _ _ _ _ _ _ _
                 Hitem Hdec Hup Hfail Hkv), Hreq. done. }
    destruct (reaches_loop _ _ _ _ _ _ _ _ _ _ _ _ Hreach Hlast) as [fuel' Hfuel'].
    simpl in Hfuel'.
    destruct (process_and_upload_images_returns normalize net tg_ok meanwhile
                sources chat_id inbox0 s0) as [out Hout].
    rewrite Hout.
    unfold process_and_upload_images in Hout.
    destruct (current_imgbb_keys (pool (globals s0))); [done|].
    rewrite Hcur in Hout.
    apply String.eqb_neq in Hkey. rewrite Hkey in Hout.
    set (N := S (List.length (sort_by_name sources) + List.length inbox0)) in *.
    apply (loop_more_fuel _ _ _ _ _ _ _ (N `max` fuel')) in Hout; [|lia].
    apply (loop_more_fuel _ _ _ _ _ _ _ (N `max` fuel')) in Hfuel'; [|lia].
    rewrite <- Hout. exact Hfuel'.
  - apply (reaches_accumulates _ _ _ _ _ _ _ _ Hreach), start_accumulated.
Qed.

(** ** When a key is marked as valid *)

Section Promotion.

Variable normalize : bytes → option bytes.
Variable net : nat → Request → HttpOutcome.
Variable tg_ok : nat → bool.
Variable meanwhile : nat → Globals → Globals.
Variable image_sources : list (string * bytes).
Variable chat_id : Z.

Lemma streak_snoc key tr e :
  streak key (tr ++ [e])
  = match e with
    | EvUpload k ok =>
        if ok && String.eqb k key then S (streak key tr) else 0%nat
    | _ => streak key tr
    end.
Proof. unfold streak. rewrite rev_unit. by destruct e. Qed.

Lemma promotion_so_far_app tr evs :
  promotion_so_far tr →
  (∀ j key, evs !! j = Some (EvMarkValid key) →
            (3 ≤ streak key (tr ++ take j evs))%nat
            ∨ evs !! S j = Some (EvNewKey key)) →
  promotion_so_far (tr ++ evs).
Proof.
  intros Htr Hevs i key Hi.
  destruct (decide (i < List.length tr)%nat) as [Hlt|Hge].
  - rewrite lookup_app_l in Hi by done.
    destruct (Htr i key Hi) as [H|H].
    + left. rewrite take_app_le by lia. done.
    + right. by apply lookup_app_l_Some.
  - rewrite lookup_app_r in Hi by lia.
    destruct (Hevs _ key Hi) as [H|H].
    + left. rewrite take_app_ge by lia. done.
    + right. rewrite lookup_app_r by lia.
      replace (S i - List.length tr)%nat with (S (i - List.length tr)) by lia.
      done.
Qed.

Lemma promotion_so_far_justified tr :
  promotion_so_far tr → promotion_justified tr.
Proof. intros H i key Hi. destruct (H i key Hi); tauto. Qed.

(** A turn keeps the promotions justified, and the counter of the loop
    never exceeds the streak of the current key. *)
Lemma turn_promotion L inbox t tr :
  promotion_so_far tr →
  (consecutive_successes L ≤ streak (current_key L) tr)%nat →
  promotion_so_far (tr ++ turn_events L t)
  ∧ ∀ L1 inbox1,
      turn_result L inbox t = Val (Next L1 inbox1) →
      (consecutive_successes L1
       ≤ streak (current_key L1) (tr ++ turn_events L t))%nat.
Proof.
  intros Htr Hcs. split.
  - apply promotion_so_far_app; [done|].
    intros j key Hj. destruct t; unfold turn_events in *.
    + by destruct j.
    + destruct (3 <=? consecutive_successes L + 1)%nat eqn:H3.
      * destruct j as [|[|j]]; simpl in Hj; simplify_eq. left.
        change (take 1 [EvUpload (current_key L) true;
                        EvMarkValid (current_key L)])
          with [EvUpload (current_key L) true].
        rewrite streak_snoc, String.eqb_refl.
        apply Nat.leb_le in H3. simpl. lia.
      * destruct j as [|j]; simpl in Hj; simplify_eq.
    + destruct j as [|j]; simpl in Hj; simplify_eq.
    + destruct j as [|[|[|[|j]]]]; simpl in Hj; simplify_eq. by right.
    + destruct j as [|[|[|j]]]; simpl in Hj; simplify_eq.
    + destruct j as [|[|j]]; simpl in Hj; simplify_eq.
  - intros L1 inbox1 Hres.
    destruct t; simpl in Hres; simplify_eq; unfold turn_events;
      cbn [consecutive_successes current_key].
    + by rewrite app_nil_r.
    + destruct (3 <=? consecutive_successes L + 1)%nat.
      * replace (tr ++ [EvUpload (current_key L) true;
                         EvMarkValid (current_key L)])
          with ((tr ++ [EvUpload (current_key L) true])
                ++ [EvMarkValid (current_key L)])
          by (by rewrite <- app_assoc).
        rewrite !streak_snoc, String.eqb_refl. simpl. lia.
      * rewrite streak_snoc, String.eqb_refl. simpl. lia.
    + lia.
    + lia.
Qed.

Lemma loop_promotion fuel L inbox s res s' :
  promotion_so_far (trace s) →
  (consecutive_successes L ≤ streak (current_key L) (trace s))%nat →
  loop normalize net tg_ok meanwhile fuel image_sources chat_id L inbox s
  = Some (res, s') →
  promotion_justified (trace s').
Proof.
  revert L inbox s. induction fuel as [|fuel IH]; intros L inbox s Htr Hcs;
    [done|].
  simpl. case_decide as Hidx.
  - destruct (iteration normalize net tg_ok meanwhile image_sources chat_id
                L inbox s) as [step s1] eqn:Hit.
    destruct (iteration_turn _ _ _ _ _ _ _ _ _ _ _ Hidx Hit)
      as (name & payload & t & _ & -> & Htr1 & _).
    destruct (turn_promotion L inbox t (trace s) Htr Hcs) as [Hp Hc].
    rewrite <- Htr1 in Hp, Hc.
    destruct (turn_result L inbox t) as [[L1 inbox1|l e]|] eqn:Hres.
    + apply IH; [done|]. by apply (Hc L1 inbox1).
    + intros [= _ <-]. by apply promotion_so_far_justified.
    + intros [= _ <-]. by apply promotion_so_far_justified.
  - unfold finish, bind, job_mark_valid, bind, modify_globals, log, ret.
    destruct (0 <? consecutive_successes L)%nat eqn:Hpos; simpl;
      intros [= _ <-]; simpl; [|by apply promotion_so_far_justified].
    apply Nat.ltb_lt in Hpos.
    intros i key Hi.
    destruct (decide (i < List.length (trace s))%nat) as [Hlt|Hge].
    + rewrite lookup_app_l in Hi by done.
      destruct (Htr i key Hi) as [H|H].
      * left. rewrite take_app_le by lia. done.
      * right. left. by apply lookup_app_l_Some.
    + rewrite lookup_app_r in Hi by lia.
      destruct (i - List.length (trace s))%nat as [|j] eqn:Hj; [|by destruct j].
      simpl in Hi. injection Hi as <-.
      right. right. rewrite length_app. simpl.
      assert (i = List.length (trace s)) as -> by lia.
      rewrite take_app_length. split; lia.
Qed.

End Promotion.

(** C1, as the code has it: in the trace of a job, every marking of a key
    as valid is justified in one of three ways: at least three successful
    uploads in a row with that key come before it; or it is the marking of
    the key the requester just supplied, made at the moment the key is
    added and before any upload with it; or it is the last act of the job,
    made when the batch ends after at least one successful upload in a row
    with the current key. *)
Theorem promotion_rule (normalize : bytes → option bytes)
  (net : nat → Request → HttpOutcome) (tg_ok : nat → bool)
  (meanwhile : nat → Globals → Globals)
  (sources : list (string * bytes)) (chat_id : Z) (inbox : list bool)
  (s s' : Sys) (res : Res JobResult) :
  trace s = [] →
  process_and_upload_images normalize net tg_ok meanwhile sources chat_id inbox s
  = Some (res, s') →
  promotion_justified (trace s').
Proof.
  intros Hempty Hrun.
  assert (promotion_so_far []) as Hnil by (by intros [|i] key Hi).
  unfold process_and_upload_images in Hrun.
  destruct (current_imgbb_keys (pool (globals s))).
  - unfold bind, telegram, ret in Hrun.
    destruct (tg_ok (clock s)); injection Hrun as <- <-; simpl;
      rewrite Hempty; by apply promotion_so_far_justified.
  - destruct (get_current_imgbb_key (pool (globals s))) as [key p].
    destruct (String.eqb key "").
    + unfold bind, telegram, ret in Hrun. simpl in Hrun.
      destruct (tg_ok (clock s)); injection Hrun as <- <-; simpl;
        rewrite Hempty; by apply promotion_so_far_justified.
    + eapply loop_promotion; [| |exact Hrun]; simpl; rewrite Hempty; [done|lia].
Qed.

(** ** Transparency of a swap of credentials *)

Section Transparency.

Variable normalize : bytes → option bytes.
Variable net : nat → Request → HttpOutcome.
Variable out : string → bytes → UploadResult.
Variable tg_ok : nat → bool.
Variable meanwhile : nat → Globals → Globals.
Variable image_sources : list (string * bytes).
Variable chat_id : Z.

Local Abbreviation loop fuel :=
  (loop normalize net tg_ok meanwhile fuel image_sources chat_id).
Local Abbreviation iteration :=
  (iteration normalize net tg_ok meanwhile image_sources chat_id).

Local Abbreviation results_so_far :=
  (results_so_far normalize out image_sources).

Lemma loop_trace_extends fuel L inbox s res s' :
  loop fuel L inbox s = Some (res, s') → ∃ more, trace s' = trace s ++ more.
Proof.
  revert L inbox s. induction fuel as [|fuel IH]; intros L inbox s; [done|].
  simpl. case_decide as Hidx.
  - destruct (iteration L inbox s) as [step s1] eqn:Hit.
    destruct (iteration_turn _ _ _ _ _ _ _ _ _ _ _ Hidx Hit)
      as (name & payload & t & _ & -> & Htr1 & _).
    destruct (turn_result L inbox t) as [[L1 inbox1|l e]|].
    + intros Hloop. destruct (IH _ _ _ Hloop) as [more Hmore].
      exists (turn_events L t ++ more). by rewrite Hmore, Htr1, app_assoc.
    + intros [= _ <-]. by eexists.
    + intros [= _ <-]. by eexists.
  - unfold finish, bind, job_mark_valid, bind, modify_globals, log, ret.
    destruct (0 <? consecutive_successes L)%nat; simpl; intros [= _ <-]; simpl.
    + by eexists.
    + exists []. by rewrite app_nil_r.
Qed.

Lemma new_keys_app tr1 tr2 : new_keys (tr1 ++ tr2) = new_keys tr1 ++ new_keys tr2.
Proof. apply omap_app. Qed.

Lemma loop_transparent fuel L inbox s l e s' :
  results_so_far L → key_gives net out (current_key L) →
  loop fuel L inbox s = Some (Val (l, e), s') →
  (∀ k, k ∈ new_keys (trace s') → key_gives net out k) →
  EvCancelled ∉ trace s' →
  l = flat_map (item_links normalize out) image_sources
  ∧ e = flat_map (item_errors normalize out) image_sources.
Proof.
  revert L inbox s. induction fuel as [|fuel IH];
    intros L inbox s (Hle & Hl & He) Hkey; [done|].
  simpl. case_decide as Hidx.
  - destruct (iteration L inbox s) as [step s1] eqn:Hit.
    destruct (iteration_turn _ _ _ _ _ _ _ _ _ _ _ Hidx Hit)
      as (name & payload & t & Hitem & -> & Htr1 & Hfit).
    assert (take (idx L + 1) image_sources
            = take (idx L) image_sources ++ [(name, payload)]) as Htake
      by (by rewrite Nat.add_1_r, (take_S_r _ _ _ Hitem)).
    destruct (normalize payload) as [buf|] eqn:Hdec.
    + destruct Hfit as (r & s0 & s2 & Hup & Hfit).
      pose proof (upload_success_key_valid _ _ _ _ _ _ _ _ Hup) as Hsv.
      destruct (Hkey _ _ _ _ _ Hup) as [Hout|Hrefused].
      * (* the upload had the outcome of the item *)
        destruct t; simpl in Hfit; try done.
        -- destruct Hfit as (-> & Hsucc & ->). simpl.
           intros Hloop Hnew Hcancel.
           eapply IH; [| |exact Hloop|done|done]; [|done].
           split; [simpl; lia|]. simpl. rewrite Htake, !flat_map_app. simpl.
           unfold item_links, item_errors. simpl.
           rewrite Hdec, <- Hout, Hsucc, !app_nil_r. by rewrite Hl, He.
        -- destruct Hfit as (-> & Hsucc & Hkv & ->). simpl.
           intros Hloop Hnew Hcancel.
           eapply IH; [| |exact Hloop|done|done]; [|done].
           split; [simpl; lia|]. simpl. rewrite Htake, !flat_map_app. simpl.
           unfold item_links, item_errors. simpl.
           rewrite Hdec, <- Hout, Hsucc, !app_nil_r. by rewrite Hl, He.
        -- simpl. intros Hloop Hnew Hcancel.
           assert (∃ more, trace s' = trace s1 ++ more) as [more Hmore]
             by (by eapply loop_trace_extends).
           eapply IH; [| |exact Hloop|done|done]; [done|].
           simpl. apply Hnew.
           rewrite Hmore, Htr1, !new_keys_app. simpl. set_solver.
        -- simpl. intros [= <- <- <-] _ Hcancel. exfalso. apply Hcancel.
           rewrite Htr1. simpl. set_solver.
      * (* the key was refused *)
        destruct t; simpl in Hfit; try done.
        -- destruct Hfit as (_ & Hsucc & _). rewrite Hsv in Hrefused; done.
        -- destruct Hfit as (_ & _ & Hkv & _). congruence.
        -- simpl. intros Hloop Hnew Hcancel.
           assert (∃ more, trace s' = trace s1 ++ more) as [more Hmore]
             by (by eapply loop_trace_extends).
           eapply IH; [| |exact Hloop|done|done]; [done|].
           simpl. apply Hnew.
           rewrite Hmore, Htr1, !new_keys_app. simpl. set_solver.
        -- simpl. intros [= <- <- <-] _ Hcancel. exfalso. apply Hcancel.
           rewrite Htr1. simpl. set_solver.
    + subst t. simpl. intros Hloop Hnew Hcancel.
      eapply IH; [| |exact Hloop|done|done]; [|done].
      split; [simpl; lia|]. simpl. rewrite Htake, !flat_map_app. simpl.
      unfold item_links, item_errors. simpl.
      rewrite Hdec, !app_nil_r. by rewrite Hl, He.
  - unfold finish, bind, job_mark_valid, bind, modify_globals, log, ret.
    assert (take (idx L) image_sources = image_sources) as Hall
      by (apply take_ge; lia).
    rewrite Hall in Hl, He.
    destruct (0 <? consecutive_successes L)%nat; simpl; by intros [= <- <- _].
Qed.

End Transparency.

(** C4: take a batch, and outcomes [out] of its items that every working
    credential gives (under a credential an upload either has that outcome
    or reports the credential as refused).  A job that went through one
    swap of credentials, to [k2], and was not cancelled returns the same
    list of successes, hence the same set, as a job on the same batch that
    used [k2] from the start and saw no swap. *)
Theorem swap_is_transparent (normalize : bytes → option bytes)
  (net : nat → Request → HttpOutcome) (out : string → bytes → UploadResult)
  (sources : list (string * bytes)) (k2 : string)
  (tg_okA : nat → bool) (meanwhileA : nat → Globals → Globals)
  (chatA : Z) (inboxA : list bool) (sA sA' : Sys)
  (linksA : list (string * json)) (errorsA : list ItemError)
  (tg_okB : nat → bool) (meanwhileB : nat → Globals → Globals)
  (chatB : Z) (inboxB : list bool) (sB sB' : Sys)
  (linksB : list (string * json)) (errorsB : list ItemError) :
  key_gives net out (get_current_imgbb_key (pool (globals sA))).1 →
  key_gives net out k2 →
  k2 ≠ "" →
  (* the job with one swap *)
  trace sA = [] →
  process_and_upload_images normalize net tg_okA meanwhileA sources chatA inboxA sA
  = Some (Val (linksA, errorsA), sA') →
  new_keys (trace sA') = [k2] →
  EvCancelled ∉ trace sA' →
  (* the job without a swap *)
  (get_current_imgbb_key (pool (globals sB))).1 = k2 →
  process_and_upload_images normalize net tg_okB meanwhileB sources chatB inboxB sB
  = Some (Val (linksB, errorsB), sB') →
  new_keys (trace sB') = [] →
  EvCancelled ∉ trace sB' →
  linksA = linksB ∧ (∀ x, x ∈ linksA ↔ x ∈ linksB) ∧ errorsA = errorsB.
Proof.
  intros HkA Hk2 Hne HtrA HrunA HnewA HcanA HkB HrunB HnewB HcanB.
  assert (linksA = flat_map (item_links normalize out) (sort_by_name sources)
          ∧ errorsA = flat_map (item_errors normalize out) (sort_by_name sources))
    as [-> ->].
  { destruct (process_cases normalize net tg_okA meanwhileA sources chatA inboxA sA)
      as [(s1 & H1 & Htr1)|[(s1 & H1)|(key & p & _ & Hcur & _ & H1)]];
      rewrite H1 in HrunA.
    - injection HrunA as <- <- <-. rewrite Htr1, HtrA in HnewA. done.
    - done.
    - rewrite Hcur in HkA.
      eapply (loop_transparent normalize net out); [| |exact HrunA| |done].
      + split; [simpl; lia|done].
      + done.
      + intros k Hk. rewrite HnewA in Hk.
        apply list_elem_of_singleton in Hk as ->. done. }
  assert (linksB = flat_map (item_links normalize out) (sort_by_name sources)
          ∧ errorsB = flat_map (item_errors normalize out) (sort_by_name sources))
    as [-> ->]; [|done].
  unfold process_and_upload_images in HrunB.
  destruct (current_imgbb_keys (pool (globals sB))) as [|k ks] eqn:Hkeys.
  { unfold get_current_imgbb_key in HkB. rewrite Hkeys in HkB. simpl in HkB.
    congruence. }
  destruct (get_current_imgbb_key (pool (globals sB))) as [key p] eqn:Hcur.
  simpl in HkB. subst key.
  apply String.eqb_neq in Hne. rewrite Hne in HrunB.
  eapply (loop_transparent normalize net out); [| |exact HrunB| |done].
  - split; [simpl; lia|done].
  - done.
  - intros k' Hk. rewrite HnewB in Hk. by apply elem_of_nil in Hk.
Qed.

(** ** A worked batch

    Five images, given out of order; the key the pool starts with is
    refused when the third item of the sorted batch is uploaded, and the
    requester answers the solicitation with a second key. *)

Example demo_swapped_result :
  end_result demo_swapped = Val (demo_links, []).
Proof. vm_compute. reflexivity. Qed.

Example demo_cancelled_result :
  end_result demo_cancelled
  = Val ([("a.jpg", JStr "a"); ("b.png", JStr "b")], []).
Proof. vm_compute. reflexivity. Qed.

Example demo_unswapped_result :
  end_result demo_unswapped = Val (demo_links, []).
Proof. vm_compute. reflexivity. Qed.

Example demo_swapped_trace :
  trace (end_state demo_swapped)
  = [EvUpload "key-one-0001" true; EvUpload "key-one-0001" true;
     EvUpload "key-one-0001" false; EvMarkFailed "key-one-0001";
     EvMarkValid "key-two-0002"; EvNewKey "key-two-0002";
     EvUpload "key-two-0002" true; EvUpload "key-two-0002" true;
     EvUpload "key-two-0002" true; EvMarkValid "key-two-0002";
     EvMarkValid "key-two-0002"].
Proof. vm_compute. reflexivity. Qed.

Lemma promotion_rule_witness :
  promotion_justified (trace (end_state demo_swapped)).
Proof.
  apply (promotion_rule decode_all demo_host always_ok (demo_reply "key-two-0002")
           demo_sources 7 [true] (demo_sys "key-one-0001")
           (end_state demo_swapped) (end_result demo_swapped)).
  - reflexivity.
  - vm_compute. reflexivity.
Defined.

(** C1 fails as it is stated: the key the requester supplies is marked as
    valid at once, before any upload with it. *)
Lemma new_key_promoted_at_once :
  trace (end_state demo_swapped) !! 4%nat = Some (EvMarkValid "key-two-0002")
  ∧ streak "key-two-0002" (take 4 (trace (end_state demo_swapped))) = 0%nat
  ∧ ¬ promoted_after_three (trace (end_state demo_swapped)).
Proof.
  split; [vm_compute; reflexivity|]. split; [vm_compute; reflexivity|].
  intros H. specialize (H 4%nat "key-two-0002").
  rewrite demo_swapped_trace in H. specialize (H eq_refl).
  vm_compute in H. lia.
Qed.

Lemma listener_removed_on_return_witness :
  active_listeners
    (globals
       (request_new_key always_ok (demo_reply_at 4 "key-two-0002") [true; true] 7
          (demo_sys "key-one-0001")).2) !! 7%Z = None.
Proof.
  apply (listener_removed_on_return always_ok (demo_reply_at 4 "key-two-0002")
           [true; true] 7 (demo_sys "key-one-0001") _ (Some "key-two-0002") []).
  vm_compute. reflexivity.
Defined.


Lemma cancel_returns_partial_results_witness :
  demo_cancelled
  = Some (Val ([("a.jpg", JStr "a"); ("b.png", JStr "b")], []),
          end_state demo_cancelled)
  ∧ [("a.jpg", JStr "a"); ("b.png", JStr "b")].*1
    `sublist_of` (take 2 (sort_by_name demo_sources)).*1
  ∧ error_name <$> [] `sublist_of` (take 2 (sort_by_name demo_sources)).*1.
Proof.
  pose proof (cancel_returns_partial_results decode_all demo_host always_ok
           (demo_reply "/cancel") demo_sources 7 [true] (demo_sys "key-one-0001")
           "key-one-0001" (initialize_imgbb_keys "key-one-0001" pool0)
           demo_at_third [true] (demo_sys_at_third (demo_reply "/cancel"))
           (demo_refused (demo_sys_at_third (demo_reply "/cancel")))
           "c.webp" [] [] (failure KeyInvalidOrExpired false) []
           (request_new_key always_ok (demo_reply "/cancel") [true] 7
              (suspended demo_sorted 7 demo_at_third
                 (demo_refused (demo_sys_at_third (demo_reply "/cancel"))))).2)
    as H.
  assert (mkSys
            (globals (request_new_key always_ok (demo_reply "/cancel") [true] 7
               (suspended demo_sorted 7 demo_at_third
                  (demo_refused (demo_sys_at_third (demo_reply "/cancel"))))).2)
            (clock (request_new_key always_ok (demo_reply "/cancel") [true] 7
               (suspended demo_sorted 7 demo_at_third
                  (demo_refused (demo_sys_at_third (demo_reply "/cancel"))))).2)
            (trace (request_new_key always_ok (demo_reply "/cancel") [true] 7
               (suspended demo_sorted 7 demo_at_third
                  (demo_refused (demo_sys_at_third (demo_reply "/cancel"))))).2
             ++ [EvCancelled])
          = end_state demo_cancelled) as <- by (vm_compute; reflexivity).
  apply H.
  - vm_compute. discriminate.
  - vm_compute. reflexivity.
  - discriminate.
  - eapply reaches_next; [simpl; lia|vm_compute; reflexivity|].
    eapply reaches_next; [simpl; lia|vm_compute; reflexivity|].
    match goal with |- reaches _ _ _ _ _ _ ?X ?Y =>
      replace X with Y by (vm_compute; reflexivity) end.
    apply reaches_here.
  - vm_compute. reflexivity.
  - reflexivity.
  - vm_compute. reflexivity.
  - reflexivity.
  - reflexivity.
  - vm_compute. reflexivity.
Defined.

Section DemoHost.

Lemma demo_key_gives key : key_gives demo_host demo_out key.
Proof.
  intros s name buf r s'. unfold upload_to_imgbb.
  destruct (String.eqb key "") eqn:Hkey; [intros [= <- _]; by right|].
  simpl. unfold bind, http_post, demo_host.
  destruct (String.eqb (req_key (upload_form buf name key)) "key-one-0001"
            && bool_decide (req_name (upload_form buf name key) = Some "c")).
  - intros [= <- _]. by right.
  - intros [= <- _]. left. reflexivity.
Qed.

End DemoHost.

Lemma swap_is_transparent_witness :
  job_links demo_swapped = job_links demo_unswapped
  ∧ (∀ x, x ∈ job_links demo_swapped ↔ x ∈ job_links demo_unswapped)
  ∧ job_errors demo_swapped = job_errors demo_unswapped.
Proof.
  apply (swap_is_transparent decode_all demo_host demo_out demo_sources
           "key-two-0002"
           always_ok (demo_reply "key-two-0002") 7 [true]
           (demo_sys "key-one-0001") (end_state demo_swapped)
           (job_links demo_swapped) (job_errors demo_swapped)
           always_ok nobody 9 []
           (demo_sys "key-two-0002") (end_state demo_unswapped)
           (job_links demo_unswapped) (job_errors demo_unswapped)).
  - apply demo_key_gives.
  - apply demo_key_gives.
  - discriminate.
  - reflexivity.
  - vm_compute. reflexivity.
  - vm_compute. reflexivity.
  - apply (bool_decide_unpack _). vm_compute. reflexivity.
  - vm_compute. reflexivity.
  - vm_compute. reflexivity.
  - vm_compute. reflexivity.
  - apply (bool_decide_unpack _). vm_compute. reflexivity.
Defined.

(** * Further properties of the modelled code *)

(** ** The credential pool, continued *)

Section PoolOperations.



End PoolOperations.




(** X3: the two marking functions are idempotent, the last mark wins, and
    a mark for one key leaves the marks of every other key as they are. *)
Theorem last_mark_wins (key : string) (p : Pool) :
  mark_key_as_valid key (mark_key_as_valid key p) = mark_key_as_valid key p
  ∧ mark_key_as_failed key (mark_key_as_failed key p) = mark_key_as_failed key p
  ∧ mark_key_as_failed key (mark_key_as_valid key p) = mark_key_as_failed key p
  ∧ mark_key_as_valid key (mark_key_as_failed key p) = mark_key_as_valid key p
  ∧ (key ∈ valid_keys (mark_key_as_valid key p)
     ∧ key ∉ failed_keys (mark_key_as_valid key p))
  ∧ (key ∈ failed_keys (mark_key_as_failed key p)
     ∧ key ∉ valid_keys (mark_key_as_failed key p))
  ∧ ∀ other, other ≠ key →
      (other ∈ valid_keys (mark_key_as_valid key p) ↔ other ∈ valid_keys p)
      ∧ (other ∈ failed_keys (mark_key_as_valid key p) ↔ other ∈ failed_keys p)
      ∧ (other ∈ valid_keys (mark_key_as_failed key p) ↔ other ∈ valid_keys p)
      ∧ (other ∈ failed_keys (mark_key_as_failed key p) ↔ other ∈ failed_keys p).
Proof.
  unfold mark_key_as_valid, mark_key_as_failed. simpl.
  split_and!;
    try (f_equal; apply set_eq; intros x; destruct (decide (x = key));
         set_solver);
    set_solver.
Qed.

(** ** Text helpers: what stripping and splitting guarantee *)

Section TextFacts.

Import PyStr.

Lemma lstrip_head (s : string) :
  lstrip s = "" ∨ ∃ a r, lstrip s = String a r ∧ is_space a = false.
Proof.
  induction s as [|a s IH]; simpl; [by left|].
  destruct (is_space a) eqn:E; [done|]. right. by exists a, s.
Qed.

Lemma rstrip_keeps_head (a : ascii) (r : string) :
  is_space a = false → ∃ r', rstrip (String a r) = String a r'.
Proof.
  intros Ha. simpl. destruct (rstrip r); rewrite ?Ha; eauto.
Qed.

Lemma rstrip_idem (s : string) : rstrip (rstrip s) = rstrip s.
Proof.
  induction s as [|a s IH]; simpl; [done|].
  destruct (rstrip s) as [|b r] eqn:E.
  - destruct (is_space a) eqn:Ha; simpl; by rewrite ?Ha.
  - remember (String b r) as t. simpl. rewrite IH. by subst t.
Qed.

Lemma strip_idem (s : string) : strip (strip s) = strip s.
Proof.
  unfold strip.
  destruct (lstrip_head s) as [->|(a & r & -> & Ha)]; [done|].
  destruct (rstrip_keeps_head a r Ha) as [r' Hr].
  assert (lstrip (rstrip (String a r)) = rstrip (String a r)) as ->
    by (rewrite Hr; simpl; by rewrite Ha).
  apply rstrip_idem.
Qed.

Lemma lstrip_has_char (c : ascii) (s : string) :
  has_char c (lstrip s) = true → has_char c s = true.
Proof.
  induction s as [|a s IH]; simpl; [done|].
  destruct (is_space a); simpl; [|done].
  intros H. rewrite (IH H). by rewrite orb_true_r.
Qed.

Lemma rstrip_has_char (c : ascii) (s : string) :
  has_char c (rstrip s) = true → has_char c s = true.
Proof.
  induction s as [|a s IH]; simpl; [done|].
  destruct (rstrip s) as [|b r] eqn:E.
  - destruct (is_space a); simpl; [done|].
    rewrite orb_false_r. intros ->. done.
  - remember (String b r) as t. simpl.
    intros [->|H]%orb_true_iff; [done|].
    rewrite (IH H). by rewrite orb_true_r.
Qed.

Lemma strip_has_char (c : ascii) (s : string) :
  has_char c (strip s) = true → has_char c s = true.
Proof. intros H. by apply lstrip_has_char, rstrip_has_char. Qed.

Lemma split_field_free (sep : ascii) (s f : string) :
  f ∈ split sep s → has_char sep f = false.
Proof.
  unfold split. revert f. induction s as [|a s IH]; simpl; intros f.
  - by intros ->%list_elem_of_singleton.
  - destruct (Ascii.eqb a sep) eqn:E.
    + intros [->|H]%elem_of_cons; [done|by apply IH].
    + destruct (split_by _ s) as [|g gs] eqn:Hs.
      * intros ->%list_elem_of_singleton. simpl. by rewrite E.
      * intros [->|H]%elem_of_cons.
        -- simpl. rewrite E. simpl. apply IH. by left.
        -- apply IH. by right.
Qed.

End TextFacts.

(** X4: what [initialize_imgbb_keys] leaves behind.  Every key of the pool
    is non-empty, carries no surrounding white space and no comma; every key
    is marked valid and none failed; and the key the pool then selects is
    the first one configured (the empty string when there is none). *)
Theorem initialized_pool (IMGBB_API_KEY : string) (p : Pool) :
  let q := initialize_imgbb_keys IMGBB_API_KEY p in
  (∀ key, key ∈ current_imgbb_keys q →
     key ≠ "" ∧ PyStr.strip key = key ∧ PyStr.has_char "," key = false)
  ∧ valid_keys q = list_to_set (current_imgbb_keys q)
  ∧ failed_keys q = ∅
  ∧ (get_current_imgbb_key q).1 = default "" (head (current_imgbb_keys q)).
Proof.
  unfold initialize_imgbb_keys. case_decide as Henv; simpl.
  - split; [|done]. intros key H. by apply elem_of_nil in H.
  - split_and!; try done.
    + intros key (raw & -> & Hraw)%list_elem_of_fmap.
      apply list_elem_of_In, filter_In in Hraw as [Hin Hne].
      apply list_elem_of_In in Hin.
      split_and!.
      * intros E. rewrite E in Hne. done.
      * apply strip_idem.
      * destruct (PyStr.has_char "," (PyStr.strip raw)) eqn:E; [|done].
        apply strip_has_char in E.
        by rewrite (split_field_free _ _ _ Hin) in E.
    + unfold get_current_imgbb_key. simpl.
      destruct (List.map PyStr.strip _) as [|k ks] eqn:Hk; [done|].
      rewrite filter_cons_True by set_solver. done.
Qed.

(** ** The reply to a key request *)



Section KeyRequest.

Variable tg_ok : nat → bool.
Variable meanwhile : nat → Globals → Globals.

Local Abbreviation request_new_key := (request_new_key tg_ok meanwhile).

Lemma accepted_response (t : option string) (key : string) :
  is_cancel t = false → is_long_enough t = true → t = Some key →
  (10 ≤ String.length key)%nat ∧ PyStr.lower key ≠ "/cancel".
Proof.
  intros Hc Hl ->. simpl in *.
  apply andb_true_iff in Hl as [Hne Hl]. rewrite Hne in Hc. simpl in Hc.
  split; [by apply Nat.leb_le|]. by apply String.eqb_neq.
Qed.

Lemma request_new_key_accepts script chat_id s key rest s' :
  request_new_key script chat_id s = (Val (Some key, rest), s') →
  (10 ≤ String.length key)%nat ∧ PyStr.lower key ≠ "/cancel".
Proof.
  revert s key rest s'. induction script as [|w script IH]; intros s key rest s'.
  - simpl. unfold bind, telegram, set_listener, modify_globals, finally, yield, ret.
    simpl. repeat case_match; intros; simplify_eq; done.
  - destruct w; simpl;
      unfold bind, telegram, set_listener, modify_globals, finally, yield,
             get_globals, ret; simpl.
    + destruct (tg_ok (clock s)); [|done].
      match goal with
      | |- context [is_cancel ?t] =>
          destruct (is_cancel t) eqn:Hc; [by intros; simplify_eq|];
          destruct (is_long_enough t) eqn:Hl;
            [intros; simplify_eq; by eapply accepted_response|]
      end.
      repeat case_match; intros; simplify_eq.
      all: try match goal with
        H : request_new_key _ _ _ = _ |- _ => by apply IH in H
      end.
    + repeat case_match; intros; simplify_eq; done.
Qed.

End KeyRequest.

(** X6: a key that [request_new_key] returns has at least ten characters
    and is not the cancel token in any casing. *)
Theorem requested_key_is_long (tg_ok : nat → bool)
  (meanwhile : nat → Globals → Globals) (script : list bool) (chat_id : Z)
  (s s' : Sys) (key : string) (rest : list bool) :
  request_new_key tg_ok meanwhile script chat_id s = (Val (Some key, rest), s') →
  (10 ≤ String.length key)%nat ∧ PyStr.lower key ≠ "/cancel".
Proof. apply request_new_key_accepts. Qed.

Lemma requested_key_is_long_witness :
  (10 ≤ String.length "key-two-0002")%nat ∧ PyStr.lower "key-two-0002" ≠ "/cancel".
Proof.
  apply (requested_key_is_long always_ok (demo_reply "key-two-0002") [true] 7
           (demo_sys "key-one-0001")
           (request_new_key always_ok (demo_reply "key-two-0002") [true] 7
              (demo_sys "key-one-0001")).2 "key-two-0002" []).
  vm_compute. reflexivity.
Defined.

(** ** The upload, continued *)

Section UploadBounds.

Variable net : nat → Request → HttpOutcome.

Lemma upload_attempts_posts retries req s r s' :
  upload_attempts net retries req s = (r, s') →
  (clock s ≤ clock s' ≤ clock s + retries)%nat
  ∧ (∀ t, (clock s ≤ t)%nat → (S t < clock s')%nat → net t req = ReadTimeout).
Proof.
  revert s. induction retries as [|rest IH]; intros s; simpl.
  - intros [= _ <-]. split; [lia|]. intros; lia.
  - unfold bind, http_post.
    destruct (net (clock s) req) eqn:Hnet;
      try (intros [= _ <-]; simpl; split; [lia|]; intros; lia).
    destruct rest; [intros [= _ <-]; simpl; split; [lia|]; intros; lia|].
    intros H. apply IH in H as [Hc Ht]. simpl in *. split; [lia|].
    intros t Hlo Hhi. destruct (decide (t = clock s)) as [->|]; [done|].
    apply Ht; lia.
Qed.

Lemma classify_shape status_code body :
  let r := classify_response status_code body in
  (success r = true ↔ is_Some (url r)) ∧ (success r = false ↔ is_Some (error r)).
Proof.
  unfold classify_response.
  repeat case_match; simpl; split; split;
    try done; try (by intros [? [=]]); by eauto.
Qed.

Lemma upload_attempts_shape retries req s r s' :
  upload_attempts net retries req s = (Val r, s') →
  (success r = true ↔ is_Some (url r)) ∧ (success r = false ↔ is_Some (error r)).
Proof.
  revert s. induction retries as [|rest IH]; intros s; simpl.
  - intros [= <- _]. simpl. split; split; try done; by eauto.
  - unfold bind, http_post.
    destruct (net (clock s) req).
    + intros [= <- _]. apply classify_shape.
    + destruct rest; [|apply IH].
      intros [= <- _]. simpl. split; split; try done; by eauto.
    + intros [= <- _]. simpl. split; split; try done; by eauto.
Qed.

End UploadBounds.

(** X7: [upload_to_imgbb] posts at most [retries] times, and not at all
    when the key is empty; every post but the last one it makes ended in a
    read timeout, so nothing else is ever retried; and it changes neither
    the globals nor the log. *)
Theorem upload_request_bound (net : nat → Request → HttpOutcome)
  (image : bytes) (name api_key : string) (retries : nat) (s s' : Sys)
  (r : Res UploadResult) :
  upload_to_imgbb net image name api_key retries s = (r, s') →
  (clock s ≤ clock s' ≤ clock s + retries)%nat
  ∧ (api_key = "" → s' = s)
  ∧ (∀ t, (clock s ≤ t)%nat → (S t < clock s')%nat →
       net t (upload_form image name api_key) = ReadTimeout)
  ∧ globals s' = globals s ∧ trace s' = trace s.
Proof.
  intros Hup.
  destruct (upload_trace net _ _ _ _ _ _ _ Hup) as [Htr Hg].
  unfold upload_to_imgbb in Hup.
  destruct (String.eqb api_key "") eqn:E.
  - injection Hup as _ <-. split; [lia|]. split; [done|]. split; [|done].
    intros; lia.
  - apply upload_attempts_posts in Hup as [Hc Ht].
    split; [done|]. split; [|done].
    intros ->. done.
Qed.

Lemma upload_request_bound_witness :
  let s := demo_sys "key-one-0001" in
  let s' := (upload_to_imgbb demo_host [] "a.jpg" "key-one-0001" 3 s).2 in
  (clock s ≤ clock s' ≤ clock s + 3)%nat
  ∧ ("key-one-0001" = "" → s' = s)
  ∧ (∀ t, (clock s ≤ t)%nat → (S t < clock s')%nat →
       demo_host t (upload_form [] "a.jpg" "key-one-0001") = ReadTimeout)
  ∧ globals s' = globals s ∧ trace s' = trace s.
Proof.
  apply (upload_request_bound demo_host [] "a.jpg" "key-one-0001" 3
           (demo_sys "key-one-0001") _
           (upload_to_imgbb demo_host [] "a.jpg" "key-one-0001" 3
              (demo_sys "key-one-0001")).1).
  vm_compute. reflexivity.
Defined.

(** X8: the shape of the dictionary [upload_to_imgbb] returns.  It never
    raises; the result carries a url exactly when it reports a success and
    an error exactly when it reports a failure; and a key is reported as
    not valid only together with a failure. *)
Theorem upload_result_shape (net : nat → Request → HttpOutcome)
  (image : bytes) (name api_key : string) (retries : nat) (s : Sys) :
  ∃ r s',
    upload_to_imgbb net image name api_key retries s = (Val r, s')
    ∧ (success r = true ↔ is_Some (url r))
    ∧ (success r = false ↔ is_Some (error r))
    ∧ (key_valid r = false → success r = false).
Proof.
  destruct (upload_to_imgbb_returns net image name api_key retries s)
    as (r & s' & Hup).
  exists r, s'. split; [done|].
  assert (key_valid r = false → success r = false) as Hkv.
  { intros Hk. destruct (success r) eqn:Hs; [|done].
    by rewrite (upload_success_key_valid net _ _ _ _ _ _ _ Hup Hs) in Hk. }
  unfold upload_to_imgbb in Hup.
  destruct (String.eqb api_key "").
  - injection Hup as <- _. simpl. split_and!; try done; try by eauto.
  - apply upload_attempts_shape in Hup as [? ?]. done.
Qed.

(** ** The member filter, continued *)

Section MemberFilter.

Lemma root_not_dotdot name : ".." ∉ PyPath.root name.
Proof.
  unfold PyPath.root.
  destruct (PyPath.leading_seps name) as [|[|[|n]]];
    intros H; repeat (apply elem_of_cons in H as [H|H]; [done|]);
    by apply elem_of_nil in H.
Qed.

Lemma startswith_char name (c : ascii) :
  PyStr.startswith name (String c "") = true →
  ∃ rest, name = String c rest.
Proof.
  unfold PyStr.startswith. destruct name as [|a rest]; simpl; [done|].
  destruct (ascii_dec c a) as [->|]; [|done]. by exists rest.
Qed.

Lemma unsafe_name_not_safe name :
  is_safe_member_name name = false → unsafe_member_name name.
Proof.
  unfold is_safe_member_name, unsafe_member_name.
  destruct (String.eqb name "") eqn:Hempty;
    [intros _; left; by apply String.eqb_eq|].
  destruct (PyStr.startswith name "/") eqn:Hslash.
  { intros _. right. right. left.
    apply startswith_char in Hslash as [rest ->]. by exists "/"%char, rest. }
  destruct (PyStr.startswith name (String PyPath.backslash "")) eqn:Hbs.
  { intros _. right. right. left.
    apply startswith_char in Hbs as [rest ->].
    by exists PyPath.backslash, rest. }
  simpl.
  destruct (PyStr.has_char PyPath.backslash name) eqn:Hback;
    [intros _; by do 4 right|].
  destruct (bool_decide (".." ∈ PyPath.parts name)) eqn:Hparts.
  { intros _. right. left. apply bool_decide_eq_true in Hparts.
    unfold PyPath.parts in Hparts.
    apply elem_of_app in Hparts as [H|H]; [by apply root_not_dotdot in H|].
    unfold PyPath.components in H.
    apply list_elem_of_In, filter_In in H as [H _]. apply list_elem_of_In in H.
    unfold has_traversal_segment. by rewrite split_without_backslash. }
  destruct (PyStr.has_char ":" name && _) eqn:Hdrive.
  { intros _. do 3 right. left.
    apply andb_true_iff in Hdrive as [_ H].
    apply andb_true_iff in H as [_ H]. by apply bool_decide_eq_true in H. }
  rewrite contains_char, Hback. done.
Qed.

Lemma member_source_elem m x :
  x ∈ member_source m ↔
  is_safe_member_name (member_name m) = true
  ∧ is_image_filename (member_name m) = true
  ∧ ∃ data, member_data m = Some data ∧ x = (member_name m, data).
Proof.
  unfold member_source.
  destruct (is_safe_member_name (member_name m)); simpl;
    [|rewrite elem_of_nil; naive_solver].
  destruct (member_data m) as [data|]; [|rewrite elem_of_nil; naive_solver].
  destruct (is_image_filename (member_name m));
    [|rewrite elem_of_nil; naive_solver].
  rewrite list_elem_of_singleton. naive_solver.
Qed.

Lemma member_source_sublist m :
  member_source m
  `sublist_of` option_list (pair (member_name m) <$> member_data m).
Proof.
  unfold member_source.
  destruct (is_safe_member_name (member_name m)); simpl;
    [|apply sublist_nil_l].
  destruct (member_data m) as [data|]; simpl; [|done].
  destruct (is_image_filename (member_name m)); [done|apply sublist_nil_l].
Qed.

Lemma listed_members_sublist ct members :
  listed_members ct members `sublist_of` members.
Proof.
  destruct ct; simpl; try done.
  induction members as [|m members IH]; simpl; [done|].
  destruct (negb _); [by apply sublist_skip|by apply sublist_cons].
Qed.

Lemma flat_map_sublist {A B} (f g : A → list B) (l k : list A) :
  (∀ x, f x `sublist_of` g x) → l `sublist_of` k →
  flat_map f l `sublist_of` flat_map g k.
Proof.
  intros Hfg. induction 1 as [|x l k _ IH|x l k _ IH]; simpl; [done|..].
  - by apply sublist_app.
  - by apply sublist_inserts_l.
Qed.

End MemberFilter.

(** X9: [is_safe_member_name] refuses exactly the unsafe names: a name is
    accepted if and only if it is not empty, has no [".."] component, does
    not start with a separator, has no drive prefix and no backslash. *)
Theorem safe_member_exact (name : string) :
  is_safe_member_name name = true ↔ ¬ unsafe_member_name name.
Proof.
  split; [apply safe_name_not_unsafe|].
  intros Hsafe. destruct (is_safe_member_name name) eqn:E; [done|].
  by apply unsafe_name_not_safe in E.
Qed.

(** X10: the list of image sources [handle_container] builds.  An entry is
    in it exactly when the archive lists a member of that name that could
    be read with that content, the name is accepted by
    [is_safe_member_name] and has an image suffix; and the entries come in
    the order of the archive, each member at most once. *)
Theorem collected_sources (ct : ContainerType) (members : list Member) :
  (∀ name data,
     (name, data) ∈ collect_image_sources ct members ↔
     mkMember name (Some data) ∈ listed_members ct members
     ∧ is_safe_member_name name = true ∧ is_image_filename name = true)
  ∧ collect_image_sources ct members
    `sublist_of`
    flat_map (λ m, option_list (pair (member_name m) <$> member_data m)) members.
Proof.
  split.
  - intros name data. unfold collect_image_sources.
    rewrite list_elem_of_In, in_flat_map. split.
    + intros (m & Hm & Hx). apply list_elem_of_In in Hm, Hx.
      apply member_source_elem in Hx as (Hsafe & Himg & d & Hd & [= -> ->]).
      destruct m as [n [d'|]]; simpl in *; simplify_eq. done.
    + intros (Hm & Hsafe & Himg). exists (mkMember name (Some data)).
      split; [by apply list_elem_of_In|].
      apply list_elem_of_In, member_source_elem. simpl. eauto.
  - apply flat_map_sublist; [apply member_source_sublist|].
    apply listed_members_sublist.
Qed.

(** ** The order of the batch, continued *)

Section Stability.

Lemma key_le_same_key x y :
  name_key y = name_key x → key_le x y = true.
Proof.
  unfold key_le. intros ->. by destruct (String.leb_total (name_key x) (name_key x)).
Qed.

Lemma insert_by_key_filter (k : string) x l :
  filter (λ y, name_key y = k) (insert_by_key x l)
  = filter (λ y, name_key y = k) (x :: l).
Proof.
  induction l as [|y l IH]; simpl; [done|].
  destruct (key_le x y) eqn:Hxy; [done|].
  rewrite (filter_cons _ y (insert_by_key x l)), IH.
  rewrite !filter_cons.
  destruct (decide (name_key y = k)) as [Hy|Hy]; [|done].
  destruct (decide (name_key x = k)) as [Hx|Hx]; [|done].
  rewrite key_le_same_key in Hxy by congruence. done.
Qed.

End Stability.

(** X11: the sort of the batch is stable: among the items whose names are
    equal up to case, the order of the archive is kept. *)
Theorem sort_by_name_stable (k : string) (l : list (string * bytes)) :
  filter (λ y, name_key y = k) (sort_by_name l)
  = filter (λ y, name_key y = k) l.
Proof.
  induction l as [|x l IH]; simpl; [done|].
  by rewrite insert_by_key_filter, !filter_cons, IH.
Qed.

(** ** Every item is reported *)

Section Accounting.

Variable normalize : bytes → option bytes.
Variable net : nat → Request → HttpOutcome.
Variable tg_ok : nat → bool.
Variable meanwhile : nat → Globals → Globals.
Variable image_sources : list (string * bytes).
Variable chat_id : Z.

Local Abbreviation iteration :=
  (iteration normalize net tg_ok meanwhile image_sources chat_id).
Local Abbreviation loop fuel :=
  (loop normalize net tg_ok meanwhile fuel image_sources chat_id).

Lemma turn_accounts L inbox t name payload L1 inbox1 :
  image_sources !! idx L = Some (name, payload) →
  match t with
  | TSkipped n | TStored n _ | TRefused n _ => n = name
  | _ => True
  end →
  turn_result L inbox t = Val (Next L1 inbox1) →
  accounted image_sources L → accounted image_sources L1.
Proof.
  intros Hitem Hname Hres (Hle & Hp).
  assert (idx L < List.length image_sources)%nat as Hlt
    by (by eapply lookup_lt_Some).
  assert ((take (idx L + 1) image_sources).*1
          = (take (idx L) image_sources).*1 ++ [name]) as Htake.
  { rewrite Nat.add_1_r, (take_S_r _ _ _ Hitem), fmap_app. done. }
  unfold accounted.
  destruct t; simpl in Hres; simplify_eq; simpl;
    rewrite ?Htake, ?fmap_app; simpl; (split; [lia|]); try done.
  - by rewrite (assoc (++)), Hp.
  - rewrite <- Hp, <- !(assoc (++)). apply Permutation_app_head.
    apply Permutation_app_comm.
  - by rewrite (assoc (++)), Hp.
Qed.

Lemma iteration_accounts L inbox s L1 inbox1 s1 :
  (idx L < List.length image_sources)%nat →
  iteration L inbox s = (Val (Next L1 inbox1), s1) →
  accounted image_sources L → accounted image_sources L1.
Proof.
  intros Hidx Hrun.
  destruct (iteration_turn _ _ _ _ _ _ _ _ _ _ _ Hidx Hrun)
    as (name & payload & t & Hitem & Hres & _ & Hfit).
  apply (turn_accounts L inbox t name payload L1 inbox1); [done| |done].
  destruct (normalize payload); [|by subst].
  destruct Hfit as (r & s0 & s2 & _ & Hfit).
  destruct t; simpl in Hfit; tauto.
Qed.

Lemma loop_accounts fuel L inbox s l e s' :
  loop fuel L inbox s = Some (Val (l, e), s') →
  accounted image_sources L →
  ∃ n, (n ≤ List.length image_sources)%nat
       ∧ l.*1 ++ (error_name <$> e) ≡ₚ (take n image_sources).*1
       ∧ (EvCancelled ∉ trace s' → n = List.length image_sources).
Proof.
  revert L inbox s. induction fuel as [|fuel IH]; intros L inbox s; [done|].
  simpl. case_decide as Hidx.
  - destruct (iteration L inbox s) as [[[L1 inbox1|l1 e1]|] s1] eqn:Hit.
    + intros Hloop Hacc. apply (IH _ _ _ Hloop).
      by apply (iteration_accounts _ _ _ _ _ _ Hidx Hit).
    + intros [= -> -> ->] [Hle Hp].
      destruct (iteration_turn _ _ _ _ _ _ _ _ _ _ _ Hidx Hit)
        as (name & payload & t & _ & Hres & Htr & _).
      destruct t; simpl in Hres; simplify_eq.
      exists (idx L). split; [done|]. split; [done|].
      intros Hno. exfalso. apply Hno. rewrite Htr. simpl.
      apply elem_of_app. right. set_solver.
    + done.
  - unfold finish, bind, job_mark_valid, bind, modify_globals, log, ret.
    intros Hfin [Hle Hp]. exists (idx L).
    assert (l = links L ∧ e = errors L) as [-> ->]
      by (destruct (0 <? _)%nat; simpl in Hfin; by simplify_eq).
    split; [done|]. split; [done|]. intros _. lia.
Qed.

End Accounting.

(** X12: every item of the batch is reported exactly once.  The names in
    the successes and in the errors a job returns are, together, the names
    of an initial part of the sorted batch: each item the job got to
    appears once, as a success or as an error.  When the job started with
    a key and was not cancelled, that part is the whole batch. *)
Theorem every_item_accounted (normalize : bytes → option bytes)
  (net : nat → Request → HttpOutcome) (tg_ok : nat → bool)
  (meanwhile : nat → Globals → Globals)
  (sources : list (string * bytes)) (chat_id : Z) (inbox : list bool)
  (s s' : Sys) (links : list (string * json)) (errors : list ItemError) :
  process_and_upload_images normalize net tg_ok meanwhile sources chat_id inbox s
  = Some (Val (links, errors), s') →
  ∃ n, links.*1 ++ (error_name <$> errors)
       ≡ₚ (take n (sort_by_name sources)).*1
       ∧ ((get_current_imgbb_key (pool (globals s))).1 ≠ "" →
          EvCancelled ∉ trace s' →
          links.*1 ++ (error_name <$> errors) ≡ₚ sources.*1).
Proof.
  unfold process_and_upload_images. intros Hrun.
  destruct (current_imgbb_keys (pool (globals s))) as [|k0 ks] eqn:Hkeys.
  - unfold bind, telegram, ret in Hrun.
    destruct (tg_ok (clock s)); [|done]. injection Hrun as <- <- _.
    exists 0%nat. split; [done|]. intros Hk. exfalso. apply Hk.
    unfold get_current_imgbb_key. by rewrite Hkeys.
  - destruct (get_current_imgbb_key (pool (globals s))) as [key p] eqn:Hcur.
    destruct (String.eqb key "") eqn:Hkey.
    + unfold bind, telegram, ret in Hrun. simpl in Hrun.
      destruct (tg_ok (clock s)); [|done]. injection Hrun as <- <- _.
      exists 0%nat. split; [done|]. intros Hk. exfalso. apply Hk.
      by apply String.eqb_eq.
    + apply loop_accounts in Hrun as (n & Hn & Hp & Hall);
        [|split; [simpl; lia|done]].
      exists n. split; [done|]. intros _ Hno.
      rewrite Hp, (Hall Hno), firstn_all. by rewrite sort_by_name_perm.
Qed.

Lemma every_item_accounted_witness :
  ∃ n, demo_links.*1 ++ (error_name <$> [])
       ≡ₚ (take n (sort_by_name demo_sources)).*1
       ∧ ((get_current_imgbb_key (pool (globals (demo_sys "key-one-0001")))).1 ≠ "" →
          EvCancelled ∉ trace (end_state demo_swapped) →
          demo_links.*1 ++ (error_name <$> []) ≡ₚ demo_sources.*1).
Proof.
  apply (every_item_accounted decode_all demo_host always_ok
           (demo_reply "key-two-0002") demo_sources 7 [true]
           (demo_sys "key-one-0001") (end_state demo_swapped) demo_links []).
  vm_compute. reflexivity.
Defined.

(** ** What can make a job raise *)

Section NoRaise.

Variable normalize : bytes → option bytes.
Variable net : nat → Request → HttpOutcome.
Variable tg_ok : nat → bool.
Variable meanwhile : nat → Globals → Globals.

Hypothesis telegram_works : ∀ t, tg_ok t = true.

Lemma ret_never_raises {A} (a : A) : never_raises (ret a).
Proof. intros s. by eexists _, _. Qed.

Lemma bind_never_raises {A B} (c : M A) (k : A → M B) :
  never_raises c → (∀ a, never_raises (k a)) → never_raises (bind c k).
Proof.
  intros Hc Hk s. unfold bind.
  destruct (Hc s) as (a & s1 & ->). apply Hk.
Qed.

Lemma finally_never_raises {A} (c : M A) cleanup :
  never_raises c → never_raises (finally c cleanup).
Proof.
  intros Hc s. unfold finally. destruct (Hc s) as (a & s1 & ->).
  by eexists _, _.
Qed.

Lemma telegram_never_raises : never_raises (telegram tg_ok meanwhile).
Proof.
  intros s. unfold telegram. rewrite telegram_works. by eexists _, _.
Qed.

Lemma yield_never_raises : never_raises (yield meanwhile).
Proof. intros s. by eexists _, _. Qed.

Lemma modify_never_raises f : never_raises (modify_globals f).
Proof. intros s. by eexists _, _. Qed.

Lemma log_never_raises e : never_raises (log e).
Proof. intros s. by eexists _, _. Qed.

Lemma get_globals_never_raises : never_raises get_globals.
Proof. intros s. by eexists _, _. Qed.

Lemma ignore_never_raises c : never_raises (ignore_errors c).
Proof.
  intros s. unfold ignore_errors. destruct (c s). by eexists _, _.
Qed.

Lemma upload_never_raises image name key retries :
  never_raises (upload_to_imgbb net image name key retries).
Proof. intros s. apply upload_to_imgbb_returns. Qed.

Local Ltac step :=
  lazymatch goal with
  | |- never_raises (bind _ _) => apply bind_never_raises; [|intros ?]
  | |- never_raises (ret _) => apply ret_never_raises
  | |- never_raises (telegram _ _) => apply telegram_never_raises
  | |- never_raises (yield _) => apply yield_never_raises
  | |- never_raises (modify_globals _) => apply modify_never_raises
  | |- never_raises (log _) => apply log_never_raises
  | |- never_raises get_globals => apply get_globals_never_raises
  | |- never_raises (ignore_errors _) => apply ignore_never_raises
  | |- never_raises (upload_to_imgbb _ _ _ _ _) => apply upload_never_raises
  | |- never_raises (finally _ _) => apply finally_never_raises
  end.

Local Ltac steps := repeat step.

Lemma request_never_raises script chat_id :
  never_raises (request_new_key tg_ok meanwhile script chat_id).
Proof.
  induction script as [|w script IH].
  - simpl. unfold set_listener. steps.
  - destruct w; simpl; unfold set_listener; steps.
    repeat case_match; steps; apply IH.
Qed.

Lemma iteration_never_raises image_sources chat_id L inbox :
  (idx L < List.length image_sources)%nat →
  never_raises (iteration normalize net tg_ok meanwhile image_sources chat_id
                  L inbox).
Proof.
  intros Hidx.
  destruct (lookup_lt_is_Some_2 image_sources (idx L) Hidx)
    as [[name payload] Hitem].
  unfold iteration. rewrite Hitem.
  destruct (normalize payload) as [buf|]; [|steps].
  unfold report_progress, suspend_job, job_mark_valid, job_mark_failed.
  steps. repeat case_match; steps; try apply request_never_raises.
  repeat case_match; unfold job_mark_valid; steps.
Qed.

Lemma loop_never_raises fuel image_sources chat_id L inbox s out :
  loop normalize net tg_ok meanwhile fuel image_sources chat_id L inbox s
  = Some out →
  ∃ l e s', out = (Val (l, e), s').
Proof.
  revert L inbox s. induction fuel as [|fuel IH]; intros L inbox s; [done|].
  simpl. case_decide as Hidx.
  - destruct (iteration_never_raises image_sources chat_id L inbox Hidx s)
      as ([L1 inbox1|l e] & s1 & ->).
    + apply IH.
    + intros [= <-]. by eexists _, _, _.
  - intros [= <-]. unfold finish, job_mark_valid.
    assert (never_raises
              ((if (0 <? consecutive_successes L)%nat
                then bind (modify_globals (with_pool (mark_key_as_valid (current_key L))))
                          (λ _, log (EvMarkValid (current_key L)))
                else ret ()) >>> ret (links L, errors L))) as H
      by (case_match; steps).
    destruct (H s) as ([l e] & s' & ->). by eexists _, _, _.
Qed.

End NoRaise.

(** X13: only the Telegram client can make a job raise.  When every call
    of the client succeeds, [process_and_upload_images] returns its two
    lists, whatever the image host answers, whatever the decoder does and
    whatever the other handlers do in between. *)
Theorem job_never_raises (normalize : bytes → option bytes)
  (net : nat → Request → HttpOutcome) (tg_ok : nat → bool)
  (meanwhile : nat → Globals → Globals)
  (sources : list (string * bytes)) (chat_id : Z) (inbox : list bool)
  (s : Sys) :
  (∀ t, tg_ok t = true) →
  ∃ links errors s',
    process_and_upload_images normalize net tg_ok meanwhile sources chat_id
      inbox s
    = Some (Val (links, errors), s').
Proof.
  intros Hok.
  destruct (process_and_upload_images_returns normalize net tg_ok meanwhile
              sources chat_id inbox s) as [out Hout].
  rewrite Hout. revert Hout. unfold process_and_upload_images.
  assert (∀ s0, ∃ s', (telegram tg_ok meanwhile >>> ret ([], [])) s0
                      = (Val (([], []) : JobResult), s')) as Hmsg.
  { intros s0. unfold bind, telegram, ret. rewrite Hok. by eexists. }
  destruct (current_imgbb_keys (pool (globals s))).
  - destruct (Hmsg s) as [s' ->]. intros [= <-]. by eexists _, _, _.
  - destruct (get_current_imgbb_key (pool (globals s))) as [key p].
    destruct (String.eqb key "").
    + destruct (Hmsg (set_pool p s)) as [s' ->]. intros [= <-]. by eexists _, _, _.
    + intros Hloop.
      apply (loop_never_raises normalize net tg_ok meanwhile Hok) in Hloop
        as (links & errors & s' & ->).
      by eexists _, _, _.
Qed.

Lemma job_never_raises_witness :
  ∃ links errors s',
    process_and_upload_images decode_all demo_host always_ok
      (demo_reply "/cancel") demo_sources 7 [true] (demo_sys "key-one-0001")
    = Some (Val (links, errors), s').
Proof.
  apply (job_never_raises decode_all demo_host always_ok (demo_reply "/cancel")
           demo_sources 7 [true] (demo_sys "key-one-0001")).
  intros t. reflexivity.
Defined.

(** ** The path of a Telegraph page *)

Section PathExtraction.

Import PyText.
Local Open Scope string_scope.

Lemma prefix_char (c a : ascii) (s : string) :
  String.prefix (String c "") (String a s) = Ascii.eqb a c.
Proof.
  simpl. destruct (ascii_dec c a) as [->|Hne].
  - rewrite Ascii.eqb_refl. by destruct s.
  - symmetry. apply Ascii.eqb_neq. congruence.
Qed.

Lemma split_once_char (c : ascii) (s : string) :
  match split_once (String c "") s with
  | Some (before, after) =>
      PyStr.has_char c before = false ∧ s = before ++ String c after
  | None => PyStr.has_char c s = false
  end.
Proof.
  induction s as [|a s IH]; [done|].
  cbn [split_once]. rewrite prefix_char. simpl.
  destruct (Ascii.eqb a c) eqn:E.
  - apply Ascii.eqb_eq in E as ->. done.
  - destruct (split_once (String c "") s) as [[before after]|]; simpl.
    + rewrite E. destruct IH as [-> ->]. done.
    + done.
Qed.

Lemma split_once_absent (c : ascii) (s : string) :
  PyStr.has_char c s = false → split_once (String c "") s = None.
Proof.
  intros H. pose proof (split_once_char c s) as Hs.
  destruct (split_once (String c "") s) as [[before after]|]; [|done].
  destruct Hs as [_ ->]. exfalso. revert H. clear.
  induction before as [|a b IH]; simpl.
  - by rewrite Ascii.eqb_refl.
  - destruct (Ascii.eqb a c); [done|]. apply IH.
Qed.

Lemma has_char_app (d : ascii) (s t : string) :
  PyStr.has_char d (s ++ t) = PyStr.has_char d s || PyStr.has_char d t.
Proof.
  induction s as [|a s IH]; simpl; [done|]. rewrite IH. by rewrite orb_assoc.
Qed.

Lemma split_once_before (w s before after : string) :
  split_once w s = Some (before, after) → ∃ t, s = before ++ t.
Proof.
  revert before after. induction s as [|a s IH]; intros before after.
  - cbn [split_once]. destruct (String.prefix w ""); [|done].
    intros [= <- _]. by exists "".
  - cbn [split_once]. destruct (String.prefix w (String a s)).
    + intros [= <- _]. by eexists.
    + destruct (split_once w s) as [[b r]|]; [|done].
      intros [= <- <-]. destruct (IH b r eq_refl) as [t ->].
      by exists t.
Qed.

Lemma before_first_has_char (d : ascii) (w s : string) :
  PyStr.has_char d s = false → PyStr.has_char d (before_first w s) = false.
Proof.
  unfold before_first.
  destruct (split_once w s) as [[before after]|] eqn:E; [|done].
  destruct (split_once_before _ _ _ _ E) as [t ->].
  rewrite has_char_app. by intros [? _]%orb_false_iff.
Qed.

Lemma before_first_free (c : ascii) (s : string) :
  PyStr.has_char c (before_first (String c "") s) = false.
Proof.
  unfold before_first. pose proof (split_once_char c s) as H.
  destruct (split_once (String c "") s) as [[before after]|]; tauto.
Qed.

Lemma lstrip_char_has_char (c d : ascii) (s : string) :
  PyStr.has_char d s = false → PyStr.has_char d (lstrip_char c s) = false.
Proof.
  induction s as [|a s IH]; simpl; [done|].
  intros [Ha Hs]%orb_false_iff.
  destruct (Ascii.eqb a c); [by apply IH|]. simpl. by rewrite Ha, Hs.
Qed.

Lemma rstrip_char_has_char (c d : ascii) (s : string) :
  PyStr.has_char d s = false → PyStr.has_char d (rstrip_char c s) = false.
Proof.
  induction s as [|a s IH]; simpl; [done|].
  intros [Ha Hs]%orb_false_iff. specialize (IH Hs).
  destruct (rstrip_char c s) as [|b r].
  - destruct (Ascii.eqb a c); simpl; [done|]. by rewrite Ha.
  - remember (String b r) as t. simpl. by rewrite Ha, IH.
Qed.

Lemma lstrip_char_head (c : ascii) (s : string) :
  lstrip_char c s = ""
  ∨ ∃ a r, lstrip_char c s = String a r ∧ Ascii.eqb a c = false.
Proof.
  induction s as [|a s IH]; simpl; [by left|].
  destruct (Ascii.eqb a c) eqn:E; [done|]. right. by exists a, s.
Qed.

Lemma rstrip_char_head (c a : ascii) (s : string) :
  Ascii.eqb a c = false → ∃ r, rstrip_char c (String a s) = String a r.
Proof. intros E. simpl. destruct (rstrip_char c s); rewrite ?E; eauto. Qed.

Lemma rstrip_char_last (c : ascii) (s q : string) :
  rstrip_char c s ≠ q ++ String c "".
Proof.
  revert q. induction s as [|a s IH]; intros q; simpl.
  - by destruct q.
  - destruct (rstrip_char c s) as [|b r] eqn:E.
    + destruct (Ascii.eqb a c) eqn:Ha; [by destruct q|].
      destruct q as [|x [|y q]]; simpl; try done.
      intros [= ->]. by rewrite Ascii.eqb_refl in Ha.
    + destruct q as [|x q]; simpl; [done|].
      intros [= -> Hq]. by apply (IH q).
Qed.

End PathExtraction.

Section PathEnds.

Import PyText.
Local Open Scope string_scope.

Lemma substring_last (c : ascii) (p : string) (n : nat) :
  String.length p = S n →
  substring n 1 p = String c "" ↔ ∃ q, p = q ++ String c "".
Proof.
  revert n. induction p as [|a p IH]; intros n Hlen; [done|].
  simpl in Hlen. injection Hlen as Hlen.
  destruct n as [|n].
  - destruct p; [|done]. simpl. split.
    + intros [= ->]. by exists "".
    + intros [[|x [|y q]] H]; simpl in H; by simplify_eq.
  - simpl. rewrite (IH n Hlen). split.
    + intros [q ->]. by exists (String a q).
    + intros [[|x q] H]; simpl in H; injection H as -> ->.
      * by simpl in Hlen.
      * by exists q.
Qed.

Lemma endswith_char (c : ascii) (p : string) :
  PyStr.endswith p (String c "") = true ↔ ∃ q, p = q ++ String c "".
Proof.
  unfold PyStr.endswith. destruct p as [|a p].
  - simpl. split; [done|]. by intros [[|x q] H].
  - change (String.length (String c "")) with 1%nat.
    change (String.length (String a p)) with (S (String.length p)).
    replace (S (String.length p) - 1)%nat with (String.length p) by lia.
    change (1 <=? S (String.length p))%nat with true.
    rewrite andb_true_l, String.eqb_eq.
    by apply substring_last.
Qed.

Lemma startswith_char_iff (c : ascii) (p : string) :
  PyStr.startswith p (String c "") = true ↔ ∃ q, p = String c q.
Proof.
  unfold PyStr.startswith. destruct p as [|a p].
  - split; [done|]. by intros [q ?].
  - rewrite prefix_char. split.
    + intros ->%Ascii.eqb_eq. by eexists.
    + intros [q [= -> _]]. apply Ascii.eqb_refl.
Qed.

Lemma strip_char_ends (c : ascii) (s : string) :
  PyStr.startswith (strip_char c s) (String c "") = false
  ∧ PyStr.endswith (strip_char c s) (String c "") = false.
Proof.
  unfold strip_char. split.
  - apply not_true_is_false. intros [q Hq]%startswith_char_iff.
    destruct (lstrip_char_head c s) as [E|(a & r & E & Ha)];
      rewrite E in Hq; [done|].
    destruct (rstrip_char_head c a r Ha) as [r' Hr]. rewrite Hr in Hq.
    injection Hq as -> _. by rewrite Ascii.eqb_refl in Ha.
  - apply not_true_is_false. intros [q Hq]%endswith_char.
    by apply rstrip_char_last in Hq.
Qed.

Lemma strip_char_has_char (c d : ascii) (s : string) :
  PyStr.has_char d s = false → PyStr.has_char d (strip_char c s) = false.
Proof.
  intros H. by apply rstrip_char_has_char, lstrip_char_has_char.
Qed.

Lemma strip_char_id (c : ascii) (s : string) :
  PyStr.startswith s (String c "") = false →
  PyStr.endswith s (String c "") = false →
  strip_char c s = s.
Proof.
  intros Hs He. unfold strip_char.
  assert (lstrip_char c s = s) as ->.
  { destruct s as [|a s]; [done|]. simpl.
    destruct (Ascii.eqb a c) eqn:E; [|done].
    apply Ascii.eqb_eq in E as ->.
    assert (PyStr.startswith (String c s) (String c "") = true)
      by (apply startswith_char_iff; by eexists).
    congruence. }
  assert (∀ q, s ≠ q ++ String c "") as Hlast.
  { intros q ->.
    assert (PyStr.endswith (q ++ String c "") (String c "") = true)
      by (apply endswith_char; by eexists).
    congruence. }
  clear Hs He. induction s as [|a s IH]; [done|]. simpl.
  destruct s as [|b s].
  - simpl. destruct (Ascii.eqb a c) eqn:E; [|done].
    apply Ascii.eqb_eq in E as ->. by destruct (Hlast "").
  - rewrite IH; [done|]. intros q Hq. apply (Hlast (String a q)).
    simpl. by rewrite Hq.
Qed.

Lemma split_once_scheme (scheme rest : string) :
  PyStr.has_char ":" scheme = false →
  split_once "://" (scheme ++ "://" ++ rest) = Some (scheme, rest).
Proof.
  induction scheme as [|a scheme IH]; intros H.
  - by destruct rest.
  - simpl in H. apply orb_false_iff in H as [Ha Hs].
    change ((String a scheme ++ "://" ++ rest))
      with (String a (scheme ++ "://" ++ rest)).
    cbn [split_once].
    assert (String.prefix "://" (String a (scheme ++ "://" ++ rest)) = false)
      as ->.
    { cbn [String.prefix]. destruct (ascii_dec ":" a) as [<-|]; [|done].
      by rewrite Ascii.eqb_refl in Ha. }
    by rewrite (IH Hs).
Qed.

Lemma split_once_host (c : ascii) (host rest : string) :
  PyStr.has_char c host = false →
  split_once (String c "") (host ++ String c rest) = Some (host, rest).
Proof.
  induction host as [|a host IH]; intros H.
  - change ("" ++ String c rest) with (String c rest).
    cbn [split_once]. rewrite prefix_char, Ascii.eqb_refl. done.
  - simpl in H. apply orb_false_iff in H as [Ha Hs].
    change (String a host ++ String c rest)
      with (String a (host ++ String c rest)).
    cbn [split_once]. rewrite prefix_char, Ha. by rewrite (IH Hs).
Qed.

End PathEnds.

(** X14: the path [extract_telegra_path_from_url] returns, whatever it is
    given, holds no question mark and no hash sign and neither starts nor
    ends with a slash; for a value that is not a string and for a string
    without a slash after the scheme it is empty. *)
Theorem extracted_path_shape (url : json) :
  let path := extract_telegra_path_from_url url in
  PyStr.has_char "?" path = false
  ∧ PyStr.has_char "#" path = false
  ∧ PyStr.startswith path "/" = false
  ∧ PyStr.endswith path "/" = false
  ∧ (∀ u, url = JStr u →
       PyStr.has_char "/" (PyText.after_first "://" u) = false → path = "")
  ∧ ((∀ u, url ≠ JStr u) → path = "").
Proof.
  unfold extract_telegra_path_from_url.
  destruct url as [| | |u| |]; try done.
  pose proof (split_once_char "/" (PyText.after_first "://" u)) as Hs.
  destruct (PyText.split_once "/" (PyText.after_first "://" u))
    as [[host path]|] eqn:E; [|done].
  split_and!.
  - apply strip_char_has_char, before_first_has_char, before_first_free.
  - apply strip_char_has_char, before_first_free.
  - apply strip_char_ends.
  - apply strip_char_ends.
  - intros ? [= <-] Hno. destruct Hs as [_ Hs]. rewrite Hs in Hno.
    rewrite has_char_app in Hno. simpl in Hno.
    by rewrite orb_true_r in Hno.
  - intros Hno. by destruct (Hno u).
Qed.

(** X15: round trip.  From the address made of a scheme without a colon, a
    host without a slash and a path that holds no question mark and no
    hash sign and neither starts nor ends with a slash,
    [extract_telegra_path_from_url] gives back that path. *)
Theorem extracted_path_round_trip (scheme host path : string) :
  PyStr.has_char ":" scheme = false →
  PyStr.has_char "/" host = false →
  PyStr.has_char "?" path = false →
  PyStr.has_char "#" path = false →
  PyStr.startswith path "/" = false →
  PyStr.endswith path "/" = false →
  extract_telegra_path_from_url (JStr (scheme ++ "://" ++ host ++ "/" ++ path))
  = path.
Proof.
  intros Hscheme Hhost Hq Hh Hs He.
  unfold extract_telegra_path_from_url, PyText.after_first.
  rewrite (split_once_scheme scheme _ Hscheme).
  change (host ++ "/" ++ path)%string with (host ++ String "/" path)%string.
  rewrite (split_once_host "/" host path Hhost).
  unfold PyText.before_first.
  rewrite (split_once_absent "?" path Hq), (split_once_absent "#" path Hh).
  by apply strip_char_id.
Qed.

Lemma extracted_path_round_trip_witness :
  extract_telegra_path_from_url
    (JStr ("https" ++ "://" ++ "telegra.ph" ++ "/" ++ "Galeria-de-imagenes-11-04"))
  = "Galeria-de-imagenes-11-04".
Proof.
  apply extracted_path_round_trip; vm_compute; reflexivity.
Defined.

(** ** The content of a page *)

Section Pages.

Lemma node_images_image_nodes links : node_images (image_nodes links) = links.
Proof.
  induction links as [|u links IH]; [done|].
  change (node_images (image_nodes (u :: links)))
    with (u :: node_images (image_nodes links)).
  by rewrite IH.
Qed.

End Pages.


(** ** Publishing *)

Section Publishing.

Variable TELEGRAPH_TOKEN : string.
Variable telegraph : nat → PageForm → HttpOutcome.
Variable show : HttpOutcome → string.

Local Abbreviation answer := (page_answer show).
Local Abbreviation create :=
  (create_telegraph_post TELEGRAPH_TOKEN telegraph show).
Local Abbreviation rename :=
  (edit_telegraph_title_only TELEGRAPH_TOKEN telegraph show).
Local Abbreviation publication := (publish TELEGRAPH_TOKEN telegraph show).

Lemma message_not_http (c : ascii) (p d : string) :
  Ascii.eqb c "h" = false → is_http (JStr (String c p ++ d)) = false.
Proof.
  intros Hc. unfold is_http, PyStr.startswith.
  change (String c p ++ d)%string with (String c (p ++ d)).
  cbn [String.prefix]. destruct (ascii_dec "h" c) as [<-|]; [|done].
  by rewrite Ascii.eqb_refl in Hc.
Qed.

(** An answer that is an http address is the address Telegraph gave. *)
Lemma page_answer_http (c1 c2 : ascii) (refused unreachable : string)
  (o : HttpOutcome) :
  Ascii.eqb c1 "h" = false → Ascii.eqb c2 "h" = false →
  is_http (answer (String c1 refused) (String c2 unreachable) o) = true →
  answers_with o (answer (String c1 refused) (String c2 unreachable) o).
Proof.
  intros H1 H2. unfold page_answer.
  pose proof (message_not_http c1 refused (show o) H1) as Hr.
  pose proof (message_not_http c2 unreachable (show o) H2) as Hu.
  destruct o as [status_code body| |]; [|intros; congruence..].
  destruct (raises_for_status status_code) eqn:Hst; [intros; congruence|].
  destruct body as [[| | | | |fields]|]; try (intros; congruence).
  destruct (PyJson.truthy _) eqn:Hok; [|intros; congruence].
  destruct (PyJson.dict_get "result" fields) as [result|] eqn:Hres;
    [|intros; congruence].
  destruct (PyJson.subscript "url" result) as [v|] eqn:Hurl;
    cbn [from_option id]; [|intros; congruence].
  intros _. by exists status_code, fields, result.
Qed.

Lemma create_cases title links s :
  ∃ v s', create title links s = (Val v, s')
    ∧ globals s' = globals s ∧ trace s' = trace s
    ∧ (clock s ≤ clock s' ≤ clock s + 1)%nat
    ∧ (is_http v = true →
         clock s' = S (clock s)
         ∧ answers_with
             (telegraph (clock s)
                (mkPage CreatePage TELEGRAPH_TOKEN None title
                        (image_nodes links) ImgBot)) v).
Proof.
  unfold create_telegraph_post.
  destruct (String.eqb TELEGRAPH_TOKEN "").
  - eexists _, _. split; [done|]. split_and!; try done; try lia.
  - unfold bind, telegraph_post, ret. eexists _, _. split; [done|].
    simpl. split_and!; try done; try lia.
    intros H. split; [done|]. by apply page_answer_http in H.
Qed.

Lemma edit_cases path title links s :
  ∃ v s', rename path title links s = (Val v, s')
    ∧ globals s' = globals s ∧ trace s' = trace s
    ∧ (clock s ≤ clock s' ≤ clock s + 1)%nat
    ∧ (is_http v = true →
         path ≠ ""
         ∧ answers_with
             (telegraph (clock s)
                (mkPage EditPage TELEGRAPH_TOKEN (Some path) title
                        (image_nodes links) Gallery)) v).
Proof.
  unfold edit_telegraph_title_only.
  destruct (String.eqb TELEGRAPH_TOKEN "").
  - eexists _, _. split; [done|]. split_and!; try done; try lia.
  - destruct (String.eqb path "") eqn:Hpath.
    + eexists _, _. split; [done|]. split_and!; try done; try lia.
    + unfold bind, telegraph_post, ret. eexists _, _. split; [done|].
      simpl. split_and!; try done; try lia.
      intros H. split; [by apply String.eqb_neq|].
      by apply page_answer_http in H.
Qed.

Lemma publish_cases file_path img_urls s :
  ∃ final path s',
    publication file_path img_urls s = (Val (final, path), s')
    ∧ globals s' = globals s ∧ trace s' = trace s
    ∧ (clock s ≤ clock s' ≤ clock s + 2)%nat
    ∧ (is_http final = true →
         ∃ created,
           answers_with
             (telegraph (clock s)
                (mkPage CreatePage TELEGRAPH_TOKEN None gallery_title
                        (image_nodes img_urls) ImgBot)) created
           ∧ is_http created = true
           ∧ path = extract_telegra_path_from_url created
           ∧ (final = created
              ∨ (path ≠ ""
                 ∧ answers_with
                     (telegraph (S (clock s))
                        (mkPage EditPage TELEGRAPH_TOKEN (Some path)
                                (PyPath.stem file_path)
                                (image_nodes img_urls) Gallery)) final)))
    ∧ (is_http final = false →
         path = "" ∧ (clock s' ≤ clock s + 1)%nat).
Proof.
  unfold publish, bind.
  destruct (create_cases gallery_title img_urls s)
    as (created & s1 & -> & Hg1 & Ht1 & Hc1 & Hcreated).
  destruct (is_http created) eqn:Hhttp.
  - destruct (Hcreated eq_refl) as [Hclock Hanswer].
    destruct (edit_cases (extract_telegra_path_from_url created)
                (PyPath.stem file_path) img_urls s1)
      as (edited & s2 & -> & Hg2 & Ht2 & Hc2 & Hedited).
    destruct (is_http edited) eqn:Hhttp2; unfold ret;
      eexists _, _, _; (split; [done|]);
      (split; [congruence|]); (split; [congruence|]); (split; [lia|]).
    + split; [|congruence]. intros _. exists created.
      split; [done|]. split; [done|]. split; [done|]. right.
      destruct (Hedited eq_refl) as [Hpath Hans]. rewrite Hclock in Hans.
      done.
    + split; [|congruence]. intros _. exists created. eauto.
  - unfold ret. eexists _, _, _. split; [done|].
    split; [done|]. split; [done|]. split; [lia|].
    split; [congruence|]. intros _. split; [done|lia].
Qed.

End Publishing.


(** ** The error report *)

Section Chunks.

Context {A : Type}.

Lemma chunks_concat (m : nat) (errs : list A) :
  (List.length errs ≤ m * 5)%nat →
  concat (List.map (λ i, take 5 (drop i errs))
                   (List.map (λ k, k * 5)%nat (seq 0 m))) = errs.
Proof.
  revert errs. induction m as [|m IH]; intros errs Hlen.
  - destruct errs; [done|simpl in Hlen; lia].
  - cbn [seq]. rewrite <- seq_shift. cbn [List.map concat].
    rewrite !List.map_map. change (0 * 5)%nat with 0%nat. rewrite drop_0.
    transitivity (take 5 errs ++ drop 5 errs); [|apply take_drop].
    f_equal.
    rewrite <- (IH (drop 5 errs)) by (rewrite length_drop; lia).
    rewrite List.map_map. f_equal. apply List.map_ext. intros k.
    rewrite drop_drop. do 2 f_equal; lia.
Qed.

Lemma range_step_elem (n i : nat) :
  i ∈ range_step n 5 → (i < n)%nat ∧ ∃ k, i = (k * 5)%nat.
Proof.
  unfold range_step. intros Hi.
  apply list_elem_of_In, in_map_iff in Hi as (k & <- & Hk).
  apply in_seq in Hk. split; [|by exists k].
  pose proof (Nat.div_mod_eq (n + 5 - 1) 5) as Hd.
  pose proof (Nat.mod_upper_bound (n + 5 - 1) 5 ltac:(lia)) as Hm.
  lia.
Qed.

End Chunks.

(** X18: the error report of [handle_container].  The chunks, one after
    the other, are the list of errors: none is lost, repeated or moved.
    No chunk is empty, none has more than five errors, and every chunk but
    the last has exactly five. *)
Theorem error_chunks_cover {A : Type} (errs : list A) :
  concat (error_chunks errs) = errs
  ∧ Forall (λ chunk, 1 ≤ List.length chunk ≤ 5)%nat (error_chunks errs)
  ∧ (∀ i chunk, error_chunks errs !! i = Some chunk →
       (S i < List.length (error_chunks errs))%nat → List.length chunk = 5%nat).
Proof.
  pose proof (Nat.div_mod_eq (List.length errs + 5 - 1) 5) as Hd.
  pose proof (Nat.mod_upper_bound (List.length errs + 5 - 1) 5 ltac:(lia)) as Hm.
  split_and!.
  - unfold error_chunks, range_step. apply chunks_concat. lia.
  - unfold error_chunks. apply Forall_forall. intros chunk Hc.
    apply list_elem_of_In, in_map_iff in Hc as (i & <- & Hi).
    apply list_elem_of_In, range_step_elem in Hi as [Hi _].
    rewrite length_take, length_drop. lia.
  - unfold error_chunks, range_step. intros i chunk Hi Hlast.
    rewrite !length_map, length_seq in Hlast.
    rewrite !list_lookup_fmap in Hi.
    destruct (seq 0 _ !! i) as [k|] eqn:Hk; [|done].
    apply lookup_seq in Hk as [-> _]. simpl in Hi. injection Hi as <-.
    rewrite length_take, length_drop. lia.
Qed.

(** ** Resuming a saved job *)

Section ResumedRuns.

Variable normalize : bytes → option bytes.
Variable net : nat → Request → HttpOutcome.
Variable tg_ok : nat → bool.
Variable meanwhile : nat → Globals → Globals.

Local Abbreviation turn := (resume_iteration normalize net tg_ok meanwhile).
Local Abbreviation run := (resume_loop normalize net tg_ok meanwhile).
Local Abbreviation resume :=
  (resume_after_key_update normalize net tg_ok meanwhile).

Lemma resume_progress_returns s :
  ∃ s', resume_progress tg_ok meanwhile s = (Val tt, s').
Proof.
  unfold resume_progress, bind, ignore_errors, telegram, yield. by eexists.
Qed.

(** A turn of the resumed loop goes one of the ways a turn of the first
    loop goes. *)
Lemma resume_iteration_turn image_sources chat_id L inbox s res s' :
  (idx L < List.length image_sources)%nat →
  turn image_sources chat_id L inbox s = (res, s') →
  ∃ name payload t,
    image_sources !! idx L = Some (name, payload)
    ∧ res = turn_result L inbox t
    ∧ match t with
      | TSkipped n | TStored n _ | TRefused n _ => n = name
      | TSwapped _ inbox' => (List.length inbox' < List.length inbox)%nat
      | TCancelled | TEscaped => True
      end.
Proof.
  intros Hidx Hrun.
  destruct (lookup_lt_is_Some_2 image_sources (idx L) Hidx)
    as [[name payload] Hitem].
  exists name, payload.
  unfold resume_iteration in Hrun. rewrite Hitem in Hrun.
  destruct (normalize payload) as [buf|].
  - destruct (upload_to_imgbb_returns net buf name (current_key L) 3 s)
      as (r & s1 & Hup).
    unfold bind at 1 in Hrun. rewrite Hup in Hrun.
    unfold bind at 1, log at 1 in Hrun.
    destruct (success r) eqn:Hsucc; [|destruct (key_valid r) eqn:Hkv].
    + exists (TStored name (default JNull (url r))).
      unfold bind at 1 in Hrun.
      match type of Hrun with
      | context [(if ?b then job_mark_valid ?k else ret ()) ?st] =>
          assert (∃ s2, (if b then job_mark_valid k else ret ()) st
                        = (Val (), s2)) as [s2 Hmark]
            by (destruct b; by eexists)
      end.
      rewrite Hmark in Hrun. unfold bind at 1 in Hrun.
      destruct (resume_progress_returns s2) as [s3 Hrep].
      rewrite Hrep in Hrun. by injection Hrun as <- <-.
    + exists (TRefused name (default UnknownError (error r))).
      simpl in Hrun. unfold bind at 1 in Hrun.
      match type of Hrun with
      | context [resume_progress tg_ok meanwhile ?st] =>
          destruct (resume_progress_returns st) as [s3 Hrep]
      end.
      rewrite Hrep in Hrun. by injection Hrun as <- <-.
    + simpl in Hrun.
      unfold bind at 1, suspend_job, bind at 1, job_mark_failed, bind at 1,
             modify_globals at 1, log at 1, modify_globals at 1 in Hrun.
      unfold bind at 1 in Hrun.
      match type of Hrun with
      | context [request_new_key tg_ok meanwhile inbox chat_id ?st] =>
          destruct (request_new_key tg_ok meanwhile inbox chat_id st)
            as [[[[new_key|] inbox']|] s3] eqn:Hreq
      end.
      * exists (TSwapped new_key inbox').
        apply request_new_key_consumes in Hreq.
        unfold bind, modify_globals, job_mark_valid, bind, modify_globals,
               log, ret in Hrun.
        injection Hrun as <- <-. simpl.
        replace (idx L + 1 - 1)%nat with (idx L) by lia. done.
      * exists TCancelled. by injection Hrun as <- <-.
      * exists TEscaped. by injection Hrun as <- <-.
  - exists (TSkipped name). by injection Hrun as <- <-.
Qed.

Lemma resume_loop_enough image_sources chat_id fuel L inbox s :
  (List.length image_sources - idx L + List.length inbox < fuel)%nat →
  ∃ out, run fuel image_sources chat_id L inbox s = Some out.
Proof.
  revert L inbox s. induction fuel as [|fuel IH]; intros L inbox s Hm; [lia|].
  simpl. case_decide as Hidx; [|by eexists].
  destruct (turn image_sources chat_id L inbox s)
    as [[[L1 inbox1|l e]|] s1] eqn:Hit; [|by eexists..].
  apply IH.
  destruct (resume_iteration_turn _ _ _ _ _ _ _ Hidx Hit)
    as (name & payload & t & _ & Hres & Hfit).
  destruct t; simpl in Hres; simplify_eq; simpl; lia.
Qed.

Lemma resume_loop_results image_sources chat_id fuel L inbox s l e s' :
  run fuel image_sources chat_id L inbox s = Some (Val (l, e), s') →
  (links L `prefix_of` l ∧ errors L `prefix_of` e)
  ∧ (accounted image_sources L →
     ∃ n, (idx L ≤ n ≤ List.length image_sources)%nat
          ∧ l.*1 ++ (error_name <$> e) ≡ₚ (take n image_sources).*1).
Proof.
  revert L inbox s. induction fuel as [|fuel IH]; intros L inbox s; [done|].
  simpl. case_decide as Hidx.
  - destruct (turn image_sources chat_id L inbox s)
      as [[[L1 inbox1|l1 e1]|] s1] eqn:Hit; [| |done].
    + intros Hloop. apply IH in Hloop as [[Hl He] Hacc].
      destruct (resume_iteration_turn _ _ _ _ _ _ _ Hidx Hit)
        as (name & payload & t & Hitem & Hres & Hfit).
      assert (links L `prefix_of` links L1 ∧ errors L `prefix_of` errors L1
              ∧ (idx L ≤ idx L1)%nat) as (Hl1 & He1 & Hi1).
      { destruct t; simpl in Hres; simplify_eq; simpl;
          split_and!; try done; try lia; by apply prefix_app_r. }
      split; [split; by etrans|].
      intros HL.
      destruct Hacc as (n & Hn & Hp).
      { apply (turn_accounts image_sources L inbox t name payload L1 inbox1);
          try done.
        destruct t; done. }
      exists n. split; [lia|done].
    + intros [= -> -> ->].
      destruct (resume_iteration_turn _ _ _ _ _ _ _ Hidx Hit)
        as (name & payload & t & _ & Hres & _).
      destruct t; simpl in Hres; simplify_eq.
      split; [done|]. intros [Hle Hp]. exists (idx L). split; [lia|done].
  - unfold finish, bind, job_mark_valid, bind, modify_globals, log, ret.
    intros Hfin.
    assert (l = links L ∧ e = errors L) as [-> ->]
      by (destruct (0 <? _)%nat; simpl in Hfin; by simplify_eq).
    split; [done|]. intros [Hle Hp]. exists (idx L). split; [lia|done].
Qed.

Lemma resume_cases chat_id inbox s state :
  pending_key_requests (globals s) !! chat_id = Some state →
  ∃ res s',
    resume chat_id inbox s = Some (res, s')
    ∧ ∀ r, res = Val r →
        ∃ l e, r = Some (l, e)
          ∧ pending_processed_links state `prefix_of` l
          ∧ pending_errors state `prefix_of` e
          ∧ ((pending_current_index state
              ≤ List.length (pending_image_sources state))%nat →
             (pending_processed_links state).*1
               ++ (error_name <$> pending_errors state)
             ≡ₚ (take (pending_current_index state)
                      (pending_image_sources state)).*1 →
             ∃ n, (pending_current_index state ≤ n
                   ≤ List.length (pending_image_sources state))%nat
                  ∧ l.*1 ++ (error_name <$> e)
                    ≡ₚ (take n (pending_image_sources state)).*1).
Proof.
  intros Hstate. unfold resume_after_key_update. rewrite Hstate.
  set (s0 := mkSys (with_pending (delete chat_id) (globals s))
                   (clock s) (trace s)).
  assert (∀ st, ∃ res s',
            (telegram tg_ok meanwhile >>>
             ret (Some (pending_processed_links state, pending_errors state)))
              st = (res, s')
            ∧ ∀ r, res = Val r →
                r = Some (pending_processed_links state, pending_errors state))
    as Hstop.
  { intros st. unfold bind, telegram, ret.
    destruct (tg_ok (clock st)); eexists _, _; (split; [done|]);
      by intros r [= <-]. }
  assert (∀ res : Res (option JobResult),
            (∀ r, res = Val r →
               r = Some (pending_processed_links state, pending_errors state)) →
            ∀ r : option JobResult, res = Val r →
              ∃ l e, r = Some (l, e)
                ∧ pending_processed_links state `prefix_of` l
                ∧ pending_errors state `prefix_of` e
                ∧ ((pending_current_index state
                    ≤ List.length (pending_image_sources state))%nat →
                   (pending_processed_links state).*1
                     ++ (error_name <$> pending_errors state)
                   ≡ₚ (take (pending_current_index state)
                            (pending_image_sources state)).*1 →
                   ∃ n, (pending_current_index state ≤ n
                         ≤ List.length (pending_image_sources state))%nat
                        ∧ l.*1 ++ (error_name <$> e)
                          ≡ₚ (take n (pending_image_sources state)).*1))
    as Hsaved.
  { intros res Hres r Hr. rewrite (Hres r Hr).
    eexists _, _. split; [done|]. split; [done|]. split; [done|].
    intros Hle Hp. exists (pending_current_index state). split; [lia|done]. }
  destruct (current_imgbb_keys (pool (globals s0))) as [|k0 ks].
  - destruct (Hstop s0) as (res & s' & -> & Hres). eexists _, _.
    split; [done|]. by eapply Hsaved.
  - destruct (get_current_imgbb_key (pool (globals s0))) as [key p].
    destruct (String.eqb key "").
    + destruct (Hstop (set_pool p s0)) as (res & s' & -> & Hres).
      eexists _, _. split; [done|]. by eapply Hsaved.
    + destruct (telegram tg_ok meanwhile (set_pool p s0)) as [[[]|] s1];
        [|by eexists _, _].
      destruct (resume_loop_enough (pending_image_sources state) chat_id
                  (S (List.length (pending_image_sources state)
                      + List.length inbox))
                  (mkLoop (pending_current_index state)
                          (pending_processed_links state)
                          (pending_errors state) 0 key) inbox s1)
        as [[[[l e]|] s2] Hloop]; [simpl; lia| |];
        rewrite Hloop; eexists _, _; (split; [done|]); [|done].
      intros r [= <-].
      apply resume_loop_results in Hloop as [[Hl He] Hacc].
      exists l, e. split; [done|]. split; [done|]. split; [done|].
      intros Hle Hp. apply Hacc. by split.
Qed.

End ResumedRuns.

(** X19: [resume_after_key_update] always returns or raises; it returns
    the pair of [None]s exactly when no job is saved for the chat, and
    then changes nothing.  Otherwise whatever it returns starts with what
    the saved job had gathered: no success and no error recorded before
    the interruption is dropped or reordered.  And when the saved lists
    speak of each item before the saved index exactly once, the lists
    returned speak of each item before some later index exactly once: the
    item that was refused is not skipped and none is uploaded twice. *)
Theorem resume_keeps_saved_results (normalize : bytes → option bytes)
  (net : nat → Request → HttpOutcome) (tg_ok : nat → bool)
  (meanwhile : nat → Globals → Globals) (chat_id : Z) (inbox : list bool)
  (s : Sys) :
  ∃ res s',
    resume_after_key_update normalize net tg_ok meanwhile chat_id inbox s
    = Some (res, s')
    ∧ (pending_key_requests (globals s) !! chat_id = None →
       res = Val None ∧ s' = s)
    ∧ ∀ state, pending_key_requests (globals s) !! chat_id = Some state →
        ∀ r, res = Val r →
          ∃ l e, r = Some (l, e)
            ∧ pending_processed_links state `prefix_of` l
            ∧ pending_errors state `prefix_of` e
            ∧ ((pending_current_index state
                ≤ List.length (pending_image_sources state))%nat →
               (pending_processed_links state).*1
                 ++ (error_name <$> pending_errors state)
               ≡ₚ (take (pending_current_index state)
                        (pending_image_sources state)).*1 →
               ∃ n, (pending_current_index state ≤ n
                     ≤ List.length (pending_image_sources state))%nat
                    ∧ l.*1 ++ (error_name <$> e)
                      ≡ₚ (take n (pending_image_sources state)).*1).
Proof.
  destruct (pending_key_requests (globals s) !! chat_id) as [state|] eqn:Hst.
  - destruct (resume_cases normalize net tg_ok meanwhile chat_id inbox s state Hst)
      as (res & s' & Hrun & Hres).
    exists res, s'. split; [done|]. split; [done|].
    by intros ? [= <-].
  - exists (Val None), s. unfold resume_after_key_update. rewrite Hst.
    done.
Qed.

(** ** When a key is marked as failed *)

Section Demotion.

Variable normalize : bytes → option bytes.
Variable net : nat → Request → HttpOutcome.
Variable tg_ok : nat → bool.
Variable meanwhile : nat → Globals → Globals.
Variable image_sources : list (string * bytes).
Variable chat_id : Z.

Lemma failure_justified_app tr more :
  failure_justified tr → failure_justified more →
  failure_justified (tr ++ more).
Proof.
  intros Htr Hmore i key Hi.
  destruct (decide (i < List.length tr)%nat) as [Hlt|Hge].
  - rewrite lookup_app_l in Hi by done.
    destruct (Htr i key Hi) as (j & -> & Hj). exists j. split; [done|].
    by apply lookup_app_l_Some.
  - rewrite lookup_app_r in Hi by lia.
    destruct (Hmore _ key Hi) as (j & Hij & Hj).
    exists (List.length tr + j)%nat. split; [lia|].
    rewrite lookup_app_r by lia.
    by replace (List.length tr + j - List.length tr)%nat with j by lia.
Qed.

Lemma turn_events_justified L t : failure_justified (turn_events L t).
Proof.
  intros i key Hi.
  unfold turn_events in Hi.
  destruct t; try destruct (3 <=? consecutive_successes L + 1)%nat;
    destruct i as [|[|[|[|i]]]]; cbn in Hi; try discriminate Hi;
    injection Hi as <-; by exists 0%nat.
Qed.

Lemma loop_failures fuel L inbox s res s' :
  failure_justified (trace s) →
  loop normalize net tg_ok meanwhile fuel image_sources chat_id L inbox s
  = Some (res, s') →
  failure_justified (trace s').
Proof.
  revert L inbox s. induction fuel as [|fuel IH]; intros L inbox s Htr;
    [done|].
  simpl. case_decide as Hidx.
  - destruct (iteration normalize net tg_ok meanwhile image_sources chat_id
                L inbox s) as [step s1] eqn:Hit.
    destruct (iteration_turn _ _ _ _ _ _ _ _ _ _ _ Hidx Hit)
      as (name & payload & t & _ & -> & Htr1 & _).
    assert (failure_justified (trace s1)) as H1.
    { rewrite Htr1. apply failure_justified_app; [done|].
      apply turn_events_justified. }
    destruct (turn_result L inbox t) as [[L1 inbox1|l e]|].
    + by apply IH.
    + by intros [= _ <-].
    + by intros [= _ <-].
  - unfold finish, bind, job_mark_valid, bind, modify_globals, log, ret.
    destruct (0 <? consecutive_successes L)%nat; simpl;
      intros [= _ <-]; simpl; [|done].
    apply failure_justified_app; [done|].
    intros [|i] key Hi; simpl in Hi; by simplify_eq.
Qed.

End Demotion.

(** X20: a job marks a key as failed only right after an upload with that
    very key has failed: in the log of a job every marking of a key as
    failed is immediately preceded by the failed upload with it. *)
Theorem failures_follow_refusals (normalize : bytes → option bytes)
  (net : nat → Request → HttpOutcome) (tg_ok : nat → bool)
  (meanwhile : nat → Globals → Globals)
  (sources : list (string * bytes)) (chat_id : Z) (inbox : list bool)
  (s s' : Sys) (res : Res JobResult) :
  failure_justified (trace s) →
  process_and_upload_images normalize net tg_ok meanwhile sources chat_id inbox s
  = Some (res, s') →
  failure_justified (trace s').
Proof.
  intros Htr Hrun. unfold process_and_upload_images in Hrun.
  destruct (current_imgbb_keys (pool (globals s))).
  - unfold bind, telegram, ret in Hrun.
    by destruct (tg_ok (clock s)); injection Hrun as <- <-.
  - destruct (get_current_imgbb_key (pool (globals s))) as [key p].
    destruct (String.eqb key "").
    + unfold bind, telegram, ret in Hrun. simpl in Hrun.
      by destruct (tg_ok (clock s)); injection Hrun as <- <-.
    + by eapply loop_failures; [|exact Hrun].
Qed.

Lemma failures_follow_refusals_witness :
  failure_justified (trace (end_state demo_swapped)).
Proof.
  apply (failures_follow_refusals decode_all demo_host always_ok
           (demo_reply "key-two-0002") demo_sources 7 [true]
           (demo_sys "key-one-0001") (end_state demo_swapped)
           (end_result demo_swapped)).
  - intros i key Hi. by destruct i.
  - vm_compute. reflexivity.
Defined.

(** ** Adding a key *)

Section AddingKeys.

Lemma filter_ext_elem {A} (P Q : A → Prop) `{!∀ x, Decision (P x)}
  `{!∀ x, Decision (Q x)} (l : list A) :
  (∀ x, x ∈ l → P x ↔ Q x) → filter P l = filter Q l.
Proof.
  induction l as [|x l IH]; intros Hext; [done|].
  rewrite !filter_cons.
  assert (filter P l = filter Q l) as ->
    by (apply IH; intros y Hy; apply Hext; by right).
  pose proof (Hext x ltac:(left)) as Hx.
  repeat case_decide; tauto.
Qed.

Lemma selects_first_available (p : Pool) (c : string) (cs : list string) :
  filter (λ key, key ∈ valid_keys p ∧ key ∉ failed_keys p)
         (current_imgbb_keys p) = c :: cs →
  (get_current_imgbb_key p).1 = c.
Proof.
  intros F. unfold get_current_imgbb_key.
  destruct (current_imgbb_keys p) as [|k0 ks] eqn:E; [done|].
  by rewrite F.
Qed.

End AddingKeys.

(** X21: adding a key (the command [/addkey], the reply to a key request)
    appends it and marks it valid and not failed, so that the pool then
    selects a key that is valid and not failed.  The pool selects the
    first such key of its list: when it had one before, and the new key is
    not a copy of a key of the list, the selection does not change. *)
Theorem added_key_usable (new_key : string) (p : Pool) :
  let p' := add_key new_key p in
  current_imgbb_keys p' = current_imgbb_keys p ++ [new_key]
  ∧ new_key ∈ valid_keys p' ∧ (new_key ∉ failed_keys p')
  ∧ (get_current_imgbb_key p').1 ∈ current_imgbb_keys p'
  ∧ (get_current_imgbb_key p').1 ∈ valid_keys p'
  ∧ ((get_current_imgbb_key p').1 ∉ failed_keys p')
  ∧ (∀ key, key ∈ current_imgbb_keys p → key ∈ valid_keys p →
       key ∉ failed_keys p → new_key ∉ current_imgbb_keys p →
       (get_current_imgbb_key p').1 = (get_current_imgbb_key p).1).
Proof.
  simpl.
  assert (current_imgbb_keys (add_key new_key p)
          = current_imgbb_keys p ++ [new_key]) as Hkeys by done.
  assert (new_key ∈ valid_keys (add_key new_key p)) as Hv
    by (unfold add_key, mark_key_as_valid; simpl; set_solver).
  assert (new_key ∉ failed_keys (add_key new_key p)) as Hf
    by (unfold add_key, mark_key_as_valid; simpl; set_solver).
  destruct (get_current_prefers_valid (add_key new_key p) new_key)
    as (Hc1 & Hc2 & Hc3); [rewrite Hkeys; set_solver|done|done|].
  split_and!; try done.
  intros key Hin Hvalid Hnot Hnew.
  assert (filter (λ k, k ∈ valid_keys (add_key new_key p)
                       ∧ k ∉ failed_keys (add_key new_key p))
                 (current_imgbb_keys p)
          = filter (λ k, k ∈ valid_keys p ∧ k ∉ failed_keys p)
                   (current_imgbb_keys p)) as Hsame.
  { apply filter_ext_elem. intros k Hk.
    assert (k ≠ new_key) by (by intros ->).
    unfold add_key, mark_key_as_valid. simpl. set_solver. }
  assert (key ∈ filter (λ k, k ∈ valid_keys p ∧ k ∉ failed_keys p)
                       (current_imgbb_keys p)) as Hfirst
    by (by apply list_elem_of_filter).
  destruct (filter (λ k, k ∈ valid_keys p ∧ k ∉ failed_keys p)
              (current_imgbb_keys p)) as [|c cs] eqn:F;
    [by apply elem_of_nil in Hfirst|].
  rewrite (selects_first_available p c cs F).
  apply (selects_first_available _ c
           (cs ++ filter (λ k, k ∈ valid_keys (add_key new_key p)
                               ∧ k ∉ failed_keys (add_key new_key p))
                         [new_key])).
  by rewrite Hkeys, filter_app, Hsame.
Qed.

(** ** The name an image is uploaded under *)

Section UploadName.

Lemma substring_prefix_length (m : nat) (s : string) :
  (String.length (String.substring 0 m s) ≤ m)%nat.
Proof.
  revert s. induction m as [|m IH]; intros [|a s]; simpl; try lia.
  specialize (IH s). lia.
Qed.

Lemma substring_prefix_has_char (c : ascii) (m : nat) (s : string) :
  PyStr.has_char c s = false →
  PyStr.has_char c (String.substring 0 m s) = false.
Proof.
  revert s. induction m as [|m IH]; intros [|a s]; simpl; try done.
  intros [Ha Hs]%orb_false_iff. by rewrite Ha, (IH s Hs).
Qed.

Lemma last_elem {A} (l : list A) (d : A) : List.last l d = d ∨ List.last l d ∈ l.
Proof.
  induction l as [|x l IH]; [by left|].
  destruct l as [|y l]; [right; left|].
  destruct IH as [IH|IH]; [left|right; right]; done.
Qed.

Lemma final_name_no_slash (name : string) :
  PyStr.has_char "/" (PyPath.final_name name) = false.
Proof.
  unfold PyPath.final_name.
  destruct (last_elem (PyPath.components name) "") as [->|Hin]; [done|].
  unfold PyPath.components in Hin.
  apply list_elem_of_In, filter_In in Hin as [Hin _].
  by apply list_elem_of_In, split_field_free in Hin.
Qed.

Lemma stem_no_slash (name : string) :
  PyStr.has_char "/" (PyPath.stem name) = false.
Proof.
  unfold PyPath.stem. pose proof (final_name_no_slash name) as H.
  destruct (PyPath.rfind_dot _) as [i|]; [|done].
  destruct (_ && _); [|done]. by apply substring_prefix_has_char.
Qed.

End UploadName.

(** X22: the form [upload_to_imgbb] posts carries the key it was given and
    the image, and a name exactly when it was given a non-empty one; the
    name it sends has at most a hundred characters and no slash: the
    directories of the archive never reach the image host. *)
Theorem upload_name_is_bare (image_buffer : bytes) (name api_key : string) :
  req_key (upload_form image_buffer name api_key) = api_key
  ∧ req_image (upload_form image_buffer name api_key) = image_buffer
  ∧ match req_name (upload_form image_buffer name api_key) with
    | Some sent =>
        name ≠ ""
        ∧ (String.length sent ≤ 100)%nat
        ∧ PyStr.has_char "/" sent = false
    | None => name = ""
    end.
Proof.
  unfold upload_form. simpl. split; [done|]. split; [done|].
  destruct (String.eqb name "") eqn:E.
  - by apply String.eqb_eq.
  - split; [by apply String.eqb_neq|]. split.
    + apply substring_prefix_length.
    + apply substring_prefix_has_char, stem_no_slash.
Qed.

(** ** The order of the gallery *)

Section Gallery.

Variable normalize : bytes → option bytes.
Variable net : nat → Request → HttpOutcome.
Variable tg_ok : nat → bool.
Variable meanwhile : nat → Globals → Globals.
Variable TELEGRAPH_TOKEN : string.
Variable telegraph : nat → PageForm → HttpOutcome.
Variable show : HttpOutcome → string.

(** The address [publish] reports is the answer of Telegraph to a page
    with the images [img_urls], in that order. *)
Lemma publish_page file_path img_urls s final path s' :
  publish TELEGRAPH_TOKEN telegraph show file_path img_urls s
  = (Val (final, path), s') →
  is_http final = true →
  ∃ t form,
    answers_with (telegraph t form) final
    ∧ page_content form = image_nodes img_urls.
Proof.
  intros Hrun Hhttp.
  destruct (publish_cases TELEGRAPH_TOKEN telegraph show file_path img_urls s)
    as (final' & path' & s'' & Hrun' & _ & _ & _ & Hpage & _).
  rewrite Hrun in Hrun'. injection Hrun' as <- <- <-.
  destruct (Hpage Hhttp) as (created & Hcreated & _ & _ & [->|[_ Hedited]]).
  - by eexists _, _.
  - by eexists _, _.
Qed.

(** What [container_gallery] returns when it runs the job. *)
Lemma container_gallery_job file_path sources chat_id inbox s0 s s'
  links errors out :
  telegram tg_ok meanwhile s0 = (Val tt, s) →
  pending_key_requests (globals s) !! chat_id = None →
  process_and_upload_images normalize net tg_ok meanwhile sources chat_id
                            inbox s
  = Some (Val (links, errors), s') →
  container_gallery normalize net tg_ok meanwhile TELEGRAPH_TOKEN telegraph
                    show file_path sources chat_id inbox s0 = Some out →
  out = match links.*2 with
        | [] => (telegram tg_ok meanwhile >>> ret None) s'
        | _ :: _ =>
            (telegram tg_ok meanwhile >>>
             let* (final_url, path) :=
               publish TELEGRAPH_TOKEN telegraph show file_path links.*2 in
             ret (Some (final_url, path, links.*2, errors))) s'
        end.
Proof.
  intros Hmsg Hnone Hjob. unfold container_gallery, container_job.
  rewrite Hmsg, Hnone, Hjob.
  destruct (links.*2); by intros [= <-].
Qed.

End Gallery.

(** C7: the names of the successes a job returns are in case-insensitive
    lexicographic order, and they are a subsequence of the names of the
    sorted batch, whatever happened to the credentials during the job.
    The gallery [handle_container] then makes of the job shows the links
    of those successes, all of them and in that order: [img_urls] is the
    list of the links, and the address the handler goes on with, when it
    is one, is the answer of Telegraph to a page whose images are those
    links in the order of the list. *)
Theorem links_in_name_order (normalize : bytes → option bytes)
  (net : nat → Request → HttpOutcome) (tg_ok : nat → bool)
  (meanwhile : nat → Globals → Globals)
  (sources : list (string * bytes)) (chat_id : Z) (inbox : list bool)
  (s s' : Sys) (links : list (string * json)) (errors : list ItemError) :
  process_and_upload_images normalize net tg_ok meanwhile sources chat_id inbox s
  = Some (Val (links, errors), s') →
  (StronglySorted name_le links.*1
   ∧ links.*1 `sublist_of` (sort_by_name sources).*1
   ∧ sort_by_name sources ≡ₚ sources)
  ∧ ∀ (TELEGRAPH_TOKEN : string) (telegraph : nat → PageForm → HttpOutcome)
      (show : HttpOutcome → string) (file_path : string) (s0 s'' : Sys)
      (final : json) (path : string) (img_urls : list json)
      (errs : list ItemError),
      telegram tg_ok meanwhile s0 = (Val tt, s) →
      pending_key_requests (globals s) !! chat_id = None →
      container_gallery normalize net tg_ok meanwhile TELEGRAPH_TOKEN telegraph
                        show file_path sources chat_id inbox s0
      = Some (Val (Some (final, path, img_urls, errs)), s'') →
      img_urls = links.*2 ∧ errs = errors
      ∧ (is_http final = true →
           ∃ t form,
             answers_with (telegraph t form) final
             ∧ page_content form = image_nodes links.*2
             ∧ node_images (page_content form) = links.*2).
Proof.
  intros Hjob. split; [by eapply job_links_sorted|].
  intros TELEGRAPH_TOKEN telegraph show file_path s0 s'' final path img_urls
         errs Hmsg Hnone Hrun.
  apply (container_gallery_job _ _ _ _ _ _ _ _ _ _ _ _ _ _ _ _ _ Hmsg Hnone Hjob)
    in Hrun.
  destruct (links.*2) as [|u us] eqn:Hurls.
  - unfold bind, telegram, ret in Hrun. by destruct (tg_ok (clock s')).
  - unfold bind at 1 in Hrun.
    destruct (telegram tg_ok meanwhile s') as [[[]|] s1]; [|done].
    unfold bind at 1 in Hrun.
    destruct (publish TELEGRAPH_TOKEN telegraph show file_path (u :: us) s1)
      as [[[final' path']|] s2] eqn:Hpub; [|done].
    unfold ret in Hrun. injection Hrun as -> -> -> -> ->.
    split; [done|]. split; [done|]. intros Hhttp.
    destruct (publish_page _ _ _ _ _ _ _ _ _ Hpub Hhttp)
      as (t & form & Hanswer & Hcontent).
    exists t, form. split; [exact Hanswer|]. split; [exact Hcontent|].
    rewrite Hcontent. apply node_images_image_nodes.
Qed.

Lemma links_in_name_order_witness :
  (StronglySorted name_le demo_links.*1
   ∧ demo_links.*1 `sublist_of` (sort_by_name demo_sources).*1
   ∧ sort_by_name demo_sources ≡ₚ demo_sources)
  ∧ [JStr "a"; JStr "b"; JStr "c"; JStr "d"; JStr "e"] = demo_links.*2
  ∧ ∃ t form,
      answers_with (demo_telegraph t form) (JStr "https://telegra.ph/g-01")
      ∧ page_content form = image_nodes demo_links.*2
      ∧ node_images (page_content form) = demo_links.*2.
Proof.
  destruct (links_in_name_order decode_all demo_host always_ok
              (demo_reply "key-two-0002") demo_sources 7 [true]
              (telegram always_ok (demo_reply "key-two-0002")
                 (demo_sys "key-one-0001")).2
              (end_state
                 (process_and_upload_images decode_all demo_host always_ok
                    (demo_reply "key-two-0002") demo_sources 7 [true]
                    (telegram always_ok (demo_reply "key-two-0002")
                       (demo_sys "key-one-0001")).2))
              demo_links [])
    as [Hsorted Hgallery]; [vm_compute; reflexivity|].
  split; [exact Hsorted|].
  destruct (Hgallery "tok" demo_telegraph demo_show "album.zip"
              (demo_sys "key-one-0001")
              demo_gallery_state
              (JStr "https://telegra.ph/g-01") "g-01"
              [JStr "a"; JStr "b"; JStr "c"; JStr "d"; JStr "e"] [])
    as (Hurls & _ & Hpage);
    [vm_compute; reflexivity..|].
  split; [exact Hurls|]. apply Hpage. reflexivity.
Defined.
